(** * diskSpace.py: Top-N disk usage scanner

    A shallow embedding of the three pieces of [diskSpace.py] that carry
    logic: the selection parser ([parse_selection]), the bounded Top-N
    scan ([iter_files], [top_files], [folder_size], [top_folders]) and the
    device enumeration ([enumerate_disks]).

    Conventions.
    - Python [int] is [Z]; [len] results are [nat] and are injected into [Z]
      where the source compares them with an [int].
    - Python [str] is a list of code points.  The code points are [ascii],
      read as the 256 code points U+0000..U+00FF (Latin-1), the narrowest
      of CPython's string representations; the character tables below
      ([isspace_c], [isdigit_c], [isdecimal_c], [lower_c]) are the Unicode
      ones restricted to that range.
    - An exception that leaves a function is a value [Raise e]; a function
      that cannot raise returns its value directly. *)

From Stdlib Require Import Ascii String ZArith Lia.
From stdpp Require Import base gmap strings pretty sorting numbers list.

Open Scope Z_scope.

(** ** Python values *)

Module Py.

Inductive exn := IndexError | ValueError.

Inductive result (A : Type) :=
| Ok (a : A)
| Raise (e : exn).
Arguments Ok {A} a.
Arguments Raise {A} e.

(** Sequencing: an exception raised by the first computation ends the
    second; stdpp's notation [x ← r; k] is used for it. *)
#[global] Instance result_bind : MBind result := fun A B k r =>
  match r with
  | Ok a => k a
  | Raise e => Raise e
  end.

Definition str := list ascii.

(** String literals of the source are written as Rocq string literals. *)
Definition lit (x : string) : str := list_ascii_of_string x.

Definition ord (c : ascii) : N := N_of_ascii c.

(** [str.isspace] on one character: U+0009..U+000D, U+001C..U+0020,
    U+0085 and U+00A0. *)
Definition isspace_c (c : ascii) : bool :=
  let n := ord c in
  ((9 <=? n) && (n <=? 13) || (28 <=? n) && (n <=? 32)
   || (n =? 133) || (n =? 160))%N.

(** [str.isdecimal] on one character: category Nd, here '0'..'9'. *)
Definition isdecimal_c (c : ascii) : bool :=
  let n := ord c in ((48 <=? n) && (n <=? 57))%N.

(** [str.isdigit] on one character: the decimal digits and the characters
    of numeric type Digit, here the superscripts U+00B2, U+00B3, U+00B9. *)
Definition isdigit_c (c : ascii) : bool :=
  let n := ord c in
  (isdecimal_c c || (n =? 178) || (n =? 179) || (n =? 185))%N.

(** [str.lower] on one character: 'A'..'Z' and U+00C0..U+00DE except
    U+00D7 move up by 32; everything else is unchanged. *)
Definition lower_c (c : ascii) : ascii :=
  let n := ord c in
  if ((65 <=? n) && (n <=? 90)
      || (192 <=? n) && (n <=? 222) && negb (n =? 215))%N
  then ascii_of_N (n + 32) else c.

Definition lower (t : str) : str := map lower_c t.

Fixpoint lstrip (t : str) : str :=
  match t with
  | c :: t' => if isspace_c c then lstrip t' else t
  | [] => []
  end.

Definition rstrip (t : str) : str := reverse (lstrip (reverse t)).

(** [t.strip()] *)
Definition strip (t : str) : str := rstrip (lstrip t).

(** [t.isdigit()]: every character is a digit and there is at least one. *)
Definition isdigit (t : str) : bool :=
  match t with
  | [] => false
  | _ => forallb isdigit_c t
  end.

(** [c in t] for a one-character string [c]. *)
Definition contains (c : ascii) (t : str) : bool :=
  existsb (fun d => bool_decide (d = c)) t.

(** [t.replace(a, b)] for one-character strings [a] and [b]. *)
Definition replace_c (a b : ascii) (t : str) : str :=
  map (fun c => if bool_decide (c = a) then b else c) t.

(** [t.replace(old, new)] for a three-character [old = a b c]:
    occurrences are replaced from the left and do not overlap. *)
Fixpoint replace3 (a b c : ascii) (new : str) (t : str) : str :=
  match t with
  | x :: t' =>
      match t' with
      | y :: z :: t2 =>
          if bool_decide (x = a ∧ y = b ∧ z = c)
          then new ++ replace3 a b c new t2
          else x :: replace3 a b c new t'
      | _ => x :: replace3 a b c new t'
      end
  | [] => []
  end.

(** [t.split(sep)] for a one-character [sep]: empty pieces are kept. *)
Fixpoint split (sep : ascii) (t : str) : list str :=
  match t with
  | [] => [[]]
  | c :: t' =>
      if bool_decide (c = sep) then [] :: split sep t'
      else match split sep t' with
           | w :: ws => (c :: w) :: ws
           | [] => [[c]]
           end
  end.

(** [t.split()]: the maximal runs of non-whitespace characters. *)
Fixpoint split_ws (t : str) : list str :=
  match t with
  | [] => []
  | c :: t' =>
      if isspace_c c then split_ws t'
      else match t' with
           | d :: _ =>
               if isspace_c d then [c] :: split_ws t'
               else match split_ws t' with
                    | w :: ws => (c :: w) :: ws
                    | [] => [[c]]
                    end
           | [] => [[c]]
           end
  end.

(** [t.startswith(p)] *)
Fixpoint startswith (t p : str) : bool :=
  match p, t with
  | [], _ => true
  | a :: p', b :: t' => bool_decide (a = b) && startswith t' p'
  | _ :: _, [] => false
  end.

Definition digit_value (c : ascii) : Z := Z.of_N (ord c) - 48.

(** [int(t)] on the strings the program passes to it, those for which
    [t.isdigit()] holds: the value in base ten when every character is a
    decimal digit, [ValueError] otherwise.  (CPython from 3.11 on also
    raises [ValueError] for more than 4300 digits unless that limit is
    lifted; the limit is not part of the model, and the theorems that
    promise a result take inputs of at most that length.) *)
Definition int (t : str) : result Z :=
  match t with
  | [] => Raise ValueError
  | _ =>
      if forallb isdecimal_c t
      then Ok (fold_left (fun acc c => 10 * acc + digit_value c) t 0)
      else Raise ValueError
  end.

(** [list(range(a, b))] *)
Definition range (a b : Z) : list Z := seqZ a (b - a).

(** [sorted(chosen)] for a set of integers. *)
Definition sorted (chosen : gset Z) : list Z := merge_sort Z.le (elements chosen).

(** [l[:n]], with Python's reading of a negative bound. *)
Definition slice_to {A} (l : list A) (n : Z) : list A :=
  if n <? 0 then take (Z.to_nat (Z.of_nat (length l) + n)) l
  else take (Z.to_nat n) l.

(** Comparison of two strings, code point by code point. *)
Fixpoint str_compare (a b : str) : comparison :=
  match a, b with
  | [], [] => Eq
  | [], _ :: _ => Lt
  | _ :: _, [] => Gt
  | x :: a', y :: b' =>
      match (ord x ?= ord y)%N with
      | Eq => str_compare a' b'
      | c => c
      end
  end.

(** [a < b] on strings. *)
Definition str_ltb (a b : str) : bool :=
  match str_compare a b with Lt => true | _ => false end.

(** [l.sort(key=..., reverse=...)] through the [<] of the keys, as Python
    sorts: the sort is stable, also when reversed.  [before x y] says that
    [x], met earlier in [l], stays in front of [y]. *)
Fixpoint insert_by {A} (before : A -> A -> bool) (x : A) (l : list A) : list A :=
  match l with
  | [] => [x]
  | y :: l' => if before x y then x :: l else y :: insert_by before x l'
  end.

Definition list_sort {A} (lt : A -> A -> bool) (reverse : bool) (l : list A)
  : list A :=
  foldr (insert_by (fun x y => negb (if reverse then lt x y else lt y x))) [] l.

(** [os.path.join(a, b)] (POSIX). *)
Definition join (a b : str) : str :=
  if startswith b (lit "/") then b
  else if bool_decide (a = []) || bool_decide (list.last a = Some "/"%char)
       then a ++ b
       else a ++ lit "/" ++ b.

End Py.

Import Py.

(** ** Selection parsing *)

(** The body of [for i in range(a, b + 1)]. *)
Definition add_in_range (max_idx : Z) (chosen : gset Z) (i : Z) : gset Z :=
  if (1 <=? i) && (i <=? max_idx) then {[ i ]} ∪ chosen else chosen.

(** One iteration of the token loop, after the test for ['all']. *)
Definition parse_token (token : str) (max_idx : Z) (chosen : gset Z)
  : result (gset Z) :=
  let single :=
    if isdigit token then
      i ← int token; Ok (add_in_range max_idx chosen i)
    else Ok chosen in
  if contains "-" token then
    let parts :=
      strip <$> filter (fun p => strip p ≠ []) (split "-" token) in
    match parts with
    | [p0; p1] =>
        if isdigit p0 && isdigit p1 then
          a ← int p0;
          b ← int p1;
          let '(a, b) := if b <? a then (b, a) else (a, b) in
          Ok (foldl (add_in_range max_idx) chosen (range a (b + 1)))
        else single
    | _ => single
    end
  else single.

Fixpoint parse_tokens (tokens : list str) (max_idx : Z) (chosen : gset Z)
  : result (list Z) :=
  match tokens with
  | [] => Ok (sorted chosen)
  | token :: rest =>
      if bool_decide (token = lit "all") then Ok (range 1 (max_idx + 1))
      else
        chosen' ← parse_token token max_idx chosen;
        parse_tokens rest max_idx chosen'
  end.

Definition parse_selection (s : str) (max_idx : Z) : result (list Z) :=
  if bool_decide (s = []) then Ok []
  else
    let s := lower (strip s) in
    if bool_decide (s = lit "all") then Ok (range 1 (max_idx + 1))
    else
      let norm := replace_c ";" "," s in
      let norm := replace3 " " "-" " " (lit "-") norm in
      let tokens :=
        strip <$> filter (fun t => strip t ≠ []) (split "," norm) in
      parse_tokens tokens max_idx ∅.

(** ** The heap queue of the standard library

    [heapq] keeps a list [heap] with [heap[k] <= heap[2*k+1]] and
    [heap[k] <= heap[2*k+2]]; the functions below are those of
    [Lib/heapq.py], the list being passed and returned.  The loops count
    down a [fuel] that the callers set to a bound on the number of
    iterations ([siftdown_loop_fuel], [siftup_loop_fuel]). *)

Module heapq.
Section heapq.
Context {A : Type} (lt : A -> A -> bool).

(** The [while pos > startpos] loop of [_siftdown]. *)
Fixpoint siftdown_loop (fuel : nat) (heap : list A) (newitem : A)
    (startpos pos : nat) : list A :=
  match fuel with
  | S fuel' =>
      if bool_decide (startpos < pos)%nat then
        let parentpos := ((pos - 1) / 2)%nat in
        let parent := default newitem (heap !! parentpos) in
        if lt newitem parent
        then siftdown_loop fuel' (<[pos := parent]> heap) newitem startpos parentpos
        else <[pos := newitem]> heap
      else <[pos := newitem]> heap
  | O => <[pos := newitem]> heap
  end.

Definition siftdown (heap : list A) (startpos pos : nat) : list A :=
  match heap !! pos with
  | Some newitem => siftdown_loop pos heap newitem startpos pos
  | None => heap
  end.

(** The [while childpos < endpos] loop of [_siftup]: the smaller child
    moves up until a leaf is reached; the result is the list and the
    final [pos]. *)
Fixpoint siftup_loop (fuel : nat) (heap : list A) (newitem : A) (pos : nat)
    : list A * nat :=
  match fuel with
  | S fuel' =>
      let endpos := length heap in
      let childpos := (2 * pos + 1)%nat in
      if bool_decide (childpos < endpos)%nat then
        let rightpos := (childpos + 1)%nat in
        let item k := default newitem (heap !! k) in
        let childpos :=
          if bool_decide (rightpos < endpos)%nat
             && negb (lt (item childpos) (item rightpos))
          then rightpos else childpos in
        siftup_loop fuel' (<[pos := item childpos]> heap) newitem childpos
      else (heap, pos)
  | O => (heap, pos)
  end.

Definition siftup (heap : list A) (pos : nat) : list A :=
  match heap !! pos with
  | Some newitem =>
      let '(heap, leaf) := siftup_loop (length heap) heap newitem pos in
      siftdown (<[leaf := newitem]> heap) pos leaf
  | None => heap
  end.

Definition heappush (heap : list A) (item : A) : list A :=
  let heap := heap ++ [item] in
  siftdown heap 0 (length heap - 1).

(** Returns the item that was smallest and the new heap. *)
Definition heapreplace (heap : list A) (item : A) : result (A * list A) :=
  match heap with
  | [] => Raise IndexError
  | returnitem :: _ => Ok (returnitem, siftup (<[0%nat := item]> heap) 0)
  end.
End heapq.
End heapq.

(** ** Scanning *)

(** A row of a report, the tuple [(size, path, mtime)].  The modification
    time, a float in the source, is a number of which only the order is
    used; it is an integer here. *)
Definition record : Type := Z * str * Z.

(** [x < y] on such tuples: the first component that differs decides. *)
Definition tuple_ltb (x y : record) : bool :=
  let '(sx, px, mx) := x in
  let '(sy, py, my) := y in
  if bool_decide (sx ≠ sy) then sx <? sy
  else if bool_decide (px ≠ py) then str_ltb px py
  else mx <? my.

Record stat_result := { st_size : Z; st_mtime : Z }.

(** What a scan finds under a name.
    - [File lstat getsize]: an entry that is not a directory, with the
      outcome of [os.stat(fp, follow_symlinks=False)] and of
      [os.path.getsize(fp)], [None] when the call raises;
    - [Dir lstat listing]: a directory, with the outcome of
      [stat(follow_symlinks=False)] on its entry and of listing it, [None]
      when the call raises;
    - [DirLink]: a symbolic link to a directory, which the scan does not
      follow;
    - [Opaque]: an entry whose status cannot be read: [is_dir] raises
      [OSError] and the [stat] calls raise. *)
#[local] Unset Elimination Schemes.
Inductive node :=
| File (lstat : option stat_result) (getsize : option Z)
| Dir (lstat : option stat_result) (listing : option (list (str * node)))
| DirLink
| Opaque.
#[local] Set Elimination Schemes.

(** The outcome of the two [stat] calls on an entry that [os.walk] lists
    among the file names ([entry.is_dir()] is false, or raises [OSError]);
    [None] for an entry listed among the directory names. *)
Definition nondir (e : node) : option (option stat_result * option Z) :=
  match e with
  | File lstat getsize => Some (lstat, getsize)
  | Opaque => Some (None, None)
  | Dir _ _ | DirLink => None
  end.

(** [os.walk(top, onerror=lambda e: None)]: the triples
    [(dirpath, dirnames, filenames)], top-down.  A directory that cannot
    be listed yields nothing; a symbolic link to a directory is named in
    [dirnames] and not entered.  Each file name comes with the outcomes of
    the [stat] calls on the joined path. *)
Fixpoint walk (top : str) (d : node)
  : list (str * list str * list (str * (option stat_result * option Z))) :=
  match d with
  | Dir _ (Some entries) =>
      (top,
       (filter (fun e => nondir e.2 = None) entries).*1,
       omap (fun e => pair e.1 <$> nondir e.2) entries)
      :: (entries ≫= fun '(dirname, child) =>
            match child with
            | Dir _ _ => walk (join top dirname) child
            | _ => []
            end)
  | _ => []
  end.

(** The files [iter_files] yields, in order: [(fp, st_size, st_mtime)]. *)
Definition iter_files (root : str) (d : node) : list (str * Z * Z) :=
  '(dp, dn, fn) ← walk root d;
  '(f, (lstat, _)) ← fn;
  let fp := join dp f in
  match lstat with
  | Some st => [(fp, st_size st, st_mtime st)]
  | None => []
  end.

(** One iteration of the loop of [top_files]. *)
Definition top_files_step (n : Z) (heap : list record) (f : str * Z * Z)
  : result (list record) :=
  let '(path, size, mtime) := f in
  if Z.of_nat (length heap) <? n then
    Ok (heapq.heappush tuple_ltb heap (size, path, mtime))
  else
    match heap with
    | [] => Raise IndexError
    | (size0, _, _) :: _ =>
        if size0 <? size then
          '(_, heap) ← heapq.heapreplace tuple_ltb heap (size, path, mtime);
          Ok heap
        else Ok heap
    end.

Fixpoint top_files_loop (n : Z) (heap : list record) (files : list (str * Z * Z))
  : result (list record) :=
  match files with
  | [] => Ok heap
  | f :: files' =>
      heap ← top_files_step n heap f;
      top_files_loop n heap files'
  end.

(** [top_files] on the stream of files that [iter_files] yields. *)
Definition top_files_of (files : list (str * Z * Z)) (n : Z)
  : result (list record) :=
  heap ← top_files_loop n [] files;
  Ok (list_sort tuple_ltb true heap).

(** [top_files(root, n)], where [d] is what is found at [root]. *)
Definition top_files (root : str) (d : node) (n : Z) : result (list record) :=
  top_files_of (iter_files root d) n.

Definition folder_size (folder : str) (d : node) : Z :=
  foldl (fun total '(dp, dn, fn) =>
           foldl (fun total '(f, (_, getsize)) =>
                    match getsize with
                    | Some sz => total + sz
                    | None => total
                    end) total fn)
        0 (walk folder d).

(** [os.scandir(root)]: the entries, or [None] when it raises. *)
Definition os_scandir (d : node) : option (list (str * node)) :=
  match d with
  | Dir _ listing => listing
  | _ => None
  end.

(** The loop of [top_folders] over the entries of [root]; [None] when an
    exception reaches the outer [try], which is when
    [e.is_dir(follow_symlinks=False)] raises. *)
Fixpoint top_folders_loop (root : str) (it : list (str * node))
    (entries : list record) : option (list record) :=
  match it with
  | [] => Some entries
  | (name, e) :: it' =>
      match e with
      | Opaque => None
      | File _ _ | DirLink => top_folders_loop root it' entries
      | Dir lstat _ =>
          let path := join root name in
          let sz := folder_size path e in
          match lstat with
          | Some st =>
              top_folders_loop root it' (entries ++ [(sz, path, st_mtime st)])
          | None => top_folders_loop root it' entries
          end
      end
  end.

(** [top_folders(root, n)], where [d] is what is found at [root]. *)
Definition top_folders (root : str) (d : node) (n : Z) : list record :=
  match os_scandir d with
  | None => []
  | Some it =>
      match top_folders_loop root it [] with
      | None => []
      | Some entries => slice_to (list_sort tuple_ltb true entries) n
      end
  end.

(** ** Disk enumeration *)

(** A device, the tuple [(name, path, total, free)]. *)
Definition disk : Type := str * str * Z * Z.

Definition disk_name (d : disk) : str := d.1.1.1.
Definition disk_path (d : disk) : str := d.1.1.2.

(** What [enumerate_disks] reads from the host.
    - [proc_mounts]: the lines of [/proc/mounts], [None] when opening the
      file raises (a failure in the middle of reading it, after which the
      source goes on to [df] with the mounts read so far, is not
      modelled);
    - [df]: [out.splitlines()] for the output of [df], [None] when running
      it raises;
    - [disk_usage]: [shutil.disk_usage], [(total, used, free)], [None]
      when it raises. *)
Record host := {
  IS_WINDOWS : bool;
  GetLogicalDrives : Z;
  GetDriveTypeW : str -> Z;
  proc_mounts : option (list str);
  df : option (list str);
  isdir : str -> bool;
  disk_usage : str -> option (Z * Z * Z);
}.

Definition ascii_uppercase : str := lit "ABCDEFGHIJKLMNOPQRSTUVWXYZ".
Definition DRIVE_FIXED : Z := 3.

(** [enumerate(l)] *)
Definition enumerate {A} (l : list A) : list (nat * A) :=
  zip (seq 0 (length l)) l.

(** One iteration of the loop over the drive letters. *)
Definition drive_step (h : host) (disks : list disk) (il : nat * ascii)
  : list disk :=
  let '(i, letter) := il in
  if bool_decide (Z.land (GetLogicalDrives h) (Z.shiftl 1 (Z.of_nat i)) ≠ 0) then
    let root := [letter; ":"%char; "092"%char] in
    if bool_decide (GetDriveTypeW h root = DRIVE_FIXED) then
      match disk_usage h root with
      | Some (total, used, free) => disks ++ [([letter; ":"%char], root, total, free)]
      | None => disks
      end
    else disks
  else disks.

(** The mount points read from the mount table, from [df], or ['/']. *)
Definition read_mounts (h : host) : list str :=
  match proc_mounts h with
  | Some lines =>
      omap (fun line =>
              let parts := split_ws line in
              if bool_decide (2 ≤ length parts)%nat then parts !! 1%nat else None)
           lines
  | None =>
      match df h with
      | Some out =>
          omap (fun line =>
                  let cols := split_ws line in
                  if bool_decide (6 ≤ length cols)%nat then list.last cols else None)
               (tail out)
      | None => [lit "/"]
      end
  end.

Definition pseudo_prefixes : list str :=
  lit <$> ["/proc"; "/sys"; "/dev"; "/run"; "/snap"; "/private/var"]%string.

(** One iteration of the loop over the mounts; the state is [seen] and
    [disks]. *)
Definition mount_step (h : host) (st : gset str * list disk) (mnt : str)
  : gset str * list disk :=
  let '(seen, disks) := st in
  if negb (isdir h mnt) then st
  else if existsb (startswith mnt) pseudo_prefixes then st
  else if bool_decide (mnt ∈ seen) then st
  else
    let seen := {[ mnt ]} ∪ seen in
    match disk_usage h mnt with
    | Some (total, used, free) => (seen, disks ++ [(mnt, mnt, total, free)])
    | None => (seen, disks)
    end.

(** The list [disks] before it is sorted. *)
Definition discover (h : host) : list disk :=
  if IS_WINDOWS h then foldl (drive_step h) [] (enumerate ascii_uppercase)
  else (foldl (mount_step h) (∅, []) (read_mounts h)).2.

Definition enumerate_disks (h : host) : list disk :=
  list_sort (fun a b => str_ltb (disk_name a) (disk_name b)) false (discover h).

(** ** Formatting and the program as a whole

    The rest of the file: [format_bytes], [export_csv] and [main].  They
    print, read a line, write files and can end in exceptions that the
    functions above do not raise, so they run in a monad of their own. *)

(** The exceptions that can leave [main]: those of the functions above,
    and those of the conversions and of the operating system. *)
Inductive exception :=
| Std (e : exn)
| OverflowError
| TypeError
| EOFError
| OSError.

Inductive outcome (A : Type) :=
| Returns (a : A)
| Raises (e : exception).
Arguments Returns {A} a.
Arguments Raises {A} e.

#[global] Instance outcome_bind : MBind outcome := fun A B k r =>
  match r with
  | Returns a => k a
  | Raises e => Raises e
  end.

(** A result of the functions above, as an outcome. *)
Definition std {A} (r : result A) : outcome A :=
  match r with
  | Ok a => Returns a
  | Raise e => Raises (Std e)
  end.

(** What the program does to the world, in the order in which it does it.
    - [Printed text]: [print(text)];
    - [Prompted text]: [input(text)] shows [text];
    - [Makedirs path]: [os.makedirs(path, exist_ok=True)] returned;
    - [Opened path]: [open(path, 'w', ...)] returned, the file is empty;
    - [Writerow fields]: [writerow] on the file opened last, each field
      as the text that [csv] makes of it before quoting ([str] of an
      integer).
    The streams are taken to accept every string: [print], the prompt of
    [input] and [writerow] return. *)
Inductive effect :=
| Printed (text : str)
| Prompted (text : str)
| Makedirs (path : str)
| Opened (path : str)
| Writerow (fields : list str).

(** A computation that has effects: from the effects so far to the
    effects after it and its outcome. *)
Definition io (A : Type) : Type := list effect → list effect * outcome A.

#[global] Instance io_ret : MRet io := fun A a log => (log, Returns a).

#[global] Instance io_bind : MBind io := fun A B k m log =>
  match m log with
  | (log', Returns a) => k a log'
  | (log', Raises e) => (log', Raises e)
  end.

Definition emit (e : effect) : io unit := fun log => (log ++ [e], Returns tt).

Definition lift {A} (r : outcome A) : io A := fun log => (log, r).

(** A reading of the world, which may depend on what the program did
    before. *)
Definition observe {A} (f : list effect → A) : io A :=
  fun log => (log, Returns (f log)).

(** [for x in l: body] *)
Fixpoint for_each {A} (l : list A) (body : A → io unit) : io unit :=
  match l with
  | [] => mret tt
  | x :: l' => body x;; for_each l' body
  end.

(** *** More of Python *)

Definition nl : ascii := "010"%char.

(** [str(n)] for an integer. *)
Definition str_of_int (n : Z) : str := lit (pretty n).

(** [t] in a field of [width], as [f"{t:>width}"] and [f"{t:<width}"]
    have it: padded with spaces, never cut. *)
Definition rjust (width : nat) (t : str) : str :=
  replicate (width - length t) " "%char ++ t.

Definition ljust (width : nat) (t : str) : str :=
  t ++ replicate (width - length t) " "%char.

(** [f"{v:>width}"] for a value that is a string or [None]: [None] has no
    such format. *)
Definition format_right (width : nat) (v : option str) : outcome str :=
  match v with
  | Some t => Returns (rjust width t)
  | None => Raises TypeError
  end.

(** [enumerate(l, start=1)] *)
Definition enumerate1 {A} (l : list A) : list (Z * A) :=
  zip (seqZ 1 (Z.of_nat (length l))) l.

(** [l[i]], with Python's reading of a negative index. *)
Definition getitem {A} (l : list A) (i : Z) : result A :=
  let i := if i <? 0 then i + Z.of_nat (length l) else i in
  if i <? 0 then Raise IndexError
  else match l !! Z.to_nat i with
       | Some x => Ok x
       | None => Raise IndexError
       end.

(** [t.replace(c, '')] for a one-character [c]. *)
Definition remove_c (c : ascii) (t : str) : str := filter (fun x => x ≠ c) t.

Fixpoint lstrip_c (c : ascii) (t : str) : str :=
  match t with
  | x :: t' => if bool_decide (x = c) then lstrip_c c t' else t
  | [] => []
  end.

(** [t.rstrip(c)] for a one-character [c]. *)
Definition rstrip_c (c : ascii) (t : str) : str :=
  reverse (lstrip_c c (reverse t)).

(** [t[t.find(c):]], and the empty string when [c] is not in [t]. *)
Fixpoint from_first (c : ascii) (t : str) : str :=
  match t with
  | x :: t' => if bool_decide (x = c) then t else from_first c t'
  | [] => []
  end.

(** [os.path.dirname(p)] (POSIX): [p] up to its last ['/'], without the
    slashes at the end unless there is nothing else. *)
Definition dirname (p : str) : str :=
  let head := reverse (from_first "/" (reverse p)) in
  if bool_decide (head ≠ []) && negb (forallb (fun x => bool_decide (x = "/"%char)) head)
  then rstrip_c "/" head
  else head.

(** *** Floating point

    A [float] of [format_bytes] is an integer divided some times by 1024:
    [num / 1024 ^ shift].  The integer is that of [float(size)]; a
    division of a double of magnitude 1 or more by 1024 is exact, and so
    are the comparison with 1024 and [int]. *)
Record float := { num : Z; shift : nat }.

(** [float(n)]: the double nearest to [n], ties going to the even
    mantissa of 53 bits; [OverflowError] when that is [2 ^ 1024] or
    more. *)
Definition float_of_int (n : Z) : outcome float :=
  let a := Z.abs n in
  let bits := Z.log2 a + 1 in
  let rounded :=
    if bits <=? 53 then a
    else
      let e := bits - 53 in
      let q := Z.shiftr a e in
      let r := Z.land a (Z.ones e) in
      let half := Z.shiftl 1 (e - 1) in
      let q := if (half <? r) || (r =? half) && Z.odd q then q + 1 else q in
      Z.shiftl q e in
  if 2 ^ 1024 <=? rounded then Raises OverflowError
  else Returns {| num := Z.sgn n * rounded; shift := 0 |}.

(** [x < n] for an integer [n] *)
Definition float_ltb (x : float) (n : Z) : bool :=
  num x <? n * 1024 ^ Z.of_nat (shift x).

(** [x / 1024] *)
Definition float_div_1024 (x : float) : float :=
  {| num := num x; shift := S (shift x) |}.

(** [int(x)]: towards zero. *)
Definition int_of_float (x : float) : Z :=
  Z.quot (num x) (1024 ^ Z.of_nat (shift x)).

(** The decimal digit [d]. *)
Definition digit (d : Z) : ascii := ascii_of_N (Z.to_N (48 + d)).

(** [f"{x:.2f}"]: the hundredths nearest to [x], ties going to the even
    one, written with two decimals; the sign is that of [x]. *)
Definition format_2f (x : float) : str :=
  let d := 1024 ^ Z.of_nat (shift x) in
  let a := 100 * Z.abs (num x) in
  let q := a / d in
  let r := a mod d in
  let h := if (d <? 2 * r) || (2 * r =? d) && Z.odd q then q + 1 else q in
  (if num x <? 0 then lit "-" else [])
  ++ str_of_int (h / 100) ++ lit "."
  ++ [digit (h mod 100 / 10); digit (h mod 10)].

(** *** Formatting *)

(** The loop of [format_bytes]; [None] when the loop ends, and with it
    the function, without a [return]. *)
Fixpoint format_bytes_loop (orig : float) (units : list str) : option str :=
  match units with
  | [] => None
  | unit :: units' =>
      if float_ltb orig 1024 || bool_decide (unit = lit "PB") then
        Some (if bool_decide (unit ≠ lit "B")
              then format_2f orig ++ lit " " ++ unit
              else str_of_int (int_of_float orig) ++ lit " B")
      else format_bytes_loop (float_div_1024 orig) units'
  end.

Definition format_bytes (size : Z) : outcome (option str) :=
  orig ← float_of_int size;
  Returns (format_bytes_loop orig (lit <$> ["B"; "KB"; "MB"; "GB"; "TB"; "PB"]%string)).

(** *** The world of [main] *)

(** What [main] reads from the world.
    - [the_host]: what [enumerate_disks] reads;
    - [find]: what a scan that starts now finds at a path;
    - [stdin]: the line that [input] reads, [None] at the end of the
      input;
    - [strftime]: [time.strftime('%Y%m%d_%H%M%S')];
    - [fromtimestamp]: [datetime.fromtimestamp(m).strftime(...)] in the
      format of the source, or the exception that it raises;
    - [makedirs], [open_w]: whether [os.makedirs(path, exist_ok=True)]
      and [open(path, 'w', ...)] return; they raise [OSError] otherwise. *)
Record world := {
  the_host : host;
  find : list effect → str → node;
  stdin : option str;
  strftime : str;
  fromtimestamp : Z → outcome str;
  makedirs : list effect → str → bool;
  open_w : list effect → str → bool;
}.

Definition os_makedirs (w : world) (path : str) : io unit :=
  ok ← observe (fun log => makedirs w log path);
  if ok : bool then emit (Makedirs path) else lift (Raises OSError).

Definition open_write (w : world) (path : str) : io unit :=
  ok ← observe (fun log => open_w w log path);
  if ok : bool then emit (Opened path) else lift (Raises OSError).

(** *** CSV *)

Definition export_csv (w : world) (rows : list record) (headers : list str)
    (path : str) : io unit :=
  os_makedirs w (dirname path);;
  open_write w path;;
  emit (Writerow headers);;
  for_each (enumerate1 rows) (fun '(rank, (size, p, m)) =>
    human ← lift (format_bytes size);
    time ← lift (fromtimestamp w m);
    emit (Writerow [str_of_int rank; str_of_int size; default [] human; p; time])).

(** *** Main *)

(** The arguments that [argparse] has read. *)
Record args := {
  top : Z;
  include_folders : bool;
  export : bool;
  output_dir : str;
}.

(** The lines of a ranking, under their heading; [what] is ['Path'] or
    ['Folder']. *)
Definition print_ranking (what : str) (rows : list record) : io unit :=
  emit (Printed (rjust 4 (lit "Rank") ++ lit "  " ++ rjust 10 (lit "Size")
               ++ lit "  " ++ what));;
  for_each (enumerate1 rows) (fun '(rank, (size, p, m)) =>
    human ← lift (format_bytes size ≫= format_right 10);
    emit (Printed (rjust 4 (str_of_int rank) ++ lit "  " ++ human ++ lit "  " ++ p))).

(** The part of the loop over the selected devices for the files or for
    the folders of one device, once [rows] is there. *)
Definition report_ranking (w : world) (a : args) (kind what : str)
    (name : str) (rows : list record) (none : str) : io unit :=
  match rows with
  | _ :: _ =>
      print_ranking what rows;;
      if export a then
        let fcsv :=
          join (output_dir a)
               (lit "Top" ++ str_of_int (top a) ++ kind ++ lit "_"
                ++ remove_c ":" name ++ lit "_" ++ strftime w ++ lit ".csv") in
        export_csv w rows
          [lit "Rank"; lit "SizeBytes"; lit "Size"; what; lit "LastWrite"] fcsv;;
        emit (Printed (lit "Exported: " ++ fcsv))
      else mret tt
  | [] => emit (Printed none)
  end.

(** The body of the loop over the selected devices. *)
Definition report (w : world) (a : args) (d : disk) : io unit :=
  let '(name, path, total, free) := d in
  emit (Printed (nl :: lit "=== " ++ name ++ lit " (" ++ path ++ lit ") ==="));;
  root ← observe (fun log => find w log path);
  files ← lift (std (top_files path root (top a)));
  emit (Printed (nl :: lit "-- Top " ++ str_of_int (top a) ++ lit " Files --"));;
  report_ranking w a (lit "Files") (lit "Path") name files
    (lit "No files found or access denied.");;
  if include_folders a then
    emit (Printed (nl :: lit "-- Top " ++ str_of_int (top a) ++ lit " Folders --"));;
    root ← observe (fun log => find w log path);
    let folders := top_folders path root (top a) in
    report_ranking w a (lit "Folders") (lit "Folder") name folders
      (lit "No folders found or access denied.")
  else mret tt.

(** The table of the devices. *)
Definition print_disks (disks : list disk) : io unit :=
  emit (Printed (nl :: lit "== Disks =="));;
  emit (Printed (rjust 3 (lit "Idx") ++ lit "  " ++ ljust 20 (lit "Name") ++ lit " "
               ++ rjust 12 (lit "Total") ++ lit " " ++ rjust 12 (lit "Free")
               ++ lit " " ++ rjust 12 (lit "Used")));;
  for_each (enumerate1 disks) (fun '(idx, (name, path, total, free)) =>
    total' ← lift (format_bytes total ≫= format_right 12);
    free' ← lift (format_bytes free ≫= format_right 12);
    used' ← lift (format_bytes (total - free) ≫= format_right 12);
    emit (Printed (rjust 3 (str_of_int idx) ++ lit "  " ++ ljust 20 name ++ lit " "
                 ++ total' ++ lit " " ++ free' ++ lit " " ++ used'))).

Definition prompt : str :=
  nl :: lit "Enter disk numbers (e.g., 1,3,5), ranges (e.g., 1-4), or 'all': ".

(** [input(prompt)] *)
Definition input (w : world) (prompt : str) : io str :=
  emit (Prompted prompt);;
  match stdin w with
  | Some line => mret line
  | None => lift (Raises EOFError)
  end.

(** [main], after the arguments are read; it returns the exit status. *)
Definition main (w : world) (a : args) : io Z :=
  let disks := enumerate_disks (the_host w) in
  match disks with
  | [] => emit (Printed (lit "No disks found."));; mret 1
  | _ :: _ =>
      print_disks disks;;
      selection_raw ← input w prompt;
      indices ← lift (std (parse_selection selection_raw (Z.of_nat (length disks))));
      match indices with
      | [] => emit (Printed (lit "No valid selections. Exiting."));; mret 1
      | _ :: _ =>
          (if export a then os_makedirs w (output_dir a) else mret tt);;
          for_each indices (fun i =>
            d ← lift (std (getitem disks (i - 1)));
            report w a d);;
          emit (Printed (nl :: lit "Done."));;
          mret 0
      end
  end.

(** ** The vocabulary of the statements

    The definitions below are not part of the program: they say what the
    theorems need to say about it. *)

(** [x >= y] on tuples. *)
Definition tuple_ge (x y : record) : Prop := tuple_ltb x y = false.

(** [x <= y] for the items of a heap, as [not (y < x)]. *)
Definition heap_le {A} (lt : A -> A -> bool) (x y : A) : Prop := lt y x = false.

(** The heap invariant at index [k]: the parent is not above the child. *)
Definition heap_edge {A} (lt : A -> A -> bool) (h : list A) (k : nat) : Prop :=
  ∀ p x, h !! ((k - 1) / 2)%nat = Some p → h !! k = Some x → heap_le lt p x.

Definition is_heap {A} (lt : A -> A -> bool) (h : list A) : Prop :=
  ∀ k, (0 < k)%nat → heap_edge lt h k.

(** The row that [top_files] makes of a file that [iter_files] yields. *)
Definition row (f : str * Z * Z) : record := (f.1.2, f.1.1, f.2).

Definition size (r : record) : Z := r.1.1.

(** The sizes of the [n] largest of [sizes]: a full descending sort, cut
    after [n]. *)
Definition largest (n : Z) (sizes : list Z) : list Z :=
  take (Z.to_nat n) (list_sort Z.ltb true sizes).

(** [x] before [y] in a list ordered largest first. *)
Definition Zge (x y : Z) : Prop := y ≤ x.

(** The state of the loop: the heap holds [n] largest of the rows seen. *)
Definition retained (n : nat) (seen heap : list record) : Prop :=
  is_heap tuple_ltb heap
  ∧ ∃ dropped, seen ≡ₚ heap ++ dropped
      ∧ length heap = (n `min` length seen)%nat
      ∧ ∀ t r, t ∈ heap → r ∈ dropped → size r ≤ size t.

(** The order of the rows that [top_files] returns: larger sizes first;
    among equal sizes the greater path first; among equal paths the later
    time first. *)
Definition descending (a b : record) : Prop :=
  size b < size a
  ∨ (size b = size a
     ∧ (str_ltb b.1.2 a.1.2 = true ∨ (b.1.2 = a.1.2 ∧ b.2 ≤ a.2))).

(** The total that the specification asks for: the sizes of all files
    anywhere beneath an entry, where a file whose size cannot be read, a
    directory that cannot be listed and a symbolic link to a directory
    count for nothing. *)
Fixpoint total_size (e : node) : Z :=
  match e with
  | File _ (Some sz) => sz
  | Dir _ (Some entries) => foldr (fun e total => total_size e.2 + total) 0 entries
  | _ => 0
  end.

Definition add_sizes (total : Z)
    (t : str * list str * list (str * (option stat_result * option Z))) : Z :=
  foldl (fun total '(f, (_, getsize)) =>
           match getsize with
           | Some sz => total + sz
           | None => total
           end) total t.2.

(** The row of an immediate child directory, when there is one. *)
Definition folder_row (root : str) (e : str * node) : option record :=
  match e.2 with
  | Dir (Some st) listing =>
      Some (total_size (Dir (Some st) listing), join root e.1, st_mtime st)
  | _ => None
  end.

Definition in_range (max_idx : Z) (i : Z) : Prop := 1 ≤ i ≤ max_idx.

#[global] Instance in_range_dec (max_idx i : Z) : Decision (in_range max_idx i).
Proof. unfold in_range. apply _. Defined.

Definition all_in_range (max_idx : Z) (chosen : gset Z) : Prop :=
  ∀ i, i ∈ chosen → in_range max_idx i.

(** The characters of a range of two numbers: decimal digits and ['-']. *)
Definition plain (c : ascii) : Prop := isdecimal_c c = true ∨ c = "-"%char.

(** A character on which [isdigit] and [isdecimal] agree: every character
    but the superscripts U+00B2, U+00B3 and U+00B9. *)
Definition agreed (c : ascii) : Prop := isdigit_c c = isdecimal_c c.

(** A mount that the loop keeps: a directory outside the pseudo
    file systems. *)
Definition kept (h : host) (mnt : str) : Prop :=
  isdir h mnt = true ∧ existsb (startswith mnt) pseudo_prefixes = false.

(** The device reported for a mount whose capacity query succeeds. *)
Definition reported (h : host) (mnt : str) (d : disk) : Prop :=
  ∃ total used free,
    disk_usage h mnt = Some (total, used, free) ∧ d = (mnt, mnt, total, free).

(** [a <= b] on strings, as [not (b < a)]. *)
Definition str_le (a b : str) : Prop := str_ltb b a = false.

Definition name_le (a b : disk) : Prop := str_le (disk_name a) (disk_name b).

(** ** Sample inputs *)

(** The files of the end-to-end scenario of the specification, sizes
    10, 50, 5, 200 and 1. *)
Definition sample_files : list (str * Z * Z) :=
  [(lit "/r/a", 10, 1); (lit "/r/b", 50, 2); (lit "/r/c", 5, 3);
   (lit "/r/d", 200, 4); (lit "/r/e", 1, 5)].

(** Files with equal sizes. *)
Definition tied_files : list (str * Z * Z) :=
  [(lit "/r/a", 7, 1); (lit "/r/c", 7, 2); (lit "/r/b", 7, 3); (lit "/r/d", 9, 4)].

Definition plain_file (sz : Z) : node :=
  File (Some {| st_size := sz; st_mtime := 1 |}) (Some sz).

Definition plain_dir (mtime : Z) (entries : list (str * node)) : node :=
  Dir (Some {| st_size := 4096; st_mtime := mtime |}) (Some entries).

(** A root with one file. *)
Definition one_file_root : node := plain_dir 1 [(lit "f", plain_file 10)].

(** A root with a file next to two folders; folder [a] holds a file and,
    in a sub-folder, another one. *)
Definition sample_root : node :=
  plain_dir 1
    [(lit "top.bin", plain_file 100);
     (lit "a", plain_dir 2 [(lit "g", plain_file 5);
                            (lit "b", plain_dir 3 [(lit "f", plain_file 7)])]);
     (lit "c", plain_dir 4 [])].

(** A host with a mount table in which [/mnt/data] appears twice and the
    capacity query of [/home] fails. *)
Definition sample_host : host :=
  {| IS_WINDOWS := false;
     GetLogicalDrives := 0;
     GetDriveTypeW := fun _ => 0;
     proc_mounts :=
       Some (lit <$> ["/dev/sdb1 /mnt/data ext4 rw 0 0";
                      "proc /proc proc rw 0 0";
                      "tmpfs /mnt/data tmpfs rw 0 0";
                      "/dev/sdc1 /home ext4 rw 0 0";
                      "/dev/sda1 / ext4 rw 0 0"]%string);
     df := None;
     isdir := fun _ => true;
     disk_usage := fun p =>
       if bool_decide (p = lit "/home") then None else Some (100, 60, 40) |}.

(** A host on which the same two devices are discovered in the other
    order. *)
Definition sample_host' : host :=
  {| IS_WINDOWS := false;
     GetLogicalDrives := 0;
     GetDriveTypeW := fun _ => 0;
     proc_mounts :=
       Some (lit <$> ["/dev/sda1 / ext4 rw 0 0";
                      "/dev/sdb1 /mnt/data ext4 rw 0 0"]%string);
     df := None;
     isdir := fun _ => true;
     disk_usage := fun _ => Some (100, 60, 40) |}.

(** A host whose mount table names one directory in two spellings, with
    and without a slash at the end. *)
Definition two_spellings_host : host :=
  {| IS_WINDOWS := false;
     GetLogicalDrives := 0;
     GetDriveTypeW := fun _ => 0;
     proc_mounts :=
       Some (lit <$> ["/dev/sdb1 /mnt/data ext4 rw 0 0";
                      "/dev/sdb1 /mnt/data/ ext4 rw 0 0"]%string);
     df := None;
     isdir := fun _ => true;
     disk_usage := fun _ => Some (100, 60, 40) |}.

(** A host with drives A, C and D, of which A is removable. *)
Definition sample_windows_host : host :=
  {| IS_WINDOWS := true;
     GetLogicalDrives := 13;
     GetDriveTypeW := fun root =>
       if bool_decide (root = ["A"; ":"; "092"]%char) then 2 else 3;
     proc_mounts := None;
     df := None;
     isdir := fun _ => true;
     disk_usage := fun _ => Some (500, 200, 300) |}.

(** ** More vocabulary

    What the further theorems need to say about the program. *)

(** The replacement of [';'] by [','] *)
Definition semicolon (c : ascii) : ascii :=
  if bool_decide (c = ";"%char) then ","%char else c.

(** A number after the first of a list: a comma, spaces and the digits. *)
Definition next_number (item : nat * str) : str :=
  ","%char :: replicate item.1 " "%char ++ item.2.

(** The characters of a list of numbers. *)
Definition listed (c : ascii) : Prop :=
  isdecimal_c c = true ∨ c = ","%char ∨ c = " "%char.

(** An index at most [max_idx]. *)
Definition upto (max_idx : Z) (i : Z) : Prop := i ≤ max_idx.

#[global] Instance upto_dec (max_idx i : Z) : Decision (upto max_idx i).
Proof. unfold upto. apply _. Defined.

(** A function applied to the value that a computation returns. *)
Definition on_value {A} (f : A → A) (r : result A) : result A :=
  match r with
  | Ok a => Ok (f a)
  | Raise e => Raise e
  end.

(** The part of a tree in which the two ways of reading a size agree. *)
Definition same_size (lstat : option stat_result) (getsize : option Z) : bool :=
  match lstat, getsize with
  | Some st, Some sz => bool_decide (st_size st = sz)
  | None, None => true
  | _, _ => false
  end.

Fixpoint same_sizes (d : node) : bool :=
  match d with
  | File lstat getsize => same_size lstat getsize
  | Dir _ (Some entries) => forallb (fun e => same_sizes e.2) entries
  | _ => true
  end.

(** The sum of a list of sizes. *)
Definition sum (sizes : list Z) : Z := foldr Z.add 0 sizes.

(** The device reported for the drive letter at index [i]. *)
Definition fixed_drive (h : host) (i : nat) (letter : ascii) (d : disk) : Prop :=
  let root := [letter; ":"%char; "092"%char] in
  Z.testbit (GetLogicalDrives h) (Z.of_nat i) = true
  ∧ GetDriveTypeW h root = DRIVE_FIXED
  ∧ ∃ total used free,
      disk_usage h root = Some (total, used, free)
      ∧ d = ([letter; ":"%char], root, total, free).

(** The units of [format_bytes], by the number of divisions by 1024. *)
Definition units : list str := lit <$> ["B"; "KB"; "MB"; "GB"; "TB"; "PB"]%string.

(** A number of hundredths, as [f"{x:.2f}"] writes it. *)
Definition hundredths (h : Z) : str :=
  str_of_int (h / 100) ++ lit "." ++ [digit (h mod 100 / 10); digit (h mod 10)].

(** [h] hundredths of [d] are as near to [size] as hundredths can be, and
    [h] is even when [size] is half-way between two of them. *)
Definition nearest (h size d : Z) : Prop :=
  2 * Z.abs (100 * size - h * d) ≤ d
  ∧ (2 * Z.abs (100 * size - h * d) = d → Z.even h = true).

(** How a computation can end, whatever was done before it: with a value
    that satisfies [Q] or with an exception that satisfies [E]. *)
Definition ends {A} (m : io A) (Q : A → Prop) (E : exception → Prop) : Prop :=
  ∀ log, match (m log).2 with
         | Returns a => Q a
         | Raises e => E e
         end.

(** The one exception of [format_bytes]. *)
Definition overflow (e : exception) : Prop := e = OverflowError.

(** The row written for the item of rank [rank]. *)
Definition csv_row (w : world) (rank : Z) (r : record) (fields : list str) : Prop :=
  let '(size, p, m) := r in
  ∃ human time,
    format_bytes size = Returns (Some human)
    ∧ fromtimestamp w m = Returns time
    ∧ fields = [str_of_int rank; str_of_int size; human; p; time].

(** ** Sample inputs of [main] *)

Definition sample_world : world :=
  {| the_host := sample_host;
     find := fun _ _ => sample_root;
     stdin := Some (lit "2, 1");
     strftime := lit "20240101_120000";
     fromtimestamp := fun m => Returns (str_of_int m);
     makedirs := fun _ _ => true;
     open_w := fun _ _ => true |}.

Definition sample_args : args :=
  {| top := 2; include_folders := true; export := false; output_dir := lit "/out" |}.

#[local] Set Warnings "-clear-no-such-hyp".

(** ** Facts about the Python values *)

Lemma ord_inj (x y : ascii) : ord x = ord y → x = y.
Proof.
unfold ord; intros E.
rewrite <- (ascii_N_embedding x), <- (ascii_N_embedding y). by rewrite E.
Qed.

Lemma str_compare_refl (a : str) : str_compare a a = Eq.
Proof. induction a as [|x a IH]; simpl; [done|]. by rewrite N.compare_refl. Qed.

Lemma str_compare_eq (a b : str) : str_compare a b = Eq → a = b.
Proof.
revert b; induction a as [|x a IH]; intros [|y b]; simpl; try done.
destruct (N.compare_spec (ord x) (ord y)) as [E| |]; try done.
intros H. f_equal; [by apply ord_inj | by apply IH].
Qed.

Lemma str_compare_antisym (a b : str) :
str_compare b a = CompOpp (str_compare a b).
Proof.
revert b; induction a as [|x a IH]; intros [|y b]; simpl; try done.
rewrite (N.compare_antisym (ord x) (ord y)).
destruct (ord x ?= ord y)%N; simpl; auto.
Qed.

Lemma str_compare_trans (a b c : str) :
str_compare a b = Lt → str_compare b c = Lt → str_compare a c = Lt.
Proof.
revert b c; induction a as [|x a IH]; intros [|y b] [|z c]; simpl; try done.
destruct (N.compare_spec (ord x) (ord y)) as [E|L|G]; try done;
  destruct (N.compare_spec (ord y) (ord z)) as [E'|L'|G']; try done; intros.
- rewrite E, E', N.compare_refl. eauto.
- rewrite E. by apply N.compare_lt_iff in L' as ->.
- rewrite <- E'. by apply N.compare_lt_iff in L as ->.
- assert (ord x < ord z)%N as ->%N.compare_lt_iff by lia. done.
Qed.

Lemma str_ltb_irrefl (a : str) : str_ltb a a = false.
Proof. unfold str_ltb. by rewrite str_compare_refl. Qed.

Lemma str_ltb_trans (a b c : str) :
str_ltb a b = true → str_ltb b c = true → str_ltb a c = true.
Proof.
unfold str_ltb.
destruct (str_compare a b) eqn:E1; try done.
destruct (str_compare b c) eqn:E2; try done.
by rewrite (str_compare_trans _ _ _ E1 E2).
Qed.

Lemma str_ltb_trichotomy (a b : str) :
str_ltb a b = true ∨ a = b ∨ str_ltb b a = true.
Proof.
unfold str_ltb. rewrite (str_compare_antisym a b).
destruct (str_compare a b) eqn:E; simpl; auto using str_compare_eq.
Qed.

Lemma str_ltb_asym (a b : str) : str_ltb a b = true → str_ltb b a = false.
Proof.
unfold str_ltb. rewrite (str_compare_antisym a b).
by destruct (str_compare a b).
Qed.

(** [tuple_ltb] is a strict total order. *)
Lemma tuple_ltb_irrefl (x : record) : tuple_ltb x x = false.
Proof.
destruct x as [[sx px] mx]; simpl.
rewrite !bool_decide_eq_false_2 by auto. lia.
Qed.

Lemma tuple_ltb_spec (x y : record) :
tuple_ltb x y = true ↔
x.1.1 < y.1.1 ∨
(x.1.1 = y.1.1 ∧ (str_ltb x.1.2 y.1.2 = true ∨ (x.1.2 = y.1.2 ∧ x.2 < y.2))).
Proof.
destruct x as [[sx px] mx], y as [[sy py] my]; simpl.
repeat case_bool_decide; subst; rewrite ?Z.ltb_lt.
- split; [auto|]. intros [?|[? _]]; [done|lia].
- split; [auto|]. intros [?|[_ [?|[? _]]]]; [lia|done|done].
- rewrite str_ltb_irrefl. split; [auto|]. intros [?|[_ [?|[_ ?]]]]; [lia|done|done].
Qed.

Lemma tuple_ltb_trans (x y z : record) :
tuple_ltb x y = true → tuple_ltb y z = true → tuple_ltb x z = true.
Proof.
rewrite !tuple_ltb_spec.
intros [?|[E1 [L1|[E1' ?]]]] [?|[E2 [L2|[E2' ?]]]]; try (left; lia); right;
  (split; [lia|]).
- left. eauto using str_ltb_trans.
- left. by rewrite <- E2'.
- left. by rewrite E1'.
- right. split; [congruence | lia].
Qed.

Lemma tuple_ltb_trichotomy (x y : record) :
tuple_ltb x y = true ∨ x = y ∨ tuple_ltb y x = true.
Proof.
rewrite !tuple_ltb_spec.
destruct x as [[sx px] mx], y as [[sy py] my]; simpl.
destruct (Z.lt_trichotomy sx sy) as [?|[->|?]]; [auto| |auto 6].
destruct (str_ltb_trichotomy px py) as [?|[->|?]]; [auto| |auto 6].
destruct (Z.lt_trichotomy mx my) as [?|[->|?]]; auto 8.
Qed.

Lemma tuple_ltb_asym (x y : record) :
tuple_ltb x y = true → tuple_ltb y x = false.
Proof.
intros H. destruct (tuple_ltb y x) eqn:E; [|done].
pose proof (tuple_ltb_trans _ _ _ H E) as C.
by rewrite tuple_ltb_irrefl in C.
Qed.

(** [list_sort]: the result is a permutation of the list, and it is
    ordered when [lt] is a strict total order. *)
Section list_sort.
Context {A : Type} (before : A → A → bool).

Lemma insert_by_perm (x : A) (l : list A) : insert_by before x l ≡ₚ x :: l.
Proof.
  induction l as [|y l IH]; simpl; [done|].
  destruct (before x y); [done|]. rewrite IH. apply Permutation_swap.
Qed.

Lemma sort_by_perm (l : list A) : foldr (insert_by before) [] l ≡ₚ l.
Proof.
  induction l as [|x l IH]; simpl; [done|].
  by rewrite insert_by_perm, IH.
Qed.

Context (R : relation A).
Hypothesis R_trans : Transitive R.
Hypothesis before_R : ∀ x y, before x y = true → R x y.
Hypothesis not_before_R : ∀ x y, before x y = false → R y x.

Lemma insert_by_sorted (x : A) (l : list A) :
  StronglySorted R l → StronglySorted R (insert_by before x l).
Proof.
  induction 1 as [|y l Hl IH Hy]; simpl.
  - repeat constructor.
  - destruct (before x y) eqn:E.
    + constructor; [by constructor|].
      constructor; [auto|]. eapply List.Forall_impl; [|exact Hy].
      intros z ?. etrans; eauto.
    + constructor; [done|].
      rewrite insert_by_perm. constructor; auto.
Qed.

Lemma sort_by_sorted (l : list A) :
  StronglySorted R (foldr (insert_by before) [] l).
Proof.
  induction l; simpl; [constructor | by apply insert_by_sorted].
Qed.
End list_sort.

Lemma list_sort_perm {A} (lt : A → A → bool) (reverse : bool) (l : list A) :
  list_sort lt reverse l ≡ₚ l.
Proof. apply sort_by_perm. Qed.

Lemma list_sort_length {A} (lt : A → A → bool) (reverse : bool) (l : list A) :
  length (list_sort lt reverse l) = length l.
Proof. by rewrite list_sort_perm. Qed.

#[local] Instance tuple_ge_trans : Transitive tuple_ge.
Proof.
  unfold tuple_ge. intros x y z Hxy Hyz.
  destruct (tuple_ltb x z) eqn:E; [|done].
  destruct (tuple_ltb_trichotomy y z) as [H|[->|H]]; [congruence|congruence|].
  destruct (tuple_ltb_trichotomy x y) as [H'|[->|H']]; [congruence|congruence|].
  pose proof (tuple_ltb_trans _ _ _ H (tuple_ltb_trans _ _ _ H' E)) as C.
  by rewrite tuple_ltb_irrefl in C.
Qed.

Lemma tuple_ge_antisym (x y : record) : tuple_ge x y → tuple_ge y x → x = y.
Proof.
  unfold tuple_ge. intros.
  destruct (tuple_ltb_trichotomy x y) as [H'|[->|H']]; congruence.
Qed.

Lemma list_sort_reverse_sorted (l : list record) :
  StronglySorted tuple_ge (list_sort tuple_ltb true l).
Proof.
  apply sort_by_sorted; [apply _| |]; unfold tuple_ge; intros x y.
  - by intros ?%negb_true_iff.
  - intros H%negb_false_iff. by apply tuple_ltb_asym.
Qed.

Lemma tuple_ge_size (x y : record) : tuple_ge x y → y.1.1 ≤ x.1.1.
Proof.
  unfold tuple_ge. intros H.
  destruct (Z.lt_ge_cases x.1.1 y.1.1) as [L|]; [|lia].
  assert (tuple_ltb x y = true) by (apply tuple_ltb_spec; auto). congruence.
Qed.

(** ** The heap queue keeps its invariant *)

Lemma half_spec (n : nat) : (n = 2 * (n / 2) ∨ n = 2 * (n / 2) + 1)%nat.
Proof.
  pose proof (Nat.div_mod_eq n 2). pose proof (Nat.mod_upper_bound n 2). lia.
Qed.

Ltac half_lia :=
  repeat match goal with
         | |- context [(?n / 2)%nat] =>
             lazymatch goal with
             | _ : (n = 2 * (n / 2) ∨ n = 2 * (n / 2) + 1)%nat |- _ => fail
             | _ => pose proof (half_spec n)
             end
         | _ : context [(?n / 2)%nat] |- _ =>
             lazymatch goal with
             | _ : (n = 2 * (n / 2) ∨ n = 2 * (n / 2) + 1)%nat |- _ => fail
             | _ => pose proof (half_spec n)
             end
         end;
  lia.

Section heapq_facts.
Local Open Scope nat_scope.
Context {A : Type} (lt : A → A → bool).
Hypothesis lt_asym : ∀ x y, lt x y = true → lt y x = false.
Hypothesis ge_trans : ∀ x y z, lt x y = false → lt y z = false → lt x z = false.

Local Abbreviation le := (heap_le lt).
Local Abbreviation edge := (heap_edge lt).
Local Abbreviation is_heap := (is_heap lt).

Lemma le_refl x : le x x.
Proof.
  unfold heap_le. destruct (lt x x) eqn:E; [|done].
  by rewrite (lt_asym _ _ E) in E.
Qed.

Lemma le_trans x y z : le x y → le y z → le x z.
Proof. unfold heap_le. eauto. Qed.

Lemma lt_le x y : lt x y = true → le x y.
Proof. apply lt_asym. Qed.

Lemma is_heap_nil : is_heap [].
Proof. intros k _ p x; by rewrite lookup_nil. Qed.

(** [heap[0]] is a smallest item. *)
Lemma is_heap_min (h : list A) (m : A) :
  is_heap h → h !! 0 = Some m → ∀ k x, h !! k = Some x → le m x.
Proof.
  intros Hh H0 k. induction (lt_wf k) as [k _ IH]. intros x Hx.
  destruct (decide (k = 0)) as [->|]; [rewrite H0 in Hx; injection Hx as ->; apply le_refl|].
  assert ((k - 1) / 2 < k) by half_lia.
  destruct (lookup_lt_is_Some_2 h ((k - 1) / 2)) as [p Hp].
  { apply lookup_lt_Some in Hx. half_lia. }
  eapply le_trans; [by eapply IH|]. eapply (Hh k); eauto; half_lia.
Qed.

(** Writing [newitem] into the hole at [pos] gives a heap when [newitem]
    fits between the parent and the children of [pos]. *)
Lemma insert_is_heap (h : list A) (newitem : A) (pos : nat) :
  pos < length h →
  (∀ k, 0 < k → k ≠ pos → (k - 1) / 2 ≠ pos → edge h k) →
  (∀ c x, 0 < c → (c - 1) / 2 = pos → h !! c = Some x → le newitem x) →
  (∀ p, 0 < pos → h !! ((pos - 1) / 2) = Some p → le p newitem) →
  is_heap (<[pos := newitem]> h).
Proof.
  intros Hpos Hrest Hchild Hpar k Hk p x.
  destruct (decide (k = pos)) as [->|Hne].
  - rewrite list_lookup_insert_ne by half_lia.
    rewrite list_lookup_insert_eq by done. intros ? [= <-]. eauto.
  - rewrite (list_lookup_insert_ne _ pos k) by done.
    destruct (decide ((k - 1) / 2 = pos)) as [E|E].
    + rewrite E, list_lookup_insert_eq by done. intros [= <-] ?. eauto.
    + rewrite list_lookup_insert_ne by done. by apply Hrest.
Qed.

Lemma insert_move_perm (h : list A) (i j : nat) (x y : A) :
  i < length h → h !! j = Some y → i ≠ j →
  <[j := x]> (<[i := y]> h) ≡ₚ <[i := x]> h.
Proof.
  intros Hi Hj Hne.
  rewrite <- (list_insert_insert_eq h i y x) at 1.
  apply Permutation_insert_swap.
  - by apply list_lookup_insert_eq.
  - by rewrite list_lookup_insert_ne.
Qed.

(** [_siftdown] with [startpos = 0]: [newitem] moves up from the hole at
    [pos] to its place. *)
Lemma siftdown_loop_spec (fuel : nat) (h : list A) (newitem : A) (pos : nat) :
  pos ≤ fuel → pos < length h →
  (∀ k, 0 < k → k ≠ pos → edge h k) →
  (∀ c x, 0 < c → (c - 1) / 2 = pos → h !! c = Some x → le newitem x) →
  (∀ c g x, 0 < pos → 0 < c → (c - 1) / 2 = pos →
            h !! ((pos - 1) / 2) = Some g → h !! c = Some x → le g x) →
  is_heap (heapq.siftdown_loop lt fuel h newitem 0 pos)
  ∧ heapq.siftdown_loop lt fuel h newitem 0 pos ≡ₚ <[pos := newitem]> h.
Proof.
  revert h pos.
  induction fuel as [|fuel IH]; intros h pos Hfuel Hpos Hrest Hchild Hgrand;
    cbn [heapq.siftdown_loop]; cbv zeta.
  { split; [|done]. apply insert_is_heap; auto. intros; half_lia. }
  case_bool_decide as Hlt; cycle 1.
  { split; [|done]. apply insert_is_heap; auto. intros; half_lia. }
  assert ((pos - 1) / 2 < pos) as Hpp by half_lia.
  destruct (lookup_lt_is_Some_2 h ((pos - 1) / 2)) as [par Hpar]; [half_lia|].
  rewrite Hpar; change (default newitem (Some par)) with par.
  destruct (lt newitem par) eqn:Hcmp; cbv iota; cycle 1.
  { split; [|done]. apply insert_is_heap; auto.
    intros p _. rewrite Hpar. by intros [= <-]. }
  destruct (IH (<[pos := par]> h) ((pos - 1) / 2)) as [Hheap Hperm].
  - half_lia.
  - rewrite length_insert. half_lia.
  - intros k Hk Hne p x.
    destruct (decide (k = pos)) as [->|Hkp].
    + rewrite list_lookup_insert_ne by half_lia.
      rewrite list_lookup_insert_eq by done.
      rewrite Hpar. intros [= <-] [= <-]. apply le_refl.
    + rewrite (list_lookup_insert_ne _ pos k) by done.
      destruct (decide ((k - 1) / 2 = pos)) as [E|E].
      * rewrite E, list_lookup_insert_eq by done. intros [= <-] Hx.
        eapply (Hgrand k); eauto; half_lia.
      * rewrite list_lookup_insert_ne by done. by apply Hrest.
  - intros c x Hc Hcp.
    destruct (decide (c = pos)) as [->|Hne].
    + rewrite list_lookup_insert_eq by done. intros [= <-]. by apply lt_le.
    + rewrite list_lookup_insert_ne by done. intros Hx.
      eapply le_trans; [by apply lt_le|].
      eapply (Hrest c); eauto. by rewrite Hcp.
  - intros c g x Hp0 Hc Hcp.
    rewrite list_lookup_insert_ne by half_lia. intros Hg.
    assert (le g par) as Hgpar.
    { eapply (Hrest ((pos - 1) / 2)); eauto; half_lia. }
    destruct (decide (c = pos)) as [->|Hne].
    + rewrite list_lookup_insert_eq by done. by intros [= <-].
    + rewrite list_lookup_insert_ne by done. intros Hx.
      eapply le_trans; [exact Hgpar|].
      eapply (Hrest c); eauto. by rewrite Hcp.
  - split; [done|]. rewrite Hperm. apply insert_move_perm; [done|done|half_lia].
Qed.

(** The fuel handed to the loop of [_siftdown] is enough: more changes
    nothing. *)
Lemma siftdown_loop_fuel (f1 f2 : nat) (h : list A) (newitem : A) (pos : nat) :
  pos ≤ f1 → pos ≤ f2 →
  heapq.siftdown_loop lt f1 h newitem 0 pos
  = heapq.siftdown_loop lt f2 h newitem 0 pos.
Proof.
  revert f2 h pos. induction f1 as [|f1 IH]; intros [|f2] h pos H1 H2;
    cbn [heapq.siftdown_loop]; cbv zeta; try done.
  - rewrite bool_decide_eq_false_2 by half_lia. done.
  - rewrite bool_decide_eq_false_2 by half_lia. done.
  - case_bool_decide; [|done].
    destruct (lt newitem _); [|done].
    apply IH; half_lia.
Qed.

(** The first loop of [_siftup]: the hole moves from [pos] down to a
    leaf, the smaller child moving up at each step. *)
Lemma siftup_loop_spec (fuel : nat) (h : list A) (newitem : A) (pos : nat) :
  length h ≤ fuel + pos → pos < length h →
  (∀ k, 0 < k → (k - 1) / 2 ≠ pos → edge h k) →
  (∀ c g x, 0 < pos → 0 < c → (c - 1) / 2 = pos →
            h !! ((pos - 1) / 2) = Some g → h !! c = Some x → le g x) →
  ∀ h' leaf, heapq.siftup_loop lt fuel h newitem pos = (h', leaf) →
    length h' = length h ∧ leaf < length h' ∧ length h' ≤ 2 * leaf + 1
    ∧ is_heap h'
    ∧ <[leaf := newitem]> h' ≡ₚ <[pos := newitem]> h.
Proof.
  revert h pos.
  induction fuel as [|fuel IH]; intros h pos Hfuel Hpos Hrest Hgrand h' leaf;
    cbn [heapq.siftup_loop]; cbv zeta.
  { half_lia. }
  case_bool_decide as Hchild; cycle 1.
  { intros [= <- <-]. repeat split; try done; try half_lia.
    intros k Hk. destruct (decide ((k - 1) / 2 = pos)) as [E|E]; [|by apply Hrest].
    intros p x _ Hx%lookup_lt_Some. half_lia. }
  set (c := if bool_decide (2 * pos + 1 + 1 < length h)
               && negb (lt (default newitem (h !! (2 * pos + 1)))
                           (default newitem (h !! (2 * pos + 1 + 1))))
            then 2 * pos + 1 + 1 else 2 * pos + 1).
  assert (c < length h ∧ (c = 2 * pos + 1 ∨ c = 2 * pos + 2)) as [Hc Hc'].
  { unfold c. destruct (bool_decide _ && _) eqn:E; [|half_lia].
    apply andb_true_iff in E as [E%bool_decide_eq_true _]. half_lia. }
  destruct (lookup_lt_is_Some_2 h c Hc) as [v Hv].
  rewrite Hv. change (default newitem (Some v)) with v.
  assert (∀ k x, 0 < k → (k - 1) / 2 = pos → h !! k = Some x → le v x) as Hsmall.
  { intros k x Hk Hkp Hx.
    assert (k = 2 * pos + 1 ∨ k = 2 * pos + 2) as Hk' by half_lia.
    destruct (decide (k = c)) as [->|Hkc].
    { rewrite Hv in Hx. injection Hx as ->. apply le_refl. }
    unfold c in Hkc, Hv.
    destruct (bool_decide _ && _) eqn:Ec.
    - apply andb_true_iff in Ec as [_ E%negb_true_iff].
      assert (k = 2 * pos + 1) as -> by half_lia.
      revert E. by rewrite Hx, Hv.
    - assert (k = 2 * pos + 1 + 1) as -> by half_lia.
      apply andb_false_iff in Ec as [E|E].
      + apply bool_decide_eq_false in E. apply lookup_lt_Some in Hx. half_lia.
      + apply negb_false_iff in E. revert E. rewrite Hx, Hv.
        apply lt_le. }
  intros Hloop.
  destruct (IH (<[pos := v]> h) c) with (h' := h') (leaf := leaf)
    as (Hlen & Hleaf & Hend & Hheap & Hperm); [..|exact Hloop|].
  - rewrite length_insert. half_lia.
  - rewrite length_insert. half_lia.
  - intros k Hk Hkc p x.
    destruct (decide (k = pos)) as [->|Hkp].
    + rewrite list_lookup_insert_ne by half_lia.
      rewrite list_lookup_insert_eq by done. intros Hp [= <-].
      eapply (Hgrand c); eauto; half_lia.
    + rewrite (list_lookup_insert_ne _ pos k) by done.
      destruct (decide ((k - 1) / 2 = pos)) as [E|E].
      * rewrite E, list_lookup_insert_eq by done. intros [= <-] Hx. eauto.
      * rewrite list_lookup_insert_ne by done. by apply Hrest.
  - intros g' g x _ Hg' Hg'c.
    assert ((c - 1) / 2 = pos) as -> by half_lia.
    rewrite list_lookup_insert_eq by done.
    rewrite list_lookup_insert_ne by half_lia. intros [= <-] Hx.
    eapply (Hrest g'); eauto; [half_lia|]. by rewrite Hg'c.
  - rewrite length_insert in Hlen. repeat split; try done.
    rewrite Hperm. apply insert_move_perm; [done|done|half_lia].
Qed.

(** The fuel handed to the first loop of [_siftup] is enough. *)
Lemma siftup_loop_fuel (f1 f2 : nat) (h : list A) (newitem : A) (pos : nat) :
  length h ≤ f1 + pos → length h ≤ f2 + pos →
  heapq.siftup_loop lt f1 h newitem pos = heapq.siftup_loop lt f2 h newitem pos.
Proof.
  revert f2 h pos. induction f1 as [|f1 IH]; intros [|f2] h pos H1 H2;
    cbn [heapq.siftup_loop]; cbv zeta; try done.
  - rewrite bool_decide_eq_false_2 by half_lia. done.
  - rewrite bool_decide_eq_false_2 by half_lia. done.
  - case_bool_decide; [|done].
    apply IH; rewrite length_insert; destruct (_ && _); half_lia.
Qed.

Lemma siftup_spec (h : list A) (m x : A) :
  is_heap (m :: h) →
  is_heap (heapq.siftup lt (x :: h) 0) ∧ heapq.siftup lt (x :: h) 0 ≡ₚ x :: h.
Proof.
  intros Hh. unfold heapq.siftup. cbn [lookup list_lookup].
  destruct (heapq.siftup_loop lt (length (x :: h)) (x :: h) x 0)
    as [h' leaf] eqn:Hloop.
  apply siftup_loop_spec in Hloop
    as (Hlen & Hleaf & Hend & Hheap & Hperm); [|half_lia|simpl; half_lia| |intros; half_lia].
  - unfold heapq.siftdown. rewrite list_lookup_insert_eq by done.
    destruct (siftdown_loop_spec leaf (<[leaf := x]> h') x leaf)
      as [H1 H2]; [done|by rewrite length_insert|..].
    + intros k Hk Hne p y.
      destruct (decide ((k - 1) / 2 = leaf)) as [E|E].
      { intros _ Hy%lookup_lt_Some. rewrite length_insert in Hy. half_lia. }
      rewrite !list_lookup_insert_ne by done. by apply Hheap.
    + intros c y Hc Hcl Hy%lookup_lt_Some. rewrite length_insert in Hy. half_lia.
    + intros c g y _ Hc Hcl _ Hy%lookup_lt_Some. rewrite length_insert in Hy. half_lia.
    + split; [done|]. rewrite H2, list_insert_insert_eq, Hperm. done.
  - intros k Hk Hne p y.
    destruct k as [|k]; [half_lia|].
    assert (∃ j, (S k - 1) / 2 = S j) as [j Hj].
    { destruct ((S k - 1) / 2) eqn:E; [done|eauto]. }
    rewrite Hj. cbn [lookup list_lookup]. intros Hp Hy.
    eapply (Hh (S k)); [half_lia| |exact Hy]. by rewrite Hj.
Qed.

Lemma heappush_spec (h : list A) (x : A) :
  is_heap h →
  is_heap (heapq.heappush lt h x) ∧ heapq.heappush lt h x ≡ₚ x :: h.
Proof.
  intros Hh. unfold heapq.heappush, heapq.siftdown.
  rewrite length_app. cbn [length].
  replace (length h + 1 - 1) with (length h) by half_lia.
  rewrite lookup_app_r, Nat.sub_diag by half_lia. cbn [lookup list_lookup].
  destruct (siftdown_loop_spec (length h) (h ++ [x]) x (length h))
    as [H1 H2]; [done|rewrite length_app; simpl; half_lia|..].
  - intros k Hk Hne p y Hp Hy.
    assert (k < length h).
    { apply lookup_lt_Some in Hy. rewrite length_app in Hy. simpl in Hy. half_lia. }
    rewrite lookup_app_l in Hp by half_lia. rewrite lookup_app_l in Hy by done.
    by eapply (Hh k).
  - intros c y Hc Hcl Hy%lookup_lt_Some. rewrite length_app in Hy. simpl in Hy. half_lia.
  - intros c g y _ Hc Hcl _ Hy%lookup_lt_Some. rewrite length_app in Hy. simpl in Hy. half_lia.
  - split; [done|]. rewrite H2.
    rewrite list_insert_id by (by rewrite lookup_app_r, Nat.sub_diag by half_lia).
    by rewrite Permutation_app_comm.
Qed.

Lemma heapreplace_spec (h : list A) (m x : A) :
  is_heap (m :: h) →
  ∃ h', heapq.heapreplace lt (m :: h) x = Ok (m, h')
        ∧ is_heap h' ∧ h' ≡ₚ x :: h.
Proof.
  intros Hh. eexists. split; [reflexivity|].
  cbn [insert list_insert]. by eapply siftup_spec.
Qed.
End heapq_facts.

(** ** The bounded selection of [top_files] *)

#[local] Instance Zge_trans : Transitive Zge.
Proof. unfold Zge. intros x y z. lia. Qed.

#[local] Instance Zge_antisym : AntiSymm eq Zge.
Proof. unfold Zge. intros x y. lia. Qed.

Lemma list_sort_Z_sorted (l : list Z) : StronglySorted Zge (list_sort Z.ltb true l).
Proof.
  apply sort_by_sorted; [apply _| |]; unfold Zge; intros x y.
  - intros ?%negb_true_iff. lia.
  - intros ?%negb_false_iff. lia.
Qed.

Lemma StronglySorted_app_2 {A} (R : relation A) (l1 l2 : list A) :
  StronglySorted R l1 → StronglySorted R l2 →
  (∀ x y, x ∈ l1 → y ∈ l2 → R x y) →
  StronglySorted R (l1 ++ l2).
Proof.
  induction 1 as [|x l1 Hs IH Hx]; intros H2 H12; simpl; [done|].
  constructor.
  - apply IH; [done|]. intros. apply H12; [|done]. apply elem_of_cons; auto.
  - apply Forall_app. split; [done|].
    apply list.Forall_forall. intros y Hy. apply H12; [|done]. apply elem_of_cons; auto.
Qed.

(** What is kept and what is dropped determine the [n] largest. *)
Lemma largest_split (n : nat) (all kept dropped : list Z) :
  all ≡ₚ kept ++ dropped →
  length kept = (n `min` length all)%nat →
  (∀ t r, t ∈ kept → r ∈ dropped → r ≤ t) →
  list_sort Z.ltb true kept = largest (Z.of_nat n) all.
Proof.
  intros Hperm Hlen Hord. unfold largest. rewrite Nat2Z.id.
  assert (list_sort Z.ltb true all
          = list_sort Z.ltb true kept ++ list_sort Z.ltb true dropped) as ->.
  { apply (StronglySorted_unique Zge).
    - apply list_sort_Z_sorted.
    - apply StronglySorted_app_2; [apply list_sort_Z_sorted..|].
      intros x y. rewrite !list_sort_perm. unfold Zge. auto.
    - by rewrite !list_sort_perm. }
  assert (length all = (length kept + length dropped)%nat) as Hall.
  { by rewrite Hperm, length_app. }
  destruct (decide (n ≤ length all)%nat).
  - rewrite take_app_length'; [done|]. rewrite list_sort_length. lia.
  - assert (dropped = []) as ->.
    { apply nil_length_inv. lia. }
    cbn [list_sort foldr]. rewrite app_nil_r.
    rewrite take_ge; [done|]. rewrite list_sort_length. lia.
Qed.

Lemma retained_nil (n : nat) : retained n [] [].
Proof.
  split; [apply is_heap_nil|]. exists []. split; [done|]. split; [simpl; lia|].
  intros ?? []%elem_of_nil.
Qed.

Lemma heap_first_smallest (m : record) (heap : list record) (t : record) :
  is_heap tuple_ltb (m :: heap) → t ∈ m :: heap → size m ≤ size t.
Proof.
  intros Hh [k Hk]%list_elem_of_lookup.
  apply tuple_ge_size.
  eapply (is_heap_min tuple_ltb); eauto using tuple_ltb_asym.
  intros x y z. apply (tuple_ge_trans x y z).
Qed.

Lemma top_files_step_retained (n : Z) (seen heap : list record) (f : str * Z * Z) :
  1 ≤ n → retained (Z.to_nat n) seen heap →
  ∃ heap', top_files_step n heap f = Ok heap'
           ∧ retained (Z.to_nat n) (row f :: seen) heap'.
Proof.
  intros Hn (Hheap & dropped & Hperm & Hlen & Hord).
  destruct f as [[path sz] mtime]. unfold top_files_step.
  assert (length seen = (length heap + length dropped)%nat) as Hall.
  { by rewrite Hperm, length_app. }
  destruct (Z.ltb_spec (Z.of_nat (length heap)) n) as [Hroom|Hfull].
  - assert (dropped = []) as -> by (apply nil_length_inv; lia).
    destruct (heappush_spec tuple_ltb tuple_ltb_asym tuple_ge_trans heap
                (sz, path, mtime) Hheap) as [Hheap' Hperm'].
    eexists. split; [done|]. split; [done|]. exists [].
    rewrite app_nil_r in *. repeat split.
    + by rewrite Hperm', Hperm.
    + rewrite Hperm'. simpl. lia.
    + intros ?? _ []%elem_of_nil.
  - destruct heap as [|m heap]; [simpl in *; lia|].
    destruct m as [[size0 path0] mtime0] eqn:Em. rewrite <- Em in *.
    assert (∀ t, t ∈ m :: heap → size0 ≤ size t) as Hmin.
    { intros t Ht. by apply (heap_first_smallest m heap t) in Ht; [subst m|]. }
    assert (∀ r, r ∈ dropped → size r ≤ size0) as Hdrop.
    { intros r Hr. apply (Hord m r) in Hr; [by subst m|]. apply elem_of_cons; auto. }
    destruct (Z.ltb_spec size0 sz) as [Hbig|Hsmall].
    + destruct (heapreplace_spec tuple_ltb tuple_ltb_asym tuple_ge_trans heap m
                  (sz, path, mtime) Hheap) as (heap' & -> & Hheap' & Hperm').
      eexists. split; [done|]. split; [done|]. exists (m :: dropped).
      repeat split.
      * rewrite Hperm', Hperm. unfold row; simpl.
        rewrite <- Permutation_middle. done.
      * rewrite Hperm'. simpl in *. lia.
      * intros t r. rewrite Hperm'.
        intros [->|Ht]%elem_of_cons [->|Hr]%elem_of_cons; unfold size at 2; simpl.
        -- subst m; unfold size; simpl; lia.
        -- apply Hdrop in Hr. lia.
        -- assert (size0 ≤ size t) by (apply Hmin, elem_of_cons; auto).
           subst m; unfold size in *; simpl in *; lia.
        -- apply Hord; [|done]. apply elem_of_cons; auto.
    + eexists. split; [done|]. split; [done|].
      exists ((sz, path, mtime) :: dropped). repeat split.
      * rewrite Hperm. apply Permutation_middle.
      * simpl in *. lia.
      * intros t r Ht [->|Hr]%elem_of_cons; [|by apply Hord].
        apply Hmin in Ht. unfold size at 1; simpl. lia.
Qed.

Lemma top_files_loop_retained (n : Z) (files : list (str * Z * Z))
    (seen heap : list record) :
  1 ≤ n → retained (Z.to_nat n) seen heap →
  ∃ heap', top_files_loop n heap files = Ok heap'
           ∧ retained (Z.to_nat n) (reverse (row <$> files) ++ seen) heap'.
Proof.
  intros Hn. revert seen heap.
  induction files as [|f files IH]; intros seen heap Hret; simpl.
  - eauto.
  - destruct (top_files_step_retained n seen heap f Hn Hret) as (heap1 & -> & Hret1).
    simpl. destruct (IH _ _ Hret1) as (heap' & -> & Hret').
    eexists. split; [done|].
    by rewrite reverse_cons, <- app_assoc.
Qed.

Lemma list_sort_Z_unique (l1 l2 : list Z) :
  l1 ≡ₚ l2 → list_sort Z.ltb true l1 = list_sort Z.ltb true l2.
Proof.
  intros H. apply (StronglySorted_unique Zge); try apply list_sort_Z_sorted.
  by rewrite !list_sort_perm.
Qed.

Lemma StronglySorted_weaken {A} (R1 R2 : relation A) (l : list A) :
  (∀ x y, R1 x y → R2 x y) → StronglySorted R1 l → StronglySorted R2 l.
Proof.
  intros H. induction 1 as [|x l Hs IH Hx]; constructor; [done|].
  eapply list.Forall_impl; eauto.
Qed.

Lemma StronglySorted_before {A} (R : relation A) (l : list A) (i j : nat) (a b : A) :
  StronglySorted R l → (i < j)%nat → l !! i = Some a → l !! j = Some b → R a b.
Proof.
  intros Hl. revert i j. induction Hl as [|x l Hl IH Hx]; intros i j Hij Ha Hb.
  - by rewrite lookup_nil in Ha.
  - destruct j as [|j]; [lia|]. cbn in Hb. destruct i as [|i].
    + injection Ha as <-.
      apply (proj1 (list.Forall_forall _ _) Hx). by eapply list_elem_of_lookup_2.
    + cbn in Ha. apply (IH i j); [lia|done..].
Qed.

Lemma StronglySorted_fmap {A B} (f : A → B) (R : relation B) (l : list A) :
  StronglySorted (λ x y, R (f x) (f y)) l → StronglySorted R (f <$> l).
Proof.
  induction 1 as [|x l Hs IH Hx]; simpl; constructor; [done|].
  by apply Forall_fmap.
Qed.

Lemma tuple_ge_descending (a b : record) : tuple_ge a b ↔ descending a b.
Proof.
  unfold tuple_ge, descending, size. split.
  - intros H. destruct (tuple_ltb_trichotomy a b) as [E|[->|E]]; [congruence| |].
    + right. split; [done|]. right. split; [done|lia].
    + apply tuple_ltb_spec in E as [?|[? [?|[? ?]]]]; [auto|auto|].
      right. split; [done|]. right. split; [done|lia].
  - intros H. destruct (tuple_ltb a b) eqn:E; [exfalso|done].
    apply tuple_ltb_spec in E.
    destruct E as [L|[E1 [E2|[E2 L]]]]; destruct H as [L'|[E1' [E2'|[E2' L']]]];
      try lia.
    + by rewrite (str_ltb_asym _ _ E2) in E2'.
    + rewrite E2' in E2. by rewrite str_ltb_irrefl in E2.
    + rewrite E2 in E2'. by rewrite str_ltb_irrefl in E2'.
Qed.

Lemma descending_size (a b : record) : descending a b → size b ≤ size a.
Proof. unfold descending. lia. Qed.

(** What [top_files] returns for [n >= 1]. *)
Lemma top_files_of_positive (files : list (str * Z * Z)) (n : Z) :
  1 ≤ n →
  ∃ out, top_files_of files n = Ok out
    ∧ Z.of_nat (length out) ≤ n
    ∧ (length out ≤ length files)%nat
    ∧ StronglySorted descending out
    ∧ size <$> out = largest n ((λ f, f.1.2) <$> files)
    ∧ out ⊆+ row <$> files.
Proof.
  intros Hn.
  destruct (top_files_loop_retained n files [] [] Hn (retained_nil _))
    as (heap & Hloop & Hheap & dropped & Hperm & Hlen & Hord).
  unfold top_files_of. rewrite Hloop. simpl.
  eexists. split; [done|].
  rewrite app_nil_r in *. rewrite length_reverse, length_fmap in Hlen.
  assert (StronglySorted descending (list_sort tuple_ltb true heap)) as Hsorted.
  { eapply StronglySorted_weaken; [|apply list_sort_reverse_sorted].
    intros x y. by apply tuple_ge_descending. }
  rewrite list_sort_length. repeat split; [lia|lia|done| |].
  - transitivity (list_sort Z.ltb true (size <$> heap)).
    { apply (StronglySorted_unique Zge).
      - apply StronglySorted_fmap.
        eapply StronglySorted_weaken; [|exact Hsorted].
        intros x y. apply descending_size.
      - apply list_sort_Z_sorted.
      - by rewrite !list_sort_perm. }
    replace n with (Z.of_nat (Z.to_nat n)) at 1 by lia.
    rewrite (largest_split (Z.to_nat n) (size <$> reverse (row <$> files))
               (size <$> heap) (size <$> dropped)).
    + unfold largest. f_equal. apply list_sort_Z_unique.
      rewrite reverse_Permutation, <- list_fmap_compose. done.
    + by rewrite Hperm, fmap_app.
    + rewrite !length_fmap, length_reverse, length_fmap. done.
    + intros t r (t' & -> & Ht)%list_elem_of_fmap (r' & -> & Hr)%list_elem_of_fmap.
      by apply Hord.
  - rewrite list_sort_perm, <- (reverse_Permutation (row <$> files)), Hperm.
    by apply submseteq_inserts_r.
Qed.

(** Without room in the heap ([n <= 0]) the first file met makes
    [heap[0]] fail. *)
Lemma top_files_of_nonpositive (f : str * Z * Z) (files : list (str * Z * Z)) (n : Z) :
  n ≤ 0 → top_files_of (f :: files) n = Raise IndexError.
Proof.
  intros Hn. unfold top_files_of. cbn [top_files_loop].
  destruct f as [[path sz] mtime]. unfold top_files_step. cbn [length].
  destruct (Z.ltb_spec (Z.of_nat 0) n); [lia|]. done.
Qed.

Lemma top_files_of_nil (n : Z) : top_files_of [] n = Ok [].
Proof. done. Qed.

Lemma iter_files_unreadable (root : str) (d : node) :
  os_scandir d = None → iter_files root d = [].
Proof. by destruct d as [| ? [] | |]. Qed.

(** ** Folder totals *)

(** Induction over a tree of entries. *)
Lemma node_ind (P : node → Prop) :
  (∀ lstat getsize, P (File lstat getsize)) →
  (∀ lstat, P (Dir lstat None)) →
  (∀ lstat entries, Forall (λ e, P e.2) entries → P (Dir lstat (Some entries))) →
  P DirLink → P Opaque →
  ∀ d, P d.
Proof.
  intros HFile HNone HSome HLink HOpaque.
  fix IH 1. intros [lstat getsize|lstat [entries|]| |].
  - apply HFile.
  - apply HSome. induction entries as [|[name child] entries IHentries];
      constructor; [apply IH | apply IHentries].
  - apply HNone.
  - exact HLink.
  - exact HOpaque.
Qed.

Lemma folder_size_eq (folder : str) (d : node) :
  folder_size folder d = foldl add_sizes 0 (walk folder d).
Proof.
  unfold folder_size. generalize 0. induction (walk folder d) as [|[[dp dn] fn] w IH];
    intros total; simpl; [done|]. apply IH.
Qed.

(** The total of the entries listed among the file names. *)
Lemma add_sizes_files (top : str) (dn : list str) (entries : list (str * node)) (total : Z) :
  add_sizes total (top, dn, omap (fun e => pair e.1 <$> nondir e.2) entries)
  = total + foldr (fun e s => match nondir e.2 with
                              | Some _ => total_size e.2 + s
                              | None => s
                              end) 0 entries.
Proof.
  unfold add_sizes. cbn [snd]. revert total.
  induction entries as [|[name e] entries IH]; intros total; simpl; [lia|].
  destruct e as [lstat [sz|]|lstat listing| |]; simpl; rewrite ?IH; lia.
Qed.

Lemma total_size_split (entries : list (str * node)) :
  foldr (fun e s => total_size e.2 + s) 0 entries
  = foldr (fun e s => match nondir e.2 with
                      | Some _ => total_size e.2 + s
                      | None => s
                      end) 0 entries
    + foldr (fun e s => match nondir e.2 with
                        | Some _ => s
                        | None => total_size e.2 + s
                        end) 0 entries.
Proof.
  induction entries as [|[name e] entries IH]; simpl; [done|].
  destruct (nondir e); lia.
Qed.

Lemma walk_total (d : node) :
  ∀ top total,
    foldl add_sizes total (walk top d)
    = total + match d with Dir _ _ => total_size d | _ => 0 end.
Proof.
  induction d as [| |lstat entries IH| |] using node_ind; intros top total;
    try (cbn [walk foldl total_size]; lia).
  change (walk top (Dir lstat (Some entries)))
    with ((top, (filter (fun e => nondir e.2 = None) entries).*1,
           omap (fun e => pair e.1 <$> nondir e.2) entries)
          :: (entries ≫= fun '(dirname, child) =>
                match child with
                | Dir _ _ => walk (join top dirname) child
                | _ => []
                end)).
  cbn [foldl]. rewrite add_sizes_files.
  change (total_size (Dir lstat (Some entries)))
    with (foldr (fun e s => total_size e.2 + s) 0 entries).
  rewrite total_size_split.
  generalize (foldr (fun e s => match nondir e.2 with
                                | Some _ => total_size e.2 + s
                                | None => s
                                end) 0 entries) as files.
  intros files. rewrite Z.add_assoc. generalize (total + files) as acc. clear total files.
  induction entries as [|[name e] entries IHe]; intros acc; [cbn; lia|].
  inversion IH as [|? ? He IH']; subst. specialize (IHe IH'). cbn [snd] in He.
  change (((name, e) :: entries) ≫= ?f) with (f (name, e) ++ (entries ≫= f)).
  cbv beta iota. rewrite foldl_app.
  destruct e as [lstat' getsize|lstat' listing| |]; cbn [nondir foldr snd foldl].
  - rewrite IHe. cbn [nondir]. lia.
  - rewrite (He (join top name) acc), IHe. lia.
  - rewrite IHe. cbn [total_size]. lia.
  - rewrite IHe. lia.
Qed.

(** [folder_size] of a directory is the total of the files beneath it. *)
Lemma folder_size_total (folder : str) (lstat : option stat_result)
    (listing : option (list (str * node))) :
  folder_size folder (Dir lstat listing) = total_size (Dir lstat listing).
Proof. rewrite folder_size_eq, walk_total. lia. Qed.

Lemma top_folders_loop_spec (root : str) (it : list (str * node)) :
  ∀ entries out,
    top_folders_loop root it entries = Some out →
    out = entries ++ omap (folder_row root) it.
Proof.
  induction it as [|[name e] it IH]; intros entries out; simpl.
  - intros [= <-]. by rewrite app_nil_r.
  - destruct e as [lstat getsize|[st|] listing| |]; unfold folder_row; simpl;
      try done; try apply IH.
    intros ->%IH. by rewrite folder_size_total, <- app_assoc.
Qed.

Lemma top_folders_sublist (root : str) (d : node) (n : Z) :
  ∃ entries it,
    top_folders root d n `sublist_of` list_sort tuple_ltb true entries
    ∧ (top_folders root d n = [] ∨
       os_scandir d = Some it ∧ entries = omap (folder_row root) it).
Proof.
  unfold top_folders.
  destruct (os_scandir d) as [it|] eqn:Hd; [|exists [], []; split; [done|auto]].
  destruct (top_folders_loop root it []) as [entries|] eqn:Hloop;
    [|exists [], []; split; [done|auto]].
  apply top_folders_loop_spec in Hloop. simpl in Hloop. subst entries.
  exists (omap (folder_row root) it), it. split; [|auto].
  unfold slice_to. destruct (n <? 0); apply sublist_take.
Qed.

Lemma StronglySorted_sublist {A} (R : relation A) (l1 l2 : list A) :
  l1 `sublist_of` l2 → StronglySorted R l2 → StronglySorted R l1.
Proof.
  induction 1 as [|x l1 l2 Hsub IH|x l1 l2 Hsub IH]; intros Hs; [done|..];
    apply StronglySorted_inv in Hs as [Hs Hx].
  - constructor; [auto|]. apply list.Forall_forall. intros y Hy.
    eapply (proj1 (list.Forall_forall _ _) Hx). by eapply elem_of_sublist.
  - auto.
Qed.

(** ** What the selection parser returns *)

(** A fact about every character, checked on the 256 of them. *)
Ltac each_char c :=
  destruct c as [[] [] [] [] [] [] [] []]; vm_compute; try done; auto.

Lemma lower_c_isdigit (c : ascii) : isdigit_c (lower_c c) = isdigit_c c.
Proof. each_char c. Qed.

Lemma lower_c_isdecimal (c : ascii) : isdecimal_c (lower_c c) = isdecimal_c c.
Proof. each_char c. Qed.

Lemma isdecimal_isdigit (c : ascii) : isdecimal_c c = true → isdigit_c c = true.
Proof. each_char c. Qed.

Lemma isdecimal_plain (c : ascii) :
  isdecimal_c c = true →
  isspace_c c = false ∧ lower_c c = c
  ∧ c ≠ ";"%char ∧ c ≠ ","%char ∧ c ≠ " "%char ∧ c ≠ "-"%char ∧ c ≠ "a"%char.
Proof. each_char c; repeat split; done. Qed.

(** *** The results are ascending, without repetition, and in range *)

Lemma StronglySorted_seqZ (a n : Z) : StronglySorted Z.lt (seqZ a n).
Proof.
  destruct (Z.le_gt_cases n 0) as [?|Hn]; [rewrite seqZ_nil by done; constructor|].
  rewrite <- (Z2Nat.id n) by lia. generalize (Z.to_nat n) as k. clear.
  intros k. revert a. induction k as [|k IH]; intros a; [constructor|].
  rewrite seqZ_cons by lia. constructor.
  - replace (Z.pred (Z.of_nat (S k))) with (Z.of_nat k) by lia. apply IH.
  - apply list.Forall_forall. intros i Hi%elem_of_seqZ. lia.
Qed.

Lemma StronglySorted_le_lt (l : list Z) :
  StronglySorted Z.le l → NoDup l → StronglySorted Z.lt l.
Proof.
  induction 1 as [|x l Hs IH Hx]; intros Hnd; [constructor|].
  apply list.NoDup_cons in Hnd as [Hx' Hnd]. constructor; [auto|].
  apply list.Forall_forall. intros y Hy.
  pose proof (proj1 (list.Forall_forall _ _) Hx y Hy).
  assert (x ≠ y) by (by intros ->). lia.
Qed.

Lemma StronglySorted_lt_NoDup (l : list Z) : StronglySorted Z.lt l → NoDup l.
Proof.
  induction 1 as [|x l Hs IH Hx]; constructor; [|done].
  intros Hin. pose proof (proj1 (list.Forall_forall _ _) Hx x Hin). lia.
Qed.

Lemma sorted_elem_of (chosen : gset Z) (i : Z) : i ∈ sorted chosen ↔ i ∈ chosen.
Proof. unfold sorted. by rewrite merge_sort_Permutation, elem_of_elements. Qed.

Lemma sorted_ascending (chosen : gset Z) : StronglySorted Z.lt (sorted chosen).
Proof.
  apply StronglySorted_le_lt.
  - apply StronglySorted_merge_sort; apply _.
  - unfold sorted. rewrite merge_sort_Permutation. apply NoDup_elements.
Qed.

Lemma add_in_range_elem_of (max_idx : Z) (chosen : gset Z) (i j : Z) :
  j ∈ add_in_range max_idx chosen i ↔ j ∈ chosen ∨ (j = i ∧ in_range max_idx i).
Proof.
  unfold add_in_range, in_range.
  destruct (Z.leb_spec 1 i), (Z.leb_spec i max_idx); simpl;
    rewrite ?elem_of_union, ?elem_of_singleton; intuition lia.
Qed.

Lemma foldl_add_in_range_elem_of (max_idx : Z) (l : list Z) (chosen : gset Z) (j : Z) :
  j ∈ foldl (add_in_range max_idx) chosen l
  ↔ j ∈ chosen ∨ (j ∈ l ∧ in_range max_idx j).
Proof.
  revert chosen. induction l as [|i l IH]; intros chosen; simpl.
  - rewrite elem_of_nil. tauto.
  - rewrite IH, add_in_range_elem_of, elem_of_cons. intuition congruence.
Qed.

Lemma parse_token_in_range (token : str) (max_idx : Z) (chosen chosen' : gset Z) :
  all_in_range max_idx chosen →
  parse_token token max_idx chosen = Ok chosen' →
  all_in_range max_idx chosen'.
Proof.
  intros Hin. unfold parse_token.
  assert (∀ r, (if isdigit token
                then i ← int token; Ok (add_in_range max_idx chosen i)
                else Ok chosen) = Ok r → all_in_range max_idx r) as Hsingle.
  { intros r. destruct (isdigit token); [|by intros [= <-]].
    destruct (int token) as [i|]; simpl; [|done]. intros [= <-] j.
    rewrite add_in_range_elem_of. intros [?|[-> ?]]; auto. }
  destruct (contains _ _); [|by apply Hsingle].
  destruct (strip <$> _) as [|p0 [|p1 [|]]]; try by apply Hsingle.
  destruct (isdigit p0 && isdigit p1); [|by apply Hsingle].
  destruct (int p0) as [a|]; simpl; [|done].
  destruct (int p1) as [b|]; simpl; [|done].
  destruct (b <? a); intros [= <-] j;
    rewrite foldl_add_in_range_elem_of; intros [?|[_ ?]]; auto.
Qed.

Lemma range_ascending_in_range (max_idx : Z) :
  StronglySorted Z.lt (range 1 (max_idx + 1))
  ∧ Forall (in_range max_idx) (range 1 (max_idx + 1)).
Proof.
  unfold range. split; [apply StronglySorted_seqZ|].
  apply list.Forall_forall. intros i Hi%elem_of_seqZ. unfold in_range. lia.
Qed.

Lemma parse_tokens_ascending (tokens : list str) (max_idx : Z) (chosen : gset Z)
    (l : list Z) :
  all_in_range max_idx chosen →
  parse_tokens tokens max_idx chosen = Ok l →
  StronglySorted Z.lt l ∧ Forall (in_range max_idx) l.
Proof.
  revert chosen. induction tokens as [|token tokens IH]; intros chosen Hin; simpl.
  - intros [= <-]. split; [apply sorted_ascending|].
    apply list.Forall_forall. intros i Hi%sorted_elem_of. auto.
  - case_bool_decide; [intros [= <-]; apply range_ascending_in_range|].
    destruct (parse_token token max_idx chosen) as [chosen'|] eqn:E; simpl; [|done].
    apply IH. eapply parse_token_in_range; eauto.
Qed.

Lemma parse_selection_ascending (s : str) (max_idx : Z) (l : list Z) :
  parse_selection s max_idx = Ok l →
  StronglySorted Z.lt l ∧ NoDup l ∧ Forall (in_range max_idx) l.
Proof.
  intros H.
  assert (StronglySorted Z.lt l ∧ Forall (in_range max_idx) l) as [H1 H2];
    [|auto using StronglySorted_lt_NoDup].
  revert H. unfold parse_selection.
  case_bool_decide; [intros [= <-]; split; constructor|].
  case_bool_decide; [intros [= <-]; apply range_ascending_in_range|].
  apply parse_tokens_ascending. intros i []%elem_of_empty.
Qed.

(** *** A range token *)

Lemma plain_char (c : ascii) :
  plain c →
  isspace_c c = false ∧ lower_c c = c
  ∧ c ≠ ";"%char ∧ c ≠ ","%char ∧ c ≠ " "%char ∧ c ≠ "a"%char.
Proof.
  intros [H| ->]; [|by repeat split].
  apply isdecimal_plain in H. tauto.
Qed.

Lemma lstrip_id (t : str) : Forall (λ c, isspace_c c = false) t → lstrip t = t.
Proof. destruct 1 as [|c t Hc _]; simpl; [done|by rewrite Hc]. Qed.

Lemma strip_id (t : str) : Forall (λ c, isspace_c c = false) t → strip t = t.
Proof.
  intros H. unfold strip, rstrip. rewrite (lstrip_id t H).
  rewrite lstrip_id; [apply reverse_involutive|].
  by apply Forall_reverse.
Qed.

Lemma lower_id (t : str) : Forall (λ c, lower_c c = c) t → lower t = t.
Proof. unfold lower. induction 1; simpl; congruence. Qed.

Lemma replace_c_id (a b : ascii) (t : str) :
  Forall (λ c, c ≠ a) t → replace_c a b t = t.
Proof.
  unfold replace_c. induction 1 as [|c t Hc _ IH]; simpl; [done|].
  by rewrite bool_decide_eq_false_2, IH.
Qed.

Lemma replace3_id (a b c : ascii) (new t : str) :
  Forall (λ x, x ≠ a) t → replace3 a b c new t = t.
Proof.
  induction 1 as [|x t Hx Ht IH]; [done|].
  cbn [replace3]. destruct t as [|y [|z t2]]; try (by rewrite IH).
  rewrite bool_decide_eq_false_2 by (by intros [? _]). by rewrite IH.
Qed.

Lemma split_id (sep : ascii) (t : str) :
  Forall (λ c, c ≠ sep) t → split sep t = [t].
Proof.
  induction 1 as [|c t Hc _ IH]; simpl; [done|].
  by rewrite bool_decide_eq_false_2, IH.
Qed.

Lemma split_app (sep : ascii) (t rest : str) :
  Forall (λ c, c ≠ sep) t → split sep (t ++ sep :: rest) = t :: split sep rest.
Proof.
  induction 1 as [|c t Hc _ IH]; simpl.
  - by rewrite bool_decide_eq_true_2.
  - by rewrite bool_decide_eq_false_2, IH.
Qed.

(** [int] succeeds exactly on the non-empty strings of decimal digits. *)
Lemma int_Ok (t : str) (a : Z) :
  int t = Ok a → t ≠ [] ∧ Forall (λ c, isdecimal_c c = true) t.
Proof.
  unfold int. destruct t as [|c t]; [done|].
  destruct (forallb isdecimal_c (c :: t)) eqn:E; [|done].
  intros _. split; [done|]. apply Is_true_true, forallb_True in E.
  eapply list.Forall_impl; [exact E|]. by intros x ?%Is_true_true.
Qed.

Lemma sorted_foldl_range (max_idx lo hi : Z) :
  sorted (foldl (add_in_range max_idx) ∅ (range lo hi))
  = filter (in_range max_idx) (range lo hi).
Proof.
  apply (StronglySorted_unique Z.le).
  - apply StronglySorted_merge_sort; apply _.
  - eapply StronglySorted_weaken; [|eapply StronglySorted_sublist;
      [apply sublist_filter|apply StronglySorted_seqZ]].
    intros x y. lia.
  - apply NoDup_Permutation.
    + unfold sorted. rewrite merge_sort_Permutation. apply NoDup_elements.
    + apply NoDup_filter, NoDup_seqZ.
    + intros i. rewrite sorted_elem_of, foldl_add_in_range_elem_of, list_elem_of_filter.
      rewrite elem_of_empty. tauto.
Qed.

Lemma contains_middle (c : ascii) (t1 t2 : str) : contains c (t1 ++ c :: t2) = true.
Proof.
  unfold contains. rewrite existsb_app. simpl.
  rewrite bool_decide_eq_true_2 by done. by rewrite orb_true_r.
Qed.

Lemma isdigit_decimal (t : str) :
  t ≠ [] → Forall (λ c, isdecimal_c c = true) t → isdigit t = true.
Proof.
  intros Hne H. destruct t as [|c t]; [done|]. unfold isdigit.
  apply forallb_forall. intros x Hx%list_elem_of_In.
  apply isdecimal_isdigit. by eapply (proj1 (list.Forall_forall _ _) H).
Qed.

(** A token [A-B] of two numbers selects the indices between the smaller
    and the larger of them that lie in [1, max_idx]. *)
Lemma parse_selection_range (A B : str) (a b max_idx : Z) :
  int A = Ok a → int B = Ok b →
  parse_selection (A ++ lit "-" ++ B) max_idx
  = Ok (filter (in_range max_idx) (range (Z.min a b) (Z.max a b + 1))).
Proof.
  intros HA HB.
  destruct (int_Ok A a HA) as [HAne HAdec], (int_Ok B b HB) as [HBne HBdec].
  change (lit "-" ++ B) with ("-"%char :: B).
  set (t := A ++ "-"%char :: B).
  assert (Forall plain t) as Hplain.
  { apply Forall_app. split; [|constructor]; try (by right);
      eapply list.Forall_impl; eauto; by left. }
  assert (∀ P : ascii → Prop, (∀ c, plain c → P c) → Forall P t) as Hall.
  { intros P HP. eapply list.Forall_impl; eauto. }
  assert (t ≠ []) as Hne by (unfold t; by destruct A).
  assert (t ≠ lit "all") as Hall'.
  { unfold t. destruct A as [|c A]; [done|]. intros [= -> _].
    by inversion HAdec. }
  assert (strip t = t) as Hstrip by (apply strip_id, Hall; intros c ?%plain_char; tauto).
  unfold parse_selection.
  rewrite (bool_decide_eq_false_2 _ Hne).
  rewrite Hstrip, lower_id by (apply Hall; intros c ?%plain_char; tauto).
  rewrite (bool_decide_eq_false_2 _ Hall').
  rewrite replace_c_id by (apply Hall; intros c ?%plain_char; tauto).
  rewrite replace3_id by (apply Hall; intros c ?%plain_char; tauto).
  rewrite split_id by (apply Hall; intros c ?%plain_char; tauto).
  rewrite filter_cons_True by (by rewrite Hstrip).
  rewrite filter_nil. cbn [fmap list_fmap]. rewrite Hstrip.
  cbn [parse_tokens]. rewrite (bool_decide_eq_false_2 _ Hall').
  assert (parse_token t max_idx ∅
          = Ok (foldl (add_in_range max_idx) ∅ (range (Z.min a b) (Z.max a b + 1))))
    as ->.
  { unfold parse_token, t. rewrite contains_middle.
    assert (∀ u, Forall (λ c, isdecimal_c c = true) u →
                 Forall (λ c, c ≠ "-"%char) u ∧ strip u = u) as Hdec.
    { intros u Hu. split.
      - eapply list.Forall_impl; [exact Hu|]. intros c ?%isdecimal_plain. tauto.
      - apply strip_id. eapply list.Forall_impl; [exact Hu|].
        intros c ?%isdecimal_plain. tauto. }
    destruct (Hdec A HAdec) as [HA' HAs], (Hdec B HBdec) as [HB' HBs].
    rewrite split_app, split_id by done.
    rewrite filter_cons_True by (by rewrite HAs).
    rewrite filter_cons_True by (by rewrite HBs).
    rewrite filter_nil. cbn [fmap list_fmap]. rewrite HAs, HBs.
    rewrite !isdigit_decimal by done. cbn [andb].
    rewrite HA, HB. cbn [mbind result_bind].
    destruct (Z.ltb_spec b a).
    - by rewrite Z.min_r, Z.max_l by lia.
    - by rewrite Z.min_l, Z.max_r by lia. }
  cbn [mbind result_bind parse_tokens]. by rewrite sorted_foldl_range.
Qed.

(** *** When the parser returns *)

Lemma lstrip_Forall (P : ascii → Prop) (t : str) : Forall P t → Forall P (lstrip t).
Proof.
  induction 1 as [|c t Hc Ht IH]; simpl; [done|].
  destruct (isspace_c c); [done|by constructor].
Qed.

Lemma strip_Forall (P : ascii → Prop) (t : str) : Forall P t → Forall P (strip t).
Proof.
  intros H. unfold strip, rstrip.
  by apply Forall_reverse, lstrip_Forall, Forall_reverse, lstrip_Forall.
Qed.

Lemma lower_agreed (t : str) : Forall agreed t → Forall agreed (lower t).
Proof.
  unfold lower. intros H. apply Forall_fmap.
  eapply list.Forall_impl; [exact H|]. intros c Hc. unfold agreed in *; simpl.
  by rewrite lower_c_isdigit, lower_c_isdecimal.
Qed.

Lemma replace_c_Forall (P : ascii → Prop) (a b : ascii) (t : str) :
  P b → Forall P t → Forall P (replace_c a b t).
Proof.
  intros Hb H. unfold replace_c. apply Forall_fmap.
  eapply list.Forall_impl; [exact H|]. intros c Hc; simpl. by case_bool_decide.
Qed.

Lemma replace3_Forall (P : ascii → Prop) (a b c : ascii) (new t : str) :
  Forall P new → Forall P t → Forall P (replace3 a b c new t).
Proof.
  intros Hnew. revert t.
  assert (∀ k (t : str), (length t ≤ k)%nat → Forall P t →
                         Forall P (replace3 a b c new t)) as Hk.
  { induction k as [|k IH]; intros [|x t] Hlen Ht;
      [by constructor|simpl in Hlen; lia|by constructor|].
    cbn [replace3]. apply list.Forall_cons in Ht as [Hx Ht].
    destruct t as [|y [|z t2]].
    - by constructor.
    - constructor; [done|]. apply IH; [simpl in *; lia|done].
    - case_bool_decide.
      + apply Forall_app. split; [done|]. apply IH; [simpl in *; lia|].
        by do 2 apply list.Forall_cons in Ht as [_ Ht].
      + constructor; [done|]. apply IH; [simpl in *; lia|done]. }
  intros t. by apply (Hk (length t)).
Qed.

Lemma split_Forall (P : ascii → Prop) (sep : ascii) (t : str) :
  Forall P t → Forall (Forall P) (split sep t).
Proof.
  induction 1 as [|c t Hc Ht IH]; simpl; [by repeat constructor|].
  case_bool_decide; [by constructor|].
  destruct (split sep t) as [|w ws]; [by repeat constructor|].
  apply list.Forall_cons in IH as [Hw Hws]. by repeat constructor.
Qed.

Lemma pieces_Forall (P : ascii → Prop) (sep : ascii) (t : str) :
  Forall P t →
  Forall (Forall P) (strip <$> filter (λ p, strip p ≠ []) (split sep t)).
Proof.
  intros H. pose proof (split_Forall P sep t H) as Hs.
  rewrite list.Forall_forall in Hs.
  apply Forall_fmap, list.Forall_forall. intros p [_ Hp]%list_elem_of_filter.
  simpl. by apply strip_Forall, Hs.
Qed.

Lemma int_agreed (t : str) :
  isdigit t = true → Forall agreed t → ∃ i, int t = Ok i.
Proof.
  unfold isdigit, int. destruct t as [|c t]; [done|].
  intros Hd Ht.
  assert (forallb isdecimal_c (c :: t) = true) as ->; [|eauto].
  apply forallb_forall. intros x Hx.
  rewrite forallb_forall in Hd.
  rewrite <- (proj1 (list.Forall_forall _ _) Ht x); [by apply Hd|].
  by apply list_elem_of_In.
Qed.

Lemma parse_token_agreed (token : str) (max_idx : Z) (chosen : gset Z) :
  Forall agreed token → ∃ chosen', parse_token token max_idx chosen = Ok chosen'.
Proof.
  intros Ht. unfold parse_token.
  assert (∃ r, (if isdigit token
                then i ← int token; Ok (add_in_range max_idx chosen i)
                else Ok chosen) = Ok r) as Hsingle.
  { destruct (isdigit token) eqn:Hd; [|eauto].
    destruct (int_agreed token Hd Ht) as [i ->]. simpl. eauto. }
  destruct (contains _ _); [|done].
  pose proof (pieces_Forall agreed "-" token Ht) as Hparts.
  destruct (strip <$> _) as [|p0 [|p1 [|]]]; try done.
  destruct (isdigit p0 && isdigit p1) eqn:Hd; [|done].
  apply andb_true_iff in Hd as [Hd0 Hd1].
  apply list.Forall_cons in Hparts as [H0 Hparts].
  apply list.Forall_cons in Hparts as [H1 _].
  destruct (int_agreed p0 Hd0 H0) as [a ->], (int_agreed p1 Hd1 H1) as [b ->].
  simpl. destruct (b <? a); eauto.
Qed.

Lemma parse_tokens_agreed (tokens : list str) (max_idx : Z) (chosen : gset Z) :
  Forall (Forall agreed) tokens → ∃ l, parse_tokens tokens max_idx chosen = Ok l.
Proof.
  intros H. revert chosen. induction H as [|token tokens Ht _ IH]; intros chosen; simpl.
  - eauto.
  - case_bool_decide; [eauto|].
    destruct (parse_token_agreed token max_idx chosen Ht) as [chosen' ->]. simpl.
    apply IH.
Qed.

(** Without a superscript digit in the input the parser returns. *)
Lemma parse_selection_agreed (s : str) (max_idx : Z) :
  Forall agreed s → ∃ l, parse_selection s max_idx = Ok l.
Proof.
  intros H. unfold parse_selection.
  case_bool_decide; [eauto|]. case_bool_decide; [eauto|].
  apply parse_tokens_agreed, pieces_Forall.
  apply replace3_Forall; [by repeat constructor|].
  apply replace_c_Forall; [done|].
  by apply lower_agreed, strip_Forall.
Qed.

Lemma ascii_agreed (c : ascii) : (ord c < 128)%N → agreed c.
Proof. unfold agreed. each_char c; intros; lia. Qed.

(** ** What the disk enumeration returns *)

Lemma mount_step_cases (h : host) (seen : gset str) (disks : list disk) (mnt : str) :
  (mount_step h (seen, disks) mnt = (seen, disks) ∧ (¬ kept h mnt ∨ mnt ∈ seen))
  ∨ (kept h mnt ∧ (mnt ∉ seen) ∧
     ((∃ d, reported h mnt d ∧
            mount_step h (seen, disks) mnt = ({[ mnt ]} ∪ seen, disks ++ [d]))
      ∨ (disk_usage h mnt = None ∧
         mount_step h (seen, disks) mnt = ({[ mnt ]} ∪ seen, disks)))).
Proof.
  unfold mount_step, kept.
  destruct (isdir h mnt); cbn [negb]; [|left; split; [done|left; by intros [? _]]].
  destruct (existsb (startswith mnt) pseudo_prefixes);
    [left; split; [done|left; by intros [_ ?]]|].
  case_bool_decide; [left; by auto|].
  right. repeat split; try done.
  destruct (disk_usage h mnt) as [[[total used] free]|] eqn:E; [left|right; done].
  eexists. split; [|done]. by exists total, used, free.
Qed.

Lemma reported_unique (h : host) (mnt : str) (d1 d2 : disk) :
  reported h mnt d1 → reported h mnt d2 → d1 = d2.
Proof. intros (?&?&?&?&->) (?&?&?&?&->). congruence. Qed.

Lemma reported_path (h : host) (mnt : str) (d : disk) :
  reported h mnt d → disk_path d = mnt ∧ disk_name d = mnt.
Proof. by intros (?&?&?&?&->). Qed.

Lemma mount_fold_spec (h : host) (mounts : list str) :
  ∀ (seen : gset str) (disks : list disk),
    NoDup (disk_path <$> disks) →
    (∀ d, d ∈ disks → disk_path d ∈ seen) →
    ∃ seen' disks',
      foldl (mount_step h) (seen, disks) mounts = (seen', disks')
      ∧ NoDup (disk_path <$> disks')
      ∧ (∀ m, m ∈ seen' ↔ m ∈ seen ∨ (m ∈ mounts ∧ kept h m))
      ∧ (∀ d, d ∈ disks' ↔
              d ∈ disks
              ∨ ∃ mnt, mnt ∈ mounts ∧ (mnt ∉ seen) ∧ kept h mnt ∧ reported h mnt d).
Proof.
  induction mounts as [|mnt mounts IH]; intros seen disks Hnd Hseen; cbn [foldl].
  { exists seen, disks. split; [done|]. split; [done|].
    split; intros x; setoid_rewrite elem_of_nil; naive_solver. }
  destruct (mount_step_cases h seen disks mnt)
    as [[-> Hskip]|(Hkept & Hnew & [(d0 & Hd0 & ->)|[Hnone ->]])].
  - destruct (IH seen disks Hnd Hseen) as (seen' & disks' & -> & Hnd' & Hs & Hd).
    exists seen', disks'. split; [done|]. split; [done|].
    split; intros x; rewrite ?Hs, ?Hd; setoid_rewrite elem_of_cons; naive_solver.
  - destruct (reported_path h mnt d0 Hd0) as [Hpath _].
    destruct (IH ({[ mnt ]} ∪ seen) (disks ++ [d0]))
      as (seen' & disks' & Hfold & Hnd' & Hs & Hd).
    { rewrite fmap_app. apply NoDup_app. split; [done|]. split; [|by apply NoDup_singleton].
      intros p (d & -> & Hd)%list_elem_of_fmap [E|[]%elem_of_nil]%elem_of_cons.
      apply Hnew. rewrite <- Hpath, <- E. by apply Hseen. }
    { intros d [Hd|Hd%list_elem_of_singleton]%elem_of_app;
        apply elem_of_union; [right; by apply Hseen|left].
      subst d. by apply elem_of_singleton. }
    exists seen', disks'. split; [done|]. split; [done|].
    pose proof (reported_unique h mnt d0) as Huniq.
    split; intros x; rewrite ?Hs, ?Hd; setoid_rewrite elem_of_cons;
      rewrite ?elem_of_app, ?list_elem_of_singleton;
      setoid_rewrite elem_of_union; setoid_rewrite elem_of_singleton.
    + naive_solver.
    + split.
      * intros [[?| ->]|(m & ? & Hm & ? & ?)]; [auto|right; exists mnt; auto|].
        right. exists m. naive_solver.
      * intros [?|(m & [->|?] & ? & ? & Hr)]; [auto|left; right; symmetry; by apply Huniq|].
        destruct (decide (m = mnt)) as [->|Hne]; [left; right; symmetry; by apply Huniq|].
        right. exists m. naive_solver.
  - destruct (IH ({[ mnt ]} ∪ seen) disks) as (seen' & disks' & Hfold & Hnd' & Hs & Hd);
      [done| |].
    { intros d Hd. apply elem_of_union. right. by apply Hseen. }
    exists seen', disks'. split; [done|]. split; [done|].
    assert (∀ d, ¬ reported h mnt d) as Hnot.
    { intros d (?&?&?&?&_). congruence. }
    split; intros x; rewrite ?Hs, ?Hd; setoid_rewrite elem_of_cons;
      setoid_rewrite elem_of_union; setoid_rewrite elem_of_singleton.
    + naive_solver.
    + split.
      * intros [?|(m & ? & Hm & ? & ?)]; [auto|].
        right. exists m. naive_solver.
      * intros [?|(m & [->|?] & ? & ? & Hr)]; [auto|by apply Hnot in Hr|].
        destruct (decide (m = mnt)) as [->|Hne]; [by apply Hnot in Hr|].
        right. exists m. naive_solver.
Qed.

(** The mount-table strategy: the devices found, before sorting. *)
Lemma discover_mounts (h : host) :
  IS_WINDOWS h = false →
  NoDup (disk_path <$> discover h)
  ∧ ∀ d, d ∈ discover h ↔
         ∃ mnt, mnt ∈ read_mounts h ∧ kept h mnt ∧ reported h mnt d.
Proof.
  intros Hw. unfold discover. rewrite Hw.
  destruct (mount_fold_spec h (read_mounts h) ∅ [])
    as (seen' & disks' & -> & Hnd & _ & Hd); [constructor|by intros ? ?%elem_of_nil|].
  split; [done|]. intros d. rewrite Hd. setoid_rewrite elem_of_nil.
  setoid_rewrite elem_of_empty. naive_solver.
Qed.

#[local] Instance str_le_trans : Transitive str_le.
Proof.
  unfold str_le. intros x y z Hxy Hyz.
  destruct (str_ltb z x) eqn:E; [|done].
  destruct (str_ltb_trichotomy x y) as [H|[->|H]]; [|congruence|congruence].
  destruct (str_ltb_trichotomy y z) as [H'|[->|H']]; [|congruence|congruence].
  pose proof (str_ltb_trans _ _ _ H (str_ltb_trans _ _ _ H' E)) as C.
  by rewrite str_ltb_irrefl in C.
Qed.

Lemma str_le_antisym (a b : str) : str_le a b → str_le b a → a = b.
Proof.
  unfold str_le. intros.
  destruct (str_ltb_trichotomy a b) as [?|[?|?]]; congruence.
Qed.

Lemma enumerate_disks_perm (h : host) : enumerate_disks h ≡ₚ discover h.
Proof. apply list_sort_perm. Qed.

Lemma enumerate_disks_name_le (h : host) : StronglySorted name_le (enumerate_disks h).
Proof.
  apply sort_by_sorted; unfold name_le, str_le.
  - intros x y z. apply str_le_trans.
  - intros x y. by intros ?%negb_true_iff.
  - intros x y. intros ?%negb_false_iff. by apply str_ltb_asym.
Qed.

(** The drive-letter strategy names each drive after its letter. *)
Lemma drive_fold_names (h : host) (l : list (nat * ascii)) :
  ∀ disks, ∃ names,
    disk_name <$> foldl (drive_step h) disks l = (disk_name <$> disks) ++ names
    ∧ names `sublist_of` ((λ il, [il.2; ":"%char]) <$> l).
Proof.
  induction l as [|[i letter] l IH]; intros disks; cbn [foldl].
  { exists []. by rewrite app_nil_r. }
  assert (drive_step h disks (i, letter) = disks
          ∨ ∃ root total free,
              drive_step h disks (i, letter)
              = disks ++ [([letter; ":"%char], root, total, free)]) as [->|(r&t&f&->)].
  { unfold drive_step. case_bool_decide; [|by left]. case_bool_decide; [|by left].
    destruct (disk_usage h _) as [[[total used] free]|]; [|by left].
    right. eauto. }
  - destruct (IH disks) as (names & -> & Hsub). exists names. split; [done|].
    by apply sublist_cons.
  - destruct (IH (disks ++ [([letter; ":"%char], r, t, f)])) as (names & -> & Hsub).
    exists ([letter; ":"%char] :: names). split.
    + by rewrite fmap_app, <- app_assoc.
    + by apply sublist_skip.
Qed.

Lemma discover_names_NoDup (h : host) : NoDup (disk_name <$> discover h).
Proof.
  destruct (IS_WINDOWS h) eqn:Hw.
  - unfold discover. rewrite Hw.
    destruct (drive_fold_names h (enumerate ascii_uppercase) []) as (names & -> & Hsub).
    eapply sublist_NoDup; [|exact Hsub].
    apply (bool_decide_unpack _). by vm_compute.
  - destruct (discover_mounts h Hw) as [Hnd Hd].
    erewrite list_fmap_ext; [exact Hnd|].
    intros k d Hk%list_elem_of_lookup_2. apply Hd in Hk as (mnt & _ & _ & Hr).
    apply reported_path in Hr as [-> ->]. done.
Qed.

Lemma NoDup_fmap_inj_on {A B} (f : A → B) (l : list A) (x y : A) :
  NoDup (f <$> l) → x ∈ l → y ∈ l → f x = f y → x = y.
Proof.
  induction l as [|z l IH]; [by intros _ ?%elem_of_nil|].
  rewrite fmap_cons, NoDup_cons, !elem_of_cons.
  intros [Hz Hnd] [->|Hx] [->|Hy] E; auto.
  - destruct Hz. rewrite E. apply list_elem_of_fmap. eauto.
  - destruct Hz. rewrite <- E. apply list_elem_of_fmap. eauto.
Qed.

(** The order of the result depends on the set of devices only. *)
Lemma enumerate_disks_unique (h h' : host) :
  discover h' ≡ₚ discover h → enumerate_disks h' = enumerate_disks h.
Proof.
  intros Hperm.
  apply (StronglySorted_unique_strong name_le); try apply enumerate_disks_name_le.
  - intros x y Hx Hy Hxy Hyx.
    rewrite enumerate_disks_perm in Hx, Hy. rewrite Hperm in Hx.
    eapply (NoDup_fmap_inj_on disk_name); eauto using discover_names_NoDup.
    by apply str_le_antisym.
  - by rewrite !enumerate_disks_perm.
Qed.

Lemma StronglySorted_strict {A} (f : A → str) (l : list A) :
  StronglySorted (λ a b, str_le (f a) (f b)) l → NoDup (f <$> l) →
  StronglySorted (λ a b, str_ltb (f a) (f b) = true) l.
Proof.
  induction 1 as [|x l Hs IH Hx]; [constructor|].
  rewrite fmap_cons, NoDup_cons. intros [Hx' Hnd]. constructor; [auto|].
  apply list.Forall_forall. intros y Hy.
  pose proof (proj1 (list.Forall_forall _ _) Hx y Hy) as Hle. unfold str_le in Hle.
  destruct (str_ltb_trichotomy (f x) (f y)) as [?|[E|?]]; [done| |congruence].
  destruct Hx'. rewrite E. apply list_elem_of_fmap. eauto.
Qed.

Example top_files_of_sample :
  top_files_of sample_files 3
  = Ok [(200, lit "/r/d", 4); (50, lit "/r/b", 2); (10, lit "/r/a", 1)].
Proof. reflexivity. Qed.

Example enumerate_disks_sample :
  enumerate_disks sample_host
  = [(lit "/", lit "/", 100, 40); (lit "/mnt/data", lit "/mnt/data", 100, 40)].
Proof. vm_compute. reflexivity. Qed.

Example enumerate_disks_windows_sample :
  enumerate_disks sample_windows_host
  = [(lit "C:", ["C"; ":"; "092"]%char, 500, 300);
     (lit "D:", ["D"; ":"; "092"]%char, 500, 300)].
Proof. vm_compute. reflexivity. Qed.

Example top_folders_sample :
  top_folders (lit "/r") sample_root 5
  = [(12, lit "/r/a", 2); (0, lit "/r/c", 4)].
Proof. vm_compute. reflexivity. Qed.

(** ** The claims *)

(** C1.  For [n >= 0], [top_files] on a stream of files either is in the
    one failing case, [n = 0] with at least one file, where reading
    [heap[0]] of the empty heap raises [IndexError]; or it returns rows
    whose number is at most [n] and at most the number of files, ordered
    by size, largest first, and whose sizes are those of the [n] largest
    files, as a full descending sort cut after [n] gives them. *)
Theorem top_files_bounded_selection (files : list (str * Z * Z)) (n : Z) :
  0 ≤ n →
  (n = 0 ∧ files ≠ [] ∧ top_files_of files n = Raise IndexError)
  ∨ ((1 ≤ n ∨ files = [])
     ∧ ∃ out, top_files_of files n = Ok out
         ∧ Z.of_nat (length out) ≤ n
         ∧ (length out ≤ length files)%nat
         ∧ StronglySorted (λ a b, size b ≤ size a) out
         ∧ size <$> out = largest n ((λ f, f.1.2) <$> files)).
Proof.
  intros Hn. destruct (decide (1 ≤ n)) as [Hpos|Hzero].
  - right. split; [auto|].
    destruct (top_files_of_positive files n Hpos)
      as (out & Hout & Hlen & Hlen' & Hsorted & Hsizes & _).
    exists out. repeat split; try done.
    eapply StronglySorted_weaken; [|exact Hsorted]. apply descending_size.
  - assert (n = 0) as -> by lia. destruct files as [|f files].
    + right. split; [auto|]. exists []. repeat split; try done. constructor.
    + left. repeat split; [done|]. by apply top_files_of_nonpositive.
Qed.

Lemma top_files_zero_raises : top_files_of sample_files 0 = Raise IndexError.
Proof.
  destruct (top_files_bounded_selection sample_files 0) as [(_ & _ & H)|[[H|H] _]].
  - lia.
  - exact H.
  - lia.
  - discriminate H.
Defined.

(** C2.  [top_files] returns the empty sequence for a root in which no
    file is visible and for a root that cannot be opened; but for
    [n <= 0] and a root with a visible file it raises [IndexError]
    instead of returning the empty sequence. *)
Theorem top_files_without_room (root : str) (d : node) (n : Z) :
  (iter_files root d = [] → top_files root d n = Ok [])
  ∧ (os_scandir d = None → top_files root d n = Ok [])
  ∧ (n ≤ 0 → iter_files root d ≠ [] → top_files root d n = Raise IndexError).
Proof.
  unfold top_files. split; [by intros ->|]. split.
  - intros H. by rewrite iter_files_unreadable.
  - intros Hn Hne. destruct (iter_files root d) as [|f files]; [done|].
    by apply top_files_of_nonpositive.
Qed.

Lemma top_files_one_file_zero :
  top_files (lit "/r") one_file_root 0 = Raise IndexError.
Proof.
  apply (top_files_without_room (lit "/r") one_file_root 0).
  - lia.
  - discriminate.
Defined.

(** C3.  [parse_selection] raises [ValueError] on an input whose token is
    a superscript digit, alone or as a bound of a range: [isdigit] accepts
    the token and [int] rejects it. *)
Theorem parse_selection_superscript_raises (max_idx : Z) :
  parse_selection ["178"%char] max_idx = Raise ValueError
  ∧ parse_selection (lit "1-" ++ ["179"%char]) max_idx = Raise ValueError.
Proof. split; reflexivity. Qed.

(** C4.  The test vector of the specification. *)
Theorem parse_selection_test_vector :
  parse_selection (lit "all") 5 = Ok [1; 2; 3; 4; 5]
  ∧ parse_selection (lit "1,3,5") 5 = Ok [1; 3; 5]
  ∧ parse_selection (lit "1 - 4") 10 = Ok [1; 2; 3; 4]
  ∧ parse_selection (lit "1-3, 5, 7-8") 10 = Ok [1; 2; 3; 5; 7; 8]
  ∧ parse_selection (lit "0,99") 5 = Ok []
  ∧ parse_selection (lit "") 5 = Ok [].
Proof. repeat split; vm_compute; reflexivity. Qed.



(** C6.  Every row that [top_folders] returns is the row of an immediate
    child directory of the root: its path is the root joined with the name
    of that child, and its size is the total of the sizes of all files
    anywhere beneath the child, where a file whose size cannot be read
    and a directory that cannot be listed count for nothing.  So a file
    deeper in the tree is counted in its ancestor at depth one and has no
    row of its own. *)
Theorem top_folders_immediate_children (root : str) (d : node) (n : Z)
    (sz : Z) (p : str) (mt : Z) :
  (sz, p, mt) ∈ top_folders root d n →
  ∃ it name st listing,
    os_scandir d = Some it
    ∧ (name, Dir (Some st) listing) ∈ it
    ∧ p = join root name
    ∧ mt = st_mtime st
    ∧ sz = folder_size p (Dir (Some st) listing)
    ∧ sz = total_size (Dir (Some st) listing).
Proof.
  intros Hin.
  destruct (top_folders_sublist root d n) as (entries & it & Hsub & [Hnil|[Hd ->]]).
  { rewrite Hnil in Hin. by apply elem_of_nil in Hin. }
  eapply elem_of_sublist in Hin; [|exact Hsub].
  rewrite list_sort_perm in Hin.
  apply list_elem_of_omap in Hin as ([name e] & He & Hrow).
  unfold folder_row in Hrow. cbn [fst snd] in Hrow.
  destruct e as [| [st|] listing | |]; try done.
  injection Hrow as <- <- <-.
  exists it, name, st, listing. repeat split; try done.
  symmetry. apply folder_size_total.
Qed.

Lemma top_folders_immediate_children_witness :
  ∃ it name st listing,
    os_scandir sample_root = Some it
    ∧ (name, Dir (Some st) listing) ∈ it
    ∧ lit "/r/a" = join (lit "/r") name
    ∧ 2 = st_mtime st
    ∧ 12 = folder_size (lit "/r/a") (Dir (Some st) listing)
    ∧ 12 = total_size (Dir (Some st) listing).
Proof.
  apply (top_folders_immediate_children (lit "/r") sample_root 5 12 (lit "/r/a") 2).
  rewrite top_folders_sample. apply elem_of_cons. by left.
Defined.

(** C7, amended.  [top_folders] returns its rows ordered by size, largest
    first, for every [n]; for [n >= 0] there are at most [n] of them; and
    a root that cannot be opened for listing yields the empty sequence. *)
Theorem top_folders_sorted_bounded (root : str) (d : node) (n : Z) :
  StronglySorted (λ a b, size b ≤ size a) (top_folders root d n)
  ∧ (0 ≤ n → Z.of_nat (length (top_folders root d n)) ≤ n)
  ∧ (os_scandir d = None → top_folders root d n = []).
Proof.
  split; [|split].
  - destruct (top_folders_sublist root d n) as (entries & it & Hsub & _).
    eapply StronglySorted_sublist; [exact Hsub|].
    eapply StronglySorted_weaken; [|apply list_sort_reverse_sorted].
    intros x y. apply tuple_ge_size.
  - intros Hn. unfold top_folders.
    destruct (os_scandir d) as [it|]; [|simpl; lia].
    destruct (top_folders_loop root it []) as [entries|]; [|simpl; lia].
    unfold slice_to. destruct (Z.ltb_spec n 0); [lia|].
    rewrite length_take. lia.
  - unfold top_folders. by intros ->.
Qed.

Lemma top_folders_sorted_bounded_witness :
  Z.of_nat (length (top_folders (lit "/r") sample_root 1)) ≤ 1
  ∧ top_folders (lit "/r") (plain_file 10) 1 = [].
Proof.
  split.
  - apply (top_folders_sorted_bounded (lit "/r") sample_root 1). lia.
  - apply (top_folders_sorted_bounded (lit "/r") (plain_file 10) 1). reflexivity.
Defined.

(** C7 as stated fails for a negative [n]: [entries[:-1]] drops the last
    row and keeps the others, here one row, which is more than [n]. *)
Lemma top_folders_negative_n :
  top_folders (lit "/r") sample_root (-1) = [(12, lit "/r/a", 2)]
  ∧ ¬ (Z.of_nat (length (top_folders (lit "/r") sample_root (-1))) ≤ -1).
Proof. split; [vm_compute; reflexivity|]. vm_compute. by intros H. Qed.




(** C9.  The result of [enumerate_disks] holds the devices discovered,
    in strictly ascending order of their names; so the place of a device
    in it depends on the set of devices only, not on the order in which
    they were discovered. *)
Theorem enumerate_disks_sorted (h : host) :
  StronglySorted (λ a b, str_ltb (disk_name a) (disk_name b) = true)
    (enumerate_disks h)
  ∧ enumerate_disks h ≡ₚ discover h
  ∧ ∀ h', discover h' ≡ₚ discover h → enumerate_disks h' = enumerate_disks h.
Proof.
  split; [|split].
  - apply (StronglySorted_strict disk_name); [apply enumerate_disks_name_le|].
    rewrite enumerate_disks_perm. apply discover_names_NoDup.
  - apply enumerate_disks_perm.
  - intros h'. apply enumerate_disks_unique.
Qed.

Lemma enumerate_disks_sorted_witness :
  enumerate_disks sample_host' = enumerate_disks sample_host.
Proof.
  apply (proj2 (proj2 (enumerate_disks_sorted sample_host)) sample_host').
  vm_compute. apply perm_swap.
Defined.

(** C10.  For [n >= 1] [top_files] returns rows of the files of the
    stream, each at most as often as the stream has it: as many as there
    are files, up to [n], all of them when [n] is not less than their
    number, and with the sizes of the [n] largest.  These rows are in the
    descending order of the whole tuples: of two rows of equal size the
    one with the greater path comes first, and of two rows of equal size
    and path the one with the later time.  No other arrangement of the
    same rows has that order, so the output order of equal-size files
    is fixed by the rows. *)
Theorem top_files_tie_order (files : list (str * Z * Z)) (n : Z) :
  1 ≤ n →
  ∃ out, top_files_of files n = Ok out
    ∧ out ⊆+ row <$> files
    ∧ length out = (Z.to_nat n `min` length files)%nat
    ∧ (Z.of_nat (length files) ≤ n → out ≡ₚ row <$> files)
    ∧ size <$> out = largest n ((λ f, f.1.2) <$> files)
    ∧ StronglySorted descending out
    ∧ (∀ (i j : nat) a b,
         (i < j)%nat → out !! i = Some a → out !! j = Some b →
         size a = size b →
         str_ltb b.1.2 a.1.2 = true ∨ (b.1.2 = a.1.2 ∧ b.2 ≤ a.2))
    ∧ ∀ l, l ≡ₚ out → StronglySorted descending l → l = out.
Proof.
  intros Hn.
  destruct (top_files_of_positive files n Hn)
    as (out & Hout & _ & _ & Hsorted & Hsizes & Hsub).
  assert (length out = (Z.to_nat n `min` length files)%nat) as Hlen.
  { pose proof (f_equal length Hsizes) as H. unfold largest in H.
    by rewrite length_fmap, length_take, list_sort_length, length_fmap in H. }
  exists out.
  split; [done|]. split; [done|]. split; [done|]. split.
  { intros Hall. apply submseteq_length_Permutation; [done|].
    rewrite length_fmap. lia. }
  split; [done|]. split; [done|]. split.
  - intros i j a b Hij Ha Hb Hsize.
    destruct (StronglySorted_before descending out i j a b Hsorted Hij Ha Hb)
      as [Hlt|[_ Hties]]; [lia|done].
  - intros l Hperm Hl.
    apply (StronglySorted_unique_strong descending); try done.
    intros x y _ _ Hxy Hyx. apply tuple_ge_antisym; by apply tuple_ge_descending.
Qed.

Lemma top_files_tie_order_witness :
  ∃ out, top_files_of tied_files 3 = Ok out
    ∧ out ⊆+ row <$> tied_files
    ∧ length out = (Z.to_nat 3 `min` length tied_files)%nat
    ∧ (Z.of_nat (length tied_files) ≤ 3 → out ≡ₚ row <$> tied_files)
    ∧ size <$> out = largest 3 ((λ f, f.1.2) <$> tied_files)
    ∧ StronglySorted descending out
    ∧ (∀ (i j : nat) a b,
         (i < j)%nat → out !! i = Some a → out !! j = Some b →
         size a = size b →
         str_ltb b.1.2 a.1.2 = true ∨ (b.1.2 = a.1.2 ∧ b.2 ≤ a.2))
    ∧ ∀ l, l ≡ₚ out → StronglySorted descending l → l = out.
Proof. apply (top_files_tie_order tied_files 3). lia. Defined.

Example top_files_of_tied :
  top_files_of tied_files 3
  = Ok [(9, lit "/r/d", 4); (7, lit "/r/c", 2); (7, lit "/r/b", 3)].
Proof. reflexivity. Qed.

(** ** Further properties of the selection parser *)

Lemma lower_c_isspace (c : ascii) : isspace_c (lower_c c) = isspace_c c.
Proof. each_char c. Qed.

(** A function on characters that keeps white space white and the rest
    not commutes with [strip]. *)
Lemma lstrip_map (f : ascii → ascii) (t : str) :
  (∀ c, isspace_c (f c) = isspace_c c) → lstrip (map f t) = map f (lstrip t).
Proof.
  intros Hf. induction t as [|c t IH]; [done|].
  cbn [map lstrip]. rewrite Hf. by destruct (isspace_c c).
Qed.

Lemma map_reverse' {A B} (f : A → B) (l : list A) :
  map f (reverse l) = reverse (map f l).
Proof.
  induction l as [|x l IH]; [done|].
  cbn [map]. by rewrite !reverse_cons, map_app, IH.
Qed.

Lemma strip_map (f : ascii → ascii) (t : str) :
  (∀ c, isspace_c (f c) = isspace_c c) → strip (map f t) = map f (strip t).
Proof.
  intros Hf. unfold strip, rstrip.
  by rewrite lstrip_map, <- map_reverse', lstrip_map, map_reverse'.
Qed.

Lemma strip_lower (t : str) : strip (lower t) = lower (strip t).
Proof. apply strip_map, lower_c_isspace. Qed.

Lemma map_nil_iff {A B} (f : A → B) (l : list A) : map f l = [] ↔ l = [].
Proof. by destruct l. Qed.

(** The part of [parse_selection] after the test for the empty string. *)
Lemma parse_selection_lower (s : str) (max_idx : Z) :
  parse_selection s max_idx
  = if bool_decide (lower s = []) then Ok []
    else
      let s := strip (lower s) in
      if bool_decide (s = lit "all") then Ok (range 1 (max_idx + 1))
      else
        parse_tokens
          (strip <$> filter (fun t => strip t ≠ [])
                       (split "," (replace3 " " "-" " " (lit "-")
                                     (replace_c ";" "," s))))
          max_idx ∅.
Proof.
  unfold parse_selection. rewrite strip_lower.
  assert (bool_decide (lower s = []) = bool_decide (s = [])) as ->; [|done].
  apply bool_decide_ext, map_nil_iff.
Qed.

Lemma semicolon_isspace (c : ascii) : isspace_c (semicolon c) = isspace_c c.
Proof. each_char c. Qed.

Lemma semicolon_lower (c : ascii) : lower_c (semicolon c) = semicolon (lower_c c).
Proof. each_char c. Qed.

Lemma semicolon_idemp (c : ascii) : semicolon (semicolon c) = semicolon c.
Proof. each_char c. Qed.

Lemma semicolon_letter (c : ascii) :
  semicolon c = "a"%char ∨ semicolon c = "l"%char → semicolon c = c.
Proof.
  unfold semicolon. case_bool_decide; [|done]. intros [?|?]; discriminate.
Qed.

Lemma replace_c_semicolon (t : str) : replace_c ";" "," t = map semicolon t.
Proof. done. Qed.

Lemma semicolon_all (t : str) : map semicolon t = lit "all" ↔ t = lit "all".
Proof.
  split; [|by intros ->].
  destruct t as [|x [|y [|z [|? ?]]]]; try done.
  cbn. intros [= Hx Hy Hz].
  pose proof (semicolon_letter x) as Hx'.
  pose proof (semicolon_letter y) as Hy'.
  pose proof (semicolon_letter z) as Hz'.
  rewrite Hx in Hx'. rewrite Hy in Hy'. rewrite Hz in Hz'.
  rewrite <- Hx', <- Hy', <- Hz'; auto.
Qed.

Lemma ascending_unique (l1 l2 : list Z) :
  StronglySorted Z.lt l1 → StronglySorted Z.lt l2 →
  (∀ i, i ∈ l1 ↔ i ∈ l2) → l1 = l2.
Proof.
  intros H1 H2 H.
  apply (StronglySorted_unique Z.le).
  - eapply StronglySorted_weaken; [|exact H1]. intros; lia.
  - eapply StronglySorted_weaken; [|exact H2]. intros; lia.
  - apply NoDup_Permutation; auto using StronglySorted_lt_NoDup.
Qed.

Lemma StronglySorted_filter {A} (R : relation A) (P : A → Prop)
    `{∀ x, Decision (P x)} (l : list A) :
  StronglySorted R l → StronglySorted R (filter P l).
Proof.
  intros Hl. eapply StronglySorted_sublist; [|exact Hl]. apply sublist_filter.
Qed.

Lemma add_in_range_upto (m m' : Z) (chosen : gset Z) (i : Z) :
  m ≤ m' →
  add_in_range m (filter (upto m) chosen) i
  = filter (upto m) (add_in_range m' chosen i).
Proof.
  intros Hm. apply set_eq. intros j.
  rewrite elem_of_filter, !add_in_range_elem_of, elem_of_filter.
  unfold upto, in_range. naive_solver lia.
Qed.

Lemma foldl_add_in_range_upto (m m' : Z) (l : list Z) :
  m ≤ m' → ∀ chosen,
    foldl (add_in_range m) (filter (upto m) chosen) l
    = filter (upto m) (foldl (add_in_range m') chosen l).
Proof.
  intros Hm. induction l as [|i l IH]; intros chosen; [done|].
  cbn [foldl]. by rewrite (add_in_range_upto m m'), IH.
Qed.

Lemma parse_token_upto (token : str) (m m' : Z) (chosen : gset Z) :
  m ≤ m' →
  parse_token token m (filter (upto m) chosen)
  = on_value (filter (upto m)) (parse_token token m' chosen).
Proof.
  intros Hm. unfold parse_token.
  assert ((if isdigit token
           then i ← int token; Ok (add_in_range m (filter (upto m) chosen) i)
           else Ok (filter (upto m) chosen))
          = on_value (filter (upto m))
              (if isdigit token
               then i ← int token; Ok (add_in_range m' chosen i)
               else Ok chosen)) as Hsingle.
  { destruct (isdigit token); [|done].
    destruct (int token) as [i|e]; [|done].
    cbn. by rewrite (add_in_range_upto m m'). }
  destruct (contains "-" token); [|exact Hsingle].
  destruct (strip <$> filter (λ p, strip p ≠ []) (split "-" token))
    as [|p0 [|p1 [|? ?]]]; try exact Hsingle.
  destruct (isdigit p0 && isdigit p1); [|exact Hsingle].
  destruct (int p0) as [a|e]; [|done].
  destruct (int p1) as [b|e]; [|done].
  cbn. destruct (b <? a); cbn; by rewrite (foldl_add_in_range_upto m m').
Qed.

Lemma sorted_upto (m : Z) (chosen : gset Z) :
  sorted (filter (upto m) chosen) = filter (upto m) (sorted chosen).
Proof.
  apply ascending_unique.
  - apply sorted_ascending.
  - apply StronglySorted_filter, sorted_ascending.
  - intros i. rewrite list_elem_of_filter, !sorted_elem_of, elem_of_filter. done.
Qed.

Lemma range_upto (m m' : Z) :
  m ≤ m' → range 1 (m + 1) = filter (upto m) (range 1 (m' + 1)).
Proof.
  intros Hm. apply ascending_unique.
  - apply StronglySorted_seqZ.
  - apply StronglySorted_filter, StronglySorted_seqZ.
  - intros i. rewrite list_elem_of_filter. unfold range, upto.
    rewrite !elem_of_seqZ. lia.
Qed.

Lemma parse_tokens_upto (tokens : list str) (m m' : Z) :
  m ≤ m' → ∀ chosen,
    parse_tokens tokens m (filter (upto m) chosen)
    = on_value (filter (upto m)) (parse_tokens tokens m' chosen).
Proof.
  intros Hm. induction tokens as [|token rest IH]; intros chosen.
  - cbn. by rewrite sorted_upto.
  - cbn [parse_tokens]. case_bool_decide.
    + cbn. by rewrite <- (range_upto m m').
    + rewrite (parse_token_upto token m m') by done.
      destruct (parse_token token m' chosen) as [chosen'|e]; [|done].
      cbn. apply IH.
Qed.

Lemma parse_selection_upto (s : str) (m m' : Z) :
  m ≤ m' →
  parse_selection s m = on_value (filter (upto m)) (parse_selection s m').
Proof.
  intros Hm. unfold parse_selection.
  case_bool_decide; [done|]. cbv zeta.
  case_bool_decide; [cbn; by rewrite <- (range_upto m m')|].
  by rewrite <- (parse_tokens_upto _ m m') by done.
Qed.

(** *** The token ['all'] *)

Lemma lstrip_app_nonspace (a b : str) (c : ascii) :
  isspace_c c = false → ∃ a', lstrip (a ++ c :: b) = a' ++ c :: b.
Proof.
  intros Hc. induction a as [|x a [a' IH]].
  - exists []. cbn. by rewrite Hc.
  - cbn [app lstrip]. destruct (isspace_c x).
    + by exists a'.
    + by exists (x :: a).
Qed.

Lemma rstrip_app_nonspace (p rest : str) (c : ascii) :
  isspace_c c = false → ∃ rest', rstrip (p ++ c :: rest) = p ++ c :: rest'.
Proof.
  intros Hc. unfold rstrip.
  rewrite reverse_app, reverse_cons, <- app_assoc. cbn [app].
  destruct (lstrip_app_nonspace (reverse rest) (reverse p) c Hc) as [a' ->].
  exists (reverse a').
  by rewrite reverse_app, reverse_cons, reverse_involutive, <- app_assoc.
Qed.

Lemma replace3_app_ne (a b c : ascii) (new p t : str) :
  Forall (λ x, x ≠ a) p →
  replace3 a b c new (p ++ t) = p ++ replace3 a b c new t.
Proof.
  induction 1 as [|x p Hx Hp IH]; [done|].
  cbn [app]. rewrite <- IH. cbn [replace3].
  destruct (p ++ t) as [|y [|z t2]]; try done.
  rewrite bool_decide_eq_false_2 by tauto. done.
Qed.

Lemma int_decimal (t : str) :
  t ≠ [] → Forall (λ c, isdecimal_c c = true) t → ∃ i, int t = Ok i.
Proof.
  intros Hne Ht. destruct t as [|c t]; [done|]. unfold int.
  assert (forallb isdecimal_c (c :: t) = true) as ->; [|by eexists].
  apply forallb_forall. intros x Hx%list_elem_of_In.
  by eapply (proj1 (list.Forall_forall _ _) Ht).
Qed.

(** The tokens after a number and ['all']. *)
Lemma parse_tokens_number_all (first : str) (rest : list str) (max_idx : Z) :
  Forall (λ c, isdecimal_c c = true) first →
  parse_tokens
    (strip <$> filter (λ t, strip t ≠ []) (first :: lit "all" :: rest))
    max_idx ∅
  = Ok (range 1 (max_idx + 1)).
Proof.
  intros Hfirst.
  assert (strip first = first) as Hstrip.
  { apply strip_id. eapply list.Forall_impl; [exact Hfirst|].
    intros c ?%isdecimal_plain. tauto. }
  assert (filter (λ t, strip t ≠ []) (lit "all" :: rest)
          = lit "all" :: filter (λ t, strip t ≠ []) rest) as Hall
    by (by apply filter_cons_True).
  destruct (decide (first = [])) as [->|Hne].
  - rewrite filter_cons_False by (intros H; by apply H).
    rewrite Hall. done.
  - rewrite filter_cons_True by (by rewrite Hstrip).
    rewrite Hall. cbn [fmap list_fmap]. rewrite Hstrip.
    cbn [parse_tokens].
    rewrite bool_decide_eq_false_2.
    2:{ intros ->. by inversion Hfirst. }
    assert (∃ chosen, parse_token first max_idx ∅ = Ok chosen) as [chosen ->].
    { unfold parse_token.
      assert (contains "-" first = false) as ->.
      { unfold contains. apply not_true_is_false.
        intros (c & Hc%list_elem_of_In & Heq%bool_decide_eq_true)%existsb_exists.
        subst c. pose proof (proj1 (list.Forall_forall _ _) Hfirst _ Hc). done. }
      rewrite isdigit_decimal by done.
      destruct (int_decimal first Hne Hfirst) as [i ->]. by eexists. }
    done.
Qed.

(** ** Further properties of the scan *)

Lemma top_files_loop_app (n : Z) (seen rest : list (str * Z * Z)) :
  ∀ heap,
    top_files_loop n heap (seen ++ rest)
    = (heap' ← top_files_loop n heap seen; top_files_loop n heap' rest).
Proof.
  induction seen as [|f seen IH]; intros heap; [done|].
  cbn [app top_files_loop].
  destruct (top_files_step n heap f) as [heap'|e]; [|done].
  cbn. apply IH.
Qed.

Lemma sorted_rows_unique (l1 l2 : list record) :
  StronglySorted descending l1 → StronglySorted descending l2 →
  l1 ≡ₚ l2 → l1 = l2.
Proof.
  intros H1 H2 Hperm.
  apply (StronglySorted_unique_strong descending); try done.
  intros x y _ _ Hxy Hyx. apply tuple_ge_antisym; by apply tuple_ge_descending.
Qed.

Lemma list_sort_descending (l : list record) :
  StronglySorted descending (list_sort tuple_ltb true l).
Proof.
  eapply StronglySorted_weaken; [|apply list_sort_reverse_sorted].
  intros x y. by apply tuple_ge_descending.
Qed.

Lemma walk_same_sizes (d : node) :
  ∀ top, same_sizes d = true →
    Forall (λ t, Forall (λ f, same_size f.2.1 f.2.2 = true) t.2) (walk top d).
Proof.
  induction d as [| |lstat entries IH| |] using node_ind; intros top Hd;
    try by constructor.
  cbn [walk]. cbn [same_sizes] in Hd.
  apply Is_true_true_2 in Hd.
  rewrite forallb_True, list.Forall_forall in Hd.
  rewrite list.Forall_forall in IH.
  constructor.
  - cbn [snd]. apply list.Forall_forall. intros [f [l g]] Hf.
    apply list_elem_of_omap in Hf as ([name e] & He & Hf).
    specialize (Hd _ He). cbn [snd fst] in *.
    destruct e as [l' g'| | |]; cbn in Hf; try done.
    + injection Hf as _ <- <-. by apply Is_true_true_1.
    + by injection Hf as _ <- <-.
  - apply list.Forall_forall. intros t Ht.
    apply list_elem_of_bind in Ht as ([name e] & Ht & He).
    specialize (Hd _ He). specialize (IH _ He). cbn [snd] in *.
    destruct e as [| l' g'| |]; try by apply elem_of_nil in Ht.
    apply Is_true_true_1 in Hd.
    specialize (IH (join top name) Hd).
    rewrite list.Forall_forall in IH. by apply IH.
Qed.

Lemma add_sizes_same (total : Z)
    (t : str * list str * list (str * (option stat_result * option Z))) :
  Forall (λ f, same_size f.2.1 f.2.2 = true) t.2 →
  add_sizes total t
  = total + sum ((λ f, f.1.2) <$>
                 ('(f, (lstat, _)) ← t.2;
                  match lstat with
                  | Some st => [(join t.1.1 f, st_size st, st_mtime st)]
                  | None => []
                  end)).
Proof.
  unfold add_sizes. destruct t as [[dp dn] fn]. cbn [fst snd].
  revert total. induction fn as [|[f [l g]] fn IH]; intros total Hfn.
  - cbn. lia.
  - apply Forall_cons in Hfn as [Hf Hfn]. cbn [foldl]. rewrite IH by done.
    cbn [mbind list_bind]. rewrite fmap_app. unfold sum. rewrite foldr_app.
    cbn [fst snd] in Hf. destruct l as [st|], g as [sz|]; try done.
    apply bool_decide_eq_true in Hf. cbn. lia.
Qed.

Lemma sum_app (l1 l2 : list Z) : sum (l1 ++ l2) = sum l1 + sum l2.
Proof. unfold sum. induction l1 as [|x l1 IH]; cbn; lia. Qed.

Lemma walk_sum
    (w : list (str * list str * list (str * (option stat_result * option Z)))) :
  Forall (λ t, Forall (λ f, same_size f.2.1 f.2.2 = true) t.2) w →
  ∀ total,
    foldl add_sizes total w
    = total + sum ((λ f, f.1.2) <$>
                   ('(dp, dn, fn) ← w;
                    '(f, (lstat, _)) ← fn;
                    match lstat with
                    | Some st => [(join dp f, st_size st, st_mtime st)]
                    | None => []
                    end)).
Proof.
  induction 1 as [|[[dp dn] fn] w Ht Hw IH]; intros total.
  - cbn. lia.
  - cbn [foldl]. rewrite IH, (add_sizes_same _ _ Ht).
    cbn [mbind list_bind fst snd]. rewrite fmap_app, sum_app. lia.
Qed.

(** ** Further properties of the folder ranking *)

Lemma top_folders_loop_opaque (root : str) (it : list (str * node)) (name : str) :
  (name, Opaque) ∈ it → ∀ entries, top_folders_loop root it entries = None.
Proof.
  induction it as [|[name' e] it IH]; intros Hin entries.
  - by apply elem_of_nil in Hin.
  - apply elem_of_cons in Hin as [Heq|Hin].
    + by injection Heq as <- <-.
    + cbn [top_folders_loop]. destruct e as [| [st|] ?| |]; auto.
Qed.

Lemma top_folders_loop_some (root : str) (it : list (str * node)) :
  Forall (λ e, e.2 ≠ Opaque) it →
  ∀ entries,
    top_folders_loop root it entries = Some (entries ++ omap (folder_row root) it).
Proof.
  induction 1 as [|[name e] it He Hit IH]; intros entries.
  - cbn. by rewrite app_nil_r.
  - cbn [top_folders_loop]. destruct e as [| [st|] listing| |]; try done;
      rewrite IH; try done.
    cbn [omap list_omap]. unfold folder_row at 2. cbn [snd fst].
    by rewrite folder_size_total, <- app_assoc.
Qed.

Lemma omap_length_le {A B} (f : A → option B) (l : list A) :
  (length (omap f l) ≤ length l)%nat.
Proof.
  induction l as [|x l IH]; [done|].
  cbn [omap list_omap length]. destruct (f x); cbn [length]; lia.
Qed.

Lemma slice_to_all {A} (l : list A) (n : Z) :
  Z.of_nat (length l) ≤ n → slice_to l n = l.
Proof.
  intros Hn. unfold slice_to. destruct (Z.ltb_spec n 0); [lia|].
  apply take_ge. lia.
Qed.

(** ** Further properties of the disk enumeration *)

Lemma land_bit (x : Z) (i : nat) :
  Z.land x (Z.shiftl 1 (Z.of_nat i)) ≠ 0 ↔ Z.testbit x (Z.of_nat i) = true.
Proof.
  rewrite Z.shiftl_1_l.
  assert (Z.land x (2 ^ Z.of_nat i)
          = if Z.testbit x (Z.of_nat i) then 2 ^ Z.of_nat i else 0) as ->.
  { apply Z.bits_inj'. intros k Hk. rewrite Z.land_spec.
    destruct (decide (k = Z.of_nat i)) as [->|Hne].
    - rewrite Z.pow2_bits_true by lia.
      destruct (Z.testbit x (Z.of_nat i)); cbn.
      + by rewrite Z.pow2_bits_true by lia.
      + by rewrite Z.bits_0.
    - rewrite Z.pow2_bits_false by lia. rewrite andb_false_r.
      destruct (Z.testbit x (Z.of_nat i)).
      + by rewrite Z.pow2_bits_false by lia.
      + by rewrite Z.bits_0. }
  destruct (Z.testbit x (Z.of_nat i)); [|done].
  split; [done|]. intros _. pose proof (Z.pow_pos_nonneg 2 (Z.of_nat i)). lia.
Qed.

Lemma elem_of_zip_seq {A} (l : list A) (k i : nat) (a : A) :
  (i, a) ∈ zip (seq k (length l)) l ↔ (k ≤ i)%nat ∧ l !! (i - k)%nat = Some a.
Proof.
  revert k. induction l as [|x l IH]; intros k.
  - cbn. rewrite elem_of_nil. naive_solver.
  - cbn [length seq zip zip_with]. rewrite elem_of_cons, IH. split.
    + intros [[= -> ->]|[Hk Hl]].
      * split; [lia|]. by rewrite Nat.sub_diag.
      * split; [lia|]. by replace (i - k)%nat with (S (i - S k)) by lia.
    + intros [Hk Hl]. destruct (decide (i = k)) as [->|Hne].
      * left. rewrite Nat.sub_diag in Hl. by injection Hl as ->.
      * right. split; [lia|].
        by replace (i - k)%nat with (S (i - S k)) in Hl by lia.
Qed.

Lemma elem_of_enumerate {A} (l : list A) (i : nat) (a : A) :
  (i, a) ∈ enumerate l ↔ l !! i = Some a.
Proof.
  unfold enumerate. rewrite elem_of_zip_seq, Nat.sub_0_r. split; [by intros [_ ?]|].
  split; [lia|done].
Qed.

Lemma drive_step_spec (h : host) (disks : list disk) (i : nat) (letter : ascii)
    (d : disk) :
  d ∈ drive_step h disks (i, letter) ↔ d ∈ disks ∨ fixed_drive h i letter d.
Proof.
  unfold drive_step, fixed_drive. cbv zeta.
  pose proof (land_bit (GetLogicalDrives h) i) as Hb.
  case_bool_decide as Hbit; [|naive_solver].
  case_bool_decide as Htype; [|naive_solver].
  destruct (disk_usage h _) as [[[total used] free]|] eqn:Husage.
  - rewrite elem_of_app, list_elem_of_singleton. naive_solver.
  - naive_solver.
Qed.

Lemma drive_fold_spec (h : host) (l : list (nat * ascii)) (d : disk) :
  ∀ disks,
    d ∈ foldl (drive_step h) disks l
    ↔ d ∈ disks ∨ ∃ i letter, (i, letter) ∈ l ∧ fixed_drive h i letter d.
Proof.
  induction l as [|[i letter] l IH]; intros disks.
  - cbn. setoid_rewrite elem_of_nil. naive_solver.
  - cbn [foldl]. rewrite IH, drive_step_spec.
    setoid_rewrite elem_of_cons. naive_solver.
Qed.

(** ** Properties beyond the claims: selection parsing *)

(** X1.  [parse_selection] does not tell upper case from lower case: two
    inputs that [str.lower] makes equal give the same result, and raise
    the same exception when they raise. *)
Theorem parse_selection_ignores_case (s1 s2 : str) (max_idx : Z) :
  lower s1 = lower s2 →
  parse_selection s1 max_idx = parse_selection s2 max_idx.
Proof. intros H. by rewrite !parse_selection_lower, H. Qed.

Lemma parse_selection_ignores_case_witness :
  parse_selection (lit "1-2, ALL") 3 = parse_selection (lit "1-2, aLl") 3.
Proof.
  apply (parse_selection_ignores_case (lit "1-2, ALL") (lit "1-2, aLl") 3).
  reflexivity.
Defined.

(** X2.  A semicolon separates tokens exactly as a comma does: two inputs
    that differ only in which of the two is written give the same
    result. *)
Theorem parse_selection_semicolon (s1 s2 : str) (max_idx : Z) :
  replace_c ";" "," s1 = replace_c ";" "," s2 →
  parse_selection s1 max_idx = parse_selection s2 max_idx.
Proof.
  assert (∀ s, parse_selection s max_idx
               = parse_selection (replace_c ";" "," s) max_idx) as Hsemi.
  { intros s. rewrite !parse_selection_lower, !replace_c_semicolon.
    assert (lower (map semicolon s) = map semicolon (lower s)) as ->.
    { unfold lower. rewrite !map_map. apply map_ext. intros c.
      apply semicolon_lower. }
    case_bool_decide as H1; case_bool_decide as H2; try done.
    { exfalso. apply H2. by rewrite H1. }
    { exfalso. by apply H1, (map_nil_iff semicolon). }
    cbv zeta. rewrite (strip_map semicolon) by apply semicolon_isspace.
    case_bool_decide as H3; case_bool_decide as H4; try done.
    { exfalso. apply H4. by rewrite H3. }
    { exfalso. by apply H3, semicolon_all. }
    rewrite !replace_c_semicolon, map_map.
    by rewrite (map_ext (λ c, semicolon (semicolon c)) semicolon)
      by apply semicolon_idemp. }
  intros H. by rewrite (Hsemi s1), (Hsemi s2), H.
Qed.

Lemma parse_selection_semicolon_witness :
  parse_selection (lit "1;3-4,6") 9 = parse_selection (lit "1,3-4;6") 9.
Proof.
  apply (parse_selection_semicolon (lit "1;3-4,6") (lit "1,3-4;6") 9).
  reflexivity.
Defined.

(** X3.  With fewer devices the same input selects the same indices less
    those above the new count, and it raises exactly when it raised
    before: the count decides only which indices are kept. *)
Theorem parse_selection_fewer_devices (s : str) (m m' : Z) :
  m ≤ m' →
  parse_selection s m
  = match parse_selection s m' with
    | Ok l => Ok (filter (upto m) l)
    | Raise e => Raise e
    end.
Proof. apply parse_selection_upto. Qed.

Lemma parse_selection_fewer_devices_witness :
  parse_selection (lit "2-9, 1") 4
  = match parse_selection (lit "2-9, 1") 6 with
    | Ok l => Ok (filter (upto 4) l)
    | Raise e => Raise e
    end.
Proof. apply (parse_selection_fewer_devices (lit "2-9, 1") 4 6). lia. Defined.

(** X4.  The token ['all'] wins: written after a number of at most 4300
    digits (a longer one makes [int] raise before ['all'] is reached), it
    makes [parse_selection] return every index from 1 to [max_idx],
    whatever follows it, also text that would make the parser raise. *)
Theorem parse_selection_all_wins (first rest : str) (max_idx : Z) :
  Forall (λ c, isdecimal_c c = true) first →
  (length first ≤ 4300)%nat →
  parse_selection (first ++ lit ",all," ++ rest) max_idx
  = Ok (range 1 (max_idx + 1)).
Proof.
  intros Hfirst _.
  assert (∀ P : ascii → Prop,
            (∀ c, isdecimal_c c = true → P c) → Forall P first) as Hall.
  { intros P HP. eapply list.Forall_impl; eauto. }
  set (p := first ++ lit ",all").
  assert (∀ r, first ++ lit ",all," ++ r = p ++ ","%char :: r) as Hp.
  { intros r. unfold p. by rewrite <- app_assoc. }
  unfold parse_selection.
  rewrite bool_decide_eq_false_2 by (by destruct first).
  assert (∃ rest', strip (first ++ lit ",all," ++ rest) = p ++ ","%char :: rest')
    as [rest' ->].
  { unfold strip.
    assert (lstrip (first ++ lit ",all," ++ rest) = first ++ lit ",all," ++ rest)
      as ->.
    { destruct first as [|c first]; [done|]. cbn [app lstrip].
      apply Forall_cons in Hfirst as [Hc%isdecimal_plain _].
      by destruct Hc as [-> _]. }
    rewrite Hp. by apply rstrip_app_nonspace. }
  assert (lower (p ++ ","%char :: rest') = p ++ ","%char :: lower rest') as ->.
  { unfold lower, p. rewrite !map_app. cbn [map].
    fold (lower first). rewrite lower_id; [done|].
    apply Hall. intros c ?%isdecimal_plain. tauto. }
  rewrite bool_decide_eq_false_2.
  2:{ intros H%(f_equal length). unfold p in H.
      rewrite !length_app in H. cbn in H. lia. }
  assert (replace_c ";" "," (p ++ ","%char :: lower rest')
          = p ++ ","%char :: replace_c ";" "," (lower rest')) as ->.
  { unfold replace_c at 1, p. rewrite !map_app. cbn [map].
    fold (replace_c ";" "," first). rewrite replace_c_id; [done|].
    apply Hall. intros c ?%isdecimal_plain. tauto. }
  change (p ++ ","%char :: ?r) with (p ++ [","%char] ++ r).
  rewrite app_assoc, replace3_app_ne.
  2:{ unfold p. rewrite !Forall_app. repeat split.
      - apply Hall. intros c ?%isdecimal_plain. tauto.
      - by repeat constructor.
      - by repeat constructor. }
  unfold p. rewrite <- !app_assoc. cbn [app lit list_ascii_of_string].
  rewrite split_app by (apply Hall; intros c ?%isdecimal_plain; tauto).
  change ("a"%char :: "l"%char :: "l"%char :: ","%char :: ?r)
    with (lit "all" ++ ","%char :: r).
  rewrite (split_app "," (lit "all")) by (by repeat constructor).
  by apply parse_tokens_number_all.
Qed.

Lemma parse_selection_all_wins_witness :
  parse_selection (lit "2" ++ lit ",all," ++ [" "; "178"]%char) 4
  = Ok (range 1 (4 + 1)).
Proof.
  apply (parse_selection_all_wins (lit "2") [" "; "178"]%char 4).
  - by repeat constructor.
  - vm_compute. lia.
Defined.

(** *** Lists of numbers *)

Lemma listed_char (c : ascii) :
  listed c →
  lower_c c = c ∧ c ≠ ";"%char ∧ c ≠ "-"%char ∧ c ≠ "a"%char.
Proof.
  intros [H|[->| ->]]; [|done..]. apply isdecimal_plain in H. tauto.
Qed.

Lemma replace3_absent (a b c : ascii) (new t : str) :
  Forall (λ x, x ≠ b) t → replace3 a b c new t = t.
Proof.
  induction 1 as [|x t Hx Ht IH]; [done|].
  cbn [replace3]. destruct t as [|y [|z t2]]; try (by rewrite IH).
  apply Forall_cons in Ht as [Hy _].
  rewrite bool_decide_eq_false_2 by (by intros (_ & ? & _)). by rewrite IH.
Qed.

Lemma rstrip_nonspace (q : str) (c : ascii) :
  isspace_c c = false → rstrip (q ++ [c]) = q ++ [c].
Proof.
  intros Hc. unfold rstrip. rewrite reverse_app.
  change (reverse [c]) with [c]. cbn [app lstrip]. rewrite Hc.
  rewrite reverse_cons, reverse_involutive. done.
Qed.

Lemma strip_spaces_digits (a : nat) (d : str) :
  Forall (λ c, isdecimal_c c = true) d →
  strip (replicate a " "%char ++ d) = d.
Proof.
  intros Hd.
  assert (strip d = d) as Hstrip.
  { apply strip_id. eapply list.Forall_impl; [exact Hd|].
    intros c ?%isdecimal_plain. tauto. }
  assert (lstrip (replicate a " "%char ++ d) = lstrip d) as Hl.
  { induction a as [|a IH]; [done|]. exact IH. }
  unfold strip in *. by rewrite Hl.
Qed.

Lemma split_numbers (d : str) (items : list (nat * str)) :
  Forall (λ c, isdecimal_c c = true) d →
  Forall (λ item, Forall (λ c, isdecimal_c c = true) item.2) items →
  split "," (d ++ concat (next_number <$> items))
  = d :: ((λ item, replicate item.1 " "%char ++ item.2) <$> items).
Proof.
  assert (∀ (a : nat) (d : str),
            Forall (λ c, isdecimal_c c = true) d →
            Forall (λ c, c ≠ ","%char) (replicate a " "%char ++ d)) as Hcomma.
  { intros a d' Hd'. apply Forall_app. split.
    - apply Forall_replicate. done.
    - eapply list.Forall_impl; [exact Hd'|]. intros c ?%isdecimal_plain. tauto. }
  intros Hd Hitems. revert d Hd.
  induction Hitems as [|[a d'] items Hd' Hitems IH]; intros d Hd.
  - cbn. rewrite app_nil_r. apply split_id. apply (Hcomma 0%nat d Hd).
  - cbn [fmap list_fmap concat]. unfold next_number at 1. cbn [fst snd].
    cbn [app].
    rewrite split_app by apply (Hcomma 0%nat d Hd).
    f_equal. rewrite <- app_assoc.
    assert (∀ pre, Forall (λ c, c ≠ ","%char) pre →
              split "," (pre ++ d' ++ concat (next_number <$> items))
              = (pre ++ d')
                :: ((λ item, replicate item.1 " "%char ++ item.2) <$> items))
      as Hpre.
    { intros pre Hpre. induction Hpre as [|c pre Hc Hpre IHpre].
      - by apply IH.
      - cbn [app split]. rewrite bool_decide_eq_false_2 by done.
        by rewrite IHpre. }
    by rewrite Hpre by (apply Forall_replicate; done).
Qed.

Lemma numbers_end (items : list (nat * str)) :
  Forall (λ item, Forall (λ c, isdecimal_c c = true) item.2 ∧ item.2 ≠ []) items →
  ∀ d, Forall (λ c, isdecimal_c c = true) d → d ≠ [] →
    ∃ q c, d ++ concat (next_number <$> items) = q ++ [c] ∧ isdecimal_c c = true.
Proof.
  induction 1 as [|[a d'] items [Hd' Hne'] Hitems IH]; intros d Hd Hne.
  - cbn. rewrite app_nil_r. destruct d as [|c d _] using rev_ind; [done|].
    exists d, c. split; [done|].
    apply Forall_app in Hd as [_ Hc]. by inversion Hc.
  - destruct (IH d' Hd' Hne') as (q & c & Heq & Hc).
    exists (d ++ ","%char :: replicate a " "%char ++ q), c. split; [|done].
    cbn [fmap list_fmap concat]. unfold next_number at 1. cbn [fst snd app].
    rewrite <- !app_assoc. cbn [app]. rewrite <- !app_assoc. by rewrite Heq.
Qed.

Lemma numbers_listed (d : str) (items : list (nat * str)) :
  Forall (λ c, isdecimal_c c = true) d →
  Forall (λ item, Forall (λ c, isdecimal_c c = true) item.2) items →
  Forall listed (d ++ concat (next_number <$> items)).
Proof.
  intros Hd Hitems. apply Forall_app. split.
  - eapply list.Forall_impl; [exact Hd|]. intros c Hc. by left.
  - induction Hitems as [|[a d'] items Hd' Hitems IH]; [constructor|].
    cbn [fmap list_fmap concat]. apply Forall_app. split; [|done].
    unfold next_number. cbn [fst snd]. constructor; [right; by left|].
    apply Forall_app. split.
    + apply Forall_replicate. right. by right.
    + eapply list.Forall_impl; [exact Hd'|]. intros c Hc. by left.
Qed.

Lemma pieces_numbers (d : str) (items : list (nat * str)) :
  Forall (λ c, isdecimal_c c = true) d → d ≠ [] →
  Forall (λ item, Forall (λ c, isdecimal_c c = true) item.2 ∧ item.2 ≠ []) items →
  strip <$> filter (λ t, strip t ≠ [])
              (d :: ((λ item, replicate item.1 " "%char ++ item.2) <$> items))
  = d :: items.*2.
Proof.
  intros Hd Hne Hitems.
  assert (∀ (a : nat) (d : str),
            Forall (λ c, isdecimal_c c = true) d → d ≠ [] →
            ∀ rest, strip <$> filter (λ t, strip t ≠ [])
                                ((replicate a " "%char ++ d) :: rest)
                    = d :: (strip <$> filter (λ t, strip t ≠ []) rest)) as Hone.
  { intros a d1 Hd1 Hne1 rest.
    rewrite filter_cons_True by (by rewrite strip_spaces_digits).
    cbn [fmap list_fmap]. by rewrite strip_spaces_digits. }
  rewrite (Hone 0%nat d Hd Hne). f_equal.
  induction Hitems as [|[a d'] items [Hd' Hne'] Hitems IH]; [done|].
  cbn [fmap list_fmap fst snd]. by rewrite (Hone a d' Hd' Hne'), IH.
Qed.

Lemma parse_tokens_numbers (max_idx : Z) (tokens : list str) (values : list Z) :
  Forall2 (λ token v, int token = Ok v) tokens values →
  ∀ chosen,
    parse_tokens tokens max_idx chosen
    = Ok (sorted (foldl (add_in_range max_idx) chosen values)).
Proof.
  induction 1 as [|token v tokens values Hv Hrest IH]; intros chosen; [done|].
  destruct (int_Ok token v Hv) as [Hne Hdec].
  cbn [parse_tokens foldl].
  rewrite bool_decide_eq_false_2.
  2:{ intros ->. by inversion Hdec. }
  assert (parse_token token max_idx chosen
          = Ok (add_in_range max_idx chosen v)) as ->.
  { unfold parse_token.
    assert (contains "-" token = false) as ->.
    { unfold contains. apply not_true_is_false.
      intros (c & Hc%list_elem_of_In & Heq%bool_decide_eq_true)%existsb_exists.
      subst c. pose proof (proj1 (list.Forall_forall _ _) Hdec _ Hc). done. }
    by rewrite isdigit_decimal, Hv by done. }
  apply IH.
Qed.

(** X5.  A list of numbers separated by commas, with or without spaces
    after the commas (['1,3,5'], ['1, 3, 5']), selects exactly the
    numbers of the list that lie in [1, max_idx], in ascending order and
    once each, however often and in whatever order they are written. *)
Theorem parse_selection_numbers (d : str) (v : Z) (items : list (nat * str))
    (values : list Z) (max_idx : Z) :
  int d = Ok v →
  Forall2 (λ item v, int item.2 = Ok v) items values →
  (length (d ++ concat (next_number <$> items)) ≤ 4300)%nat →
  ∃ l, parse_selection (d ++ concat (next_number <$> items)) max_idx = Ok l
       ∧ StronglySorted Z.lt l
       ∧ ∀ i, i ∈ l ↔ in_range max_idx i ∧ i ∈ v :: values.
Proof.
  intros Hv Hvalues _.
  destruct (int_Ok d v Hv) as [Hne Hd].
  assert (Forall (λ item, Forall (λ c, isdecimal_c c = true) item.2 ∧ item.2 ≠ [])
            items) as Hitems.
  { clear -Hvalues. induction Hvalues as [|item v' items values Hitem _ IH];
      constructor; [|done].
    destruct (int_Ok _ _ Hitem). done. }
  assert (Forall (λ item, Forall (λ c, isdecimal_c c = true) item.2) items)
    as Hitems'.
  { eapply list.Forall_impl; [exact Hitems|]. by intros item [? _]. }
  set (t := d ++ concat (next_number <$> items)).
  pose proof (numbers_listed d items Hd Hitems') as Hlisted. fold t in Hlisted.
  assert (∀ P : ascii → Prop, (∀ c, listed c → P c) → Forall P t) as Hall.
  { intros P HP. eapply list.Forall_impl; eauto. }
  assert (∃ c0 t0, t = c0 :: t0 ∧ isdecimal_c c0 = true) as (c0 & t0 & Ht0 & Hc0).
  { unfold t. destruct d as [|c0 d0]; [done|]. exists c0. eexists. split; [done|].
    by apply Forall_cons in Hd as [? _]. }
  assert (strip t = t) as Hstrip.
  { unfold strip.
    assert (lstrip t = t) as ->.
    { rewrite Ht0. cbn [lstrip]. apply isdecimal_plain in Hc0 as [-> _]. done. }
    destruct (numbers_end items Hitems d Hd Hne) as (q & c & Heq & Hc).
    fold t in Heq. rewrite Heq. apply rstrip_nonspace.
    apply isdecimal_plain in Hc. tauto. }
  unfold parse_selection. fold t.
  rewrite bool_decide_eq_false_2 by (by rewrite Ht0).
  rewrite Hstrip, lower_id by (apply Hall; intros c ?%listed_char; tauto).
  rewrite bool_decide_eq_false_2.
  2:{ rewrite Ht0. intros [= -> _]. done. }
  rewrite replace_c_id by (apply Hall; intros c ?%listed_char; tauto).
  rewrite replace3_absent by (apply Hall; intros c ?%listed_char; tauto).
  unfold t. rewrite split_numbers, pieces_numbers by done.
  rewrite (parse_tokens_numbers max_idx (d :: items.*2) (v :: values)).
  2:{ constructor; [done|]. clear -Hvalues.
      induction Hvalues; constructor; done. }
  eexists. split; [done|]. split; [apply sorted_ascending|].
  intros i. rewrite sorted_elem_of, foldl_add_in_range_elem_of.
  split; [intros [H|H]; [set_solver|tauto]|]. tauto.
Qed.

Lemma parse_selection_numbers_witness :
  ∃ l, parse_selection
         (lit "5" ++ concat (next_number <$> [(1%nat, lit "1"); (0%nat, lit "12");
                                               (2%nat, lit "5")])) 9
       = Ok l
       ∧ StronglySorted Z.lt l
       ∧ ∀ i, i ∈ l ↔ in_range 9 i ∧ i ∈ 5 :: [1; 12; 5].
Proof.
  apply (parse_selection_numbers (lit "5") 5
           [(1%nat, lit "1"); (0%nat, lit "12"); (2%nat, lit "5")] [1; 12; 5] 9).
  - reflexivity.
  - by repeat constructor.
  - vm_compute. lia.
Defined.

(** ** Properties beyond the claims: the scan *)

(** X6.  The heap of [top_files] never holds more than [n] rows: after
    any number of files, with [rest] still to come, it holds [n] rows or
    all the rows seen, whichever is fewer, and it is a heap, the smallest
    row first. *)
Theorem top_files_heap_bounded (n : Z) (seen rest : list (str * Z * Z)) :
  1 ≤ n →
  ∃ heap,
    top_files_loop n [] seen = Ok heap
    ∧ top_files_loop n [] (seen ++ rest) = top_files_loop n heap rest
    ∧ length heap = (Z.to_nat n `min` length seen)%nat
    ∧ is_heap tuple_ltb heap.
Proof.
  intros Hn.
  destruct (top_files_loop_retained n seen [] [] Hn (retained_nil _))
    as (heap & Hloop & Hheap & dropped & _ & Hlen & _).
  exists heap. rewrite top_files_loop_app, Hloop.
  rewrite app_nil_r, length_reverse, length_fmap in Hlen. done.
Qed.

Lemma top_files_heap_bounded_witness :
  ∃ heap,
    top_files_loop 2 [] (take 3 sample_files) = Ok heap
    ∧ top_files_loop 2 [] (take 3 sample_files ++ drop 3 sample_files)
      = top_files_loop 2 heap (drop 3 sample_files)
    ∧ length heap = (Z.to_nat 2 `min` length (take 3 sample_files))%nat
    ∧ is_heap tuple_ltb heap.
Proof.
  apply (top_files_heap_bounded 2 (take 3 sample_files) (drop 3 sample_files)).
  lia.
Defined.

(** X7.  Every row that [top_files] returns is the row of a file that
    [iter_files] yields, and no file is reported more often than it is
    yielded. *)
Theorem top_files_rows_of_files (root : str) (d : node) (n : Z) (out : list record) :
  top_files root d n = Ok out → out ⊆+ row <$> iter_files root d.
Proof.
  unfold top_files. intros Hout. destruct (decide (1 ≤ n)) as [Hn|Hn].
  - destruct (top_files_of_positive (iter_files root d) n Hn)
      as (out' & Hout' & _ & _ & _ & _ & Hsub).
    rewrite Hout in Hout'. by injection Hout' as <-.
  - destruct (iter_files root d) as [|f files].
    + by injection Hout as <-.
    + rewrite top_files_of_nonpositive in Hout by lia. done.
Qed.

Lemma top_files_rows_of_files_witness :
  [(100, lit "/r/top.bin", 1); (7, lit "/r/a/b/f", 1)]
  ⊆+ row <$> iter_files (lit "/r") sample_root.
Proof.
  apply (top_files_rows_of_files (lit "/r") sample_root 2). reflexivity.
Defined.

(** X8.  When [n] is at least the number of files, nothing is left out:
    [top_files] returns the rows of all the files in descending order. *)
Theorem top_files_all (root : str) (d : node) (n : Z) :
  Z.of_nat (length (iter_files root d)) ≤ n →
  top_files root d n = Ok (list_sort tuple_ltb true (row <$> iter_files root d)).
Proof.
  unfold top_files. generalize (iter_files root d). intros files Hlen.
  destruct (decide (1 ≤ n)) as [Hn|Hn].
  - destruct (top_files_of_positive files n Hn)
      as (out & Hout & _ & _ & Hsorted & Hsizes & Hsub).
    rewrite Hout. f_equal. apply sorted_rows_unique; try done.
    + apply list_sort_descending.
    + rewrite list_sort_perm. apply submseteq_length_Permutation; [done|].
      apply (f_equal length) in Hsizes. unfold largest in Hsizes.
      rewrite length_fmap, length_take, list_sort_length, length_fmap in Hsizes.
      rewrite length_fmap. lia.
  - destruct files; [done|]. cbn [length] in Hlen. lia.
Qed.

Lemma top_files_all_witness :
  top_files (lit "/r") sample_root 5
  = Ok (list_sort tuple_ltb true (row <$> iter_files (lit "/r") sample_root)).
Proof. apply (top_files_all (lit "/r") sample_root 5). vm_compute. discriminate. Defined.

(** X9.  Where reading the size of an entry through its link status and
    through [os.path.getsize] agree (both give the same size or both
    fail, as for every entry that is not a symbolic link), the total that
    [folder_size] computes for a folder is the sum of the sizes of the
    files that [iter_files] yields beneath it. *)
Theorem folder_size_iter_files (folder : str) (d : node) :
  same_sizes d = true →
  folder_size folder d = sum ((λ f, f.1.2) <$> iter_files folder d).
Proof.
  intros Hd. rewrite folder_size_eq.
  rewrite (walk_sum _ (walk_same_sizes d folder Hd)). unfold iter_files. lia.
Qed.

Lemma folder_size_iter_files_witness :
  folder_size (lit "/r") sample_root
  = sum ((λ f, f.1.2) <$> iter_files (lit "/r") sample_root).
Proof. apply (folder_size_iter_files (lit "/r") sample_root). reflexivity. Defined.

(** ** Properties beyond the claims: the folder ranking *)

(** X10.  One entry of [root] whose type cannot be read empties the whole
    ranking: [is_dir] raises inside the outer [try], and the folders
    measured so far are given up. *)
Theorem top_folders_unreadable_entry (root : str) (d : node) (n : Z)
    (it : list (str * node)) (name : str) :
  os_scandir d = Some it → (name, Opaque) ∈ it → top_folders root d n = [].
Proof.
  intros Hit Hin. unfold top_folders. rewrite Hit.
  by rewrite (top_folders_loop_opaque root it name Hin).
Qed.

Lemma top_folders_unreadable_entry_witness :
  top_folders (lit "/r")
    (Dir None (Some [(lit "a", plain_dir 2 [(lit "g", plain_file 5)]);
                     (lit "x", Opaque)])) 5
  = [].
Proof.
  apply (top_folders_unreadable_entry (lit "/r") _ 5
           [(lit "a", plain_dir 2 [(lit "g", plain_file 5)]); (lit "x", Opaque)]
           (lit "x")).
  - reflexivity.
  - apply (list_elem_of_lookup_2 _ 1%nat). reflexivity.
Defined.

(** X11.  When the type of every entry of [root] can be read and [n] is at
    least the number of entries, the rows of [top_folders] are exactly
    the immediate child directories whose own status can be read, each
    with its joined path, its modification time and the total of the
    files beneath it. *)
Theorem top_folders_all (root : str) (d : node) (n : Z) (it : list (str * node))
    (sz : Z) (p : str) (mt : Z) :
  os_scandir d = Some it →
  Forall (λ e, e.2 ≠ Opaque) it →
  Z.of_nat (length it) ≤ n →
  (sz, p, mt) ∈ top_folders root d n
  ↔ ∃ name st listing,
      (name, Dir (Some st) listing) ∈ it
      ∧ p = join root name
      ∧ mt = st_mtime st
      ∧ sz = total_size (Dir (Some st) listing).
Proof.
  intros Hit Hok Hn. unfold top_folders.
  rewrite Hit, (top_folders_loop_some root it Hok). cbn [app].
  rewrite slice_to_all.
  2:{ rewrite list_sort_length. pose proof (omap_length_le (folder_row root) it) as Hlen.
      lia. }
  rewrite list_sort_perm, list_elem_of_omap. split.
  - intros ([name e] & Hin & Hrow). unfold folder_row in Hrow. cbn [fst snd] in Hrow.
    destruct e as [| [st|] listing| |]; try done.
    injection Hrow as <- <- <-. by exists name, st, listing.
  - intros (name & st & listing & Hin & -> & -> & ->).
    by exists (name, Dir (Some st) listing).
Qed.

Lemma top_folders_all_witness :
  (12, lit "/r/a", 2) ∈ top_folders (lit "/r") sample_root 5
  ↔ ∃ name st listing,
      (name, Dir (Some st) listing) ∈ default [] (os_scandir sample_root)
      ∧ lit "/r/a" = join (lit "/r") name
      ∧ 2 = st_mtime st
      ∧ 12 = total_size (Dir (Some st) listing).
Proof.
  apply (top_folders_all (lit "/r") sample_root 5
           (default [] (os_scandir sample_root)) 12 (lit "/r/a") 2).
  - reflexivity.
  - vm_compute. by repeat constructor.
  - vm_compute. discriminate.
Defined.

(** ** Properties beyond the claims: the disk enumeration *)

(** X12.  On Windows the devices returned are exactly those of the drive
    letters whose bit is set in the mask of logical drives, whose type is
    [DRIVE_FIXED] and whose capacity can be read; the device of the
    letter [X] is named [X:] and has the path [X:\]. *)
Theorem enumerate_disks_drive_letters (h : host) (d : disk) :
  IS_WINDOWS h = true →
  d ∈ enumerate_disks h
  ↔ ∃ i letter, ascii_uppercase !! i = Some letter ∧ fixed_drive h i letter d.
Proof.
  intros Hwin. rewrite enumerate_disks_perm. unfold discover. rewrite Hwin.
  rewrite drive_fold_spec. setoid_rewrite elem_of_enumerate.
  rewrite elem_of_nil. naive_solver.
Qed.

Lemma enumerate_disks_drive_letters_witness :
  (lit "C:", [ "C"%char; ":"%char; "092"%char ], 500, 300)
    ∈ enumerate_disks sample_windows_host
  ↔ ∃ i letter, ascii_uppercase !! i = Some letter
      ∧ fixed_drive sample_windows_host i letter
          (lit "C:", [ "C"%char; ":"%char; "092"%char ], 500, 300).
Proof. apply (enumerate_disks_drive_letters sample_windows_host). reflexivity. Defined.

(** X13.  When neither the mount table nor [df] can be read, the root
    directory is the only candidate: [enumerate_disks] returns the one
    device ['/'] if it is a directory whose capacity can be read, and no
    device otherwise. *)
Theorem enumerate_disks_fallback (h : host) :
  IS_WINDOWS h = false → proc_mounts h = None → df h = None →
  enumerate_disks h
  = if isdir h (lit "/") then
      match disk_usage h (lit "/") with
      | Some (total, used, free) => [(lit "/", lit "/", total, free)]
      | None => []
      end
    else [].
Proof.
  intros Hwin Hproc Hdf. unfold enumerate_disks, discover, read_mounts.
  rewrite Hwin, Hproc, Hdf. cbn [foldl]. unfold mount_step.
  destruct (isdir h (lit "/")); [|done]. cbn [negb].
  assert (existsb (startswith (lit "/")) pseudo_prefixes = false) as -> by done.
  rewrite bool_decide_eq_false_2 by set_solver.
  by destruct (disk_usage h (lit "/")) as [[[total used] free]|].
Qed.

Lemma enumerate_disks_fallback_witness :
  enumerate_disks
    {| IS_WINDOWS := false; GetLogicalDrives := 0; GetDriveTypeW := fun _ => 0;
       proc_mounts := None; df := None; isdir := fun _ => true;
       disk_usage := fun _ => Some (100, 60, 40) |}
  = [(lit "/", lit "/", 100, 40)].
Proof.
  apply (enumerate_disks_fallback
           {| IS_WINDOWS := false; GetLogicalDrives := 0; GetDriveTypeW := fun _ => 0;
              proc_mounts := None; df := None; isdir := fun _ => true;
              disk_usage := fun _ => Some (100, 60, 40) |}); reflexivity.
Defined.

(** ** Formatting *)

Lemma float_of_int_small (n : Z) :
  Z.abs n < 2 ^ 53 → float_of_int n = Returns {| num := n; shift := 0 |}.
Proof.
  intros Hn. unfold float_of_int. cbv zeta.
  assert (Z.log2 (Z.abs n) + 1 ≤ 53) as Hbits.
  { destruct (decide (Z.abs n = 0)) as [->|Hne]; [done|].
    assert (Z.log2 (Z.abs n) < 53); [|lia].
    apply Z.log2_lt_pow2; lia. }
  destruct (Z.leb_spec (Z.log2 (Z.abs n) + 1) 53); [|lia].
  destruct (Z.leb_spec (2 ^ 1024) (Z.abs n)); [lia|].
  do 2 f_equal. lia.
Qed.

Lemma format_2f_nearest (n : Z) (k : nat) :
  0 ≤ n →
  ∃ h, format_2f {| num := n; shift := k |} = hundredths h
       ∧ nearest h n (1024 ^ Z.of_nat k)
       ∧ 100 * n / 1024 ^ Z.of_nat k ≤ h ≤ 100 * n / 1024 ^ Z.of_nat k + 1.
Proof.
  intros Hn. unfold format_2f. cbn [num shift]. cbv zeta.
  rewrite Z.abs_eq by done.
  set (d := 1024 ^ Z.of_nat k).
  assert (0 < d) as Hd by (apply Z.pow_pos_nonneg; lia).
  pose proof (Z.div_mod (100 * n) d ltac:(lia)) as Hdiv.
  pose proof (Z.mod_pos_bound (100 * n) d Hd) as Hmod.
  set (q := 100 * n / d) in *. set (r := (100 * n) mod d) in *.
  destruct (Z.ltb_spec n 0); [lia|]. cbn [app].
  eexists. split; [reflexivity|]. unfold nearest.
  destruct (Z.ltb_spec d (2 * r)); cbn [orb].
  - split; [|lia]. rewrite Z.abs_neq by nia. split; [nia|]. intros Htie. nia.
  - destruct (Z.eqb_spec (2 * r) d); cbn [andb].
    + destruct (Z.odd q) eqn:Hodd; (split; [|lia]).
      * rewrite Z.abs_neq by nia. split; [nia|]. intros _.
        by rewrite Z.even_add, <- Z.negb_odd, Hodd.
      * rewrite Z.abs_eq by nia. split; [nia|]. intros _.
        by rewrite <- Z.negb_odd, Hodd.
    + split; [|lia]. rewrite Z.abs_eq by nia. split; [nia|]. intros Htie. nia.
Qed.

Lemma float_of_int_overflow (n : Z) (e : exception) :
  float_of_int n = Raises e → e = OverflowError.
Proof.
  unfold float_of_int. cbv zeta.
  destruct (2 ^ 1024 <=? _); [|done]. by intros [= <-].
Qed.

Lemma format_bytes_loop_some (orig : float) (units : list str) :
  lit "PB" ∈ units → ∃ s, format_bytes_loop orig units = Some s.
Proof.
  revert orig. induction units as [|unit units IH]; intros orig Hin.
  - by apply elem_of_nil in Hin.
  - cbn [format_bytes_loop]. apply elem_of_cons in Hin as [<-|Hin].
    + rewrite bool_decide_eq_true_2, orb_true_r by done. by eexists.
    + destruct (float_ltb orig 1024 || bool_decide (unit = lit "PB")).
      * by eexists.
      * by apply IH.
Qed.

(** [format_bytes] returns a string, or raises [OverflowError]. *)
Lemma format_bytes_cases (size : Z) :
  format_bytes size = Raises OverflowError
  ∨ ∃ s, format_bytes size = Returns (Some s).
Proof.
  unfold format_bytes.
  destruct (float_of_int size) as [orig|e] eqn:Hfloat.
  - right. cbn [mbind outcome_bind].
    destruct (format_bytes_loop_some orig
                (lit <$> ["B"; "KB"; "MB"; "GB"; "TB"; "PB"]%string)) as [s ->].
    + do 5 (apply elem_of_cons; right). apply elem_of_cons. by left.
    + by exists s.
  - left. by rewrite (float_of_int_overflow _ _ Hfloat).
Qed.

(** Where [float(n)] overflows: from the midpoint between the largest
    double and [2 ^ 1024] on. *)
Lemma float_of_int_overflows (n : Z) :
  float_of_int n = Raises OverflowError ↔ 2 ^ 1024 - 2 ^ 970 ≤ Z.abs n.
Proof.
  unfold float_of_int. cbv zeta.
  set (a := Z.abs n). set (b := Z.log2 a + 1).
  assert (0 ≤ a) as Ha by (unfold a; lia).
  assert (a = 0 ∨ 2 ^ (b - 1) ≤ a < 2 ^ b) as Hab.
  { destruct (decide (a = 0)) as [|Hne]; [by left|right].
    unfold b. replace (Z.log2 a + 1 - 1) with (Z.log2 a) by lia.
    apply Z.log2_spec. lia. }
  assert (2 ^ 53 < 2 ^ 1024 - 2 ^ 970) as H53 by done.
  destruct (Z.leb_spec b 53) as [Hb|Hb].
  - assert (a < 2 ^ 53) as Hlt.
    { destruct Hab as [->|[_ Hab]]; [done|].
      eapply Z.lt_le_trans; [exact Hab|]. apply Z.pow_le_mono_r; lia. }
    destruct (Z.leb_spec (2 ^ 1024) a); [lia|]. split; [done|lia].
  - destruct Hab as [Hab|[Hlo Hhi]].
    { exfalso. unfold b in Hb. rewrite Hab in Hb. cbn in Hb. lia. }
    set (e := b - 53).
    assert (0 < e) as He by (unfold e; lia).
    rewrite Z.shiftr_div_pow2, Z.shiftl_mul_pow2, Z.land_ones by lia.
    rewrite Z.shiftl_1_l.
    assert (0 < 2 ^ e) as Hpow by (apply Z.pow_pos_nonneg; lia).
    pose proof (Z.div_mod a (2 ^ e) ltac:(lia)) as Hdiv.
    pose proof (Z.mod_pos_bound a (2 ^ e) Hpow) as Hmod.
    set (q := a / 2 ^ e) in *. set (r := a mod 2 ^ e) in *.
    assert (2 ^ b = 2 ^ 53 * 2 ^ e) as Hb53.
    { rewrite <- Z.pow_add_r by lia. f_equal. unfold e. lia. }
    assert (2 ^ (b - 1) = 2 ^ 52 * 2 ^ e) as Hb52.
    { rewrite <- Z.pow_add_r by lia. f_equal. unfold e. lia. }
    assert (2 ^ 52 ≤ q < 2 ^ 53) as Hq by nia.
    set (up := (2 ^ (e - 1) <? r) || (r =? 2 ^ (e - 1)) && Z.odd q).
    destruct (decide (b ≤ 1023)) as [Hsmall|Hbig].
    + assert (2 ^ b ≤ 2 ^ 1023) as Hle by (apply Z.pow_le_mono_r; lia).
      assert ((if up then q + 1 else q) * 2 ^ e ≤ 2 ^ b) as Hround.
      { rewrite Hb53. destruct up; nia. }
      assert (2 ^ 1023 < 2 ^ 1024 - 2 ^ 970) as Hthr by done.
      destruct (Z.leb_spec (2 ^ 1024) ((if up then q + 1 else q) * 2 ^ e)).
      * exfalso. assert (2 ^ 1023 < 2 ^ 1024) by done. lia.
      * split; [done|lia].
    + destruct (decide (b = 1024)) as [Hb1024|Hb1025].
      * assert (e = 971) as He971 by (unfold e; lia).
        rewrite He971 in *. change (971 - 1) with 970 in *.
        assert (2 ^ 1024 = 2 ^ 53 * 2 ^ 971) as H1024 by done.
        assert (2 ^ 971 = 2 * 2 ^ 970) as H971 by done.
        assert (2 ^ (e - 1) = 2 ^ 970) as He1 by (by rewrite He971).
        unfold up. rewrite He1. clear up.
        set (up := (2 ^ 970 <? r) || (r =? 2 ^ 970) && Z.odd q).
        destruct (Z.leb_spec (2 ^ 1024) ((if up then q + 1 else q) * 2 ^ 971))
          as [Hover|Hfits].
        -- split; [intros _|done].
           destruct up eqn:Hup; [|nia].
           assert (q = 2 ^ 53 - 1) as Hq' by nia.
           unfold up in Hup. apply orb_true_iff in Hup as [Hup|Hup].
           ++ apply Z.ltb_lt in Hup. nia.
           ++ apply andb_true_iff in Hup as [Hup%Z.eqb_eq _]. nia.
        -- split; [done|intros Hthr]. exfalso.
           assert (q = 2 ^ 53 - 1) as Hq' by nia.
           assert (2 ^ 970 ≤ r) as Hr by nia.
           assert (up = true) as Hup.
           { unfold up. destruct (Z.ltb_spec (2 ^ 970) r); [done|].
             assert (r = 2 ^ 970) as -> by lia.
             rewrite Z.eqb_refl, Hq'. done. }
           rewrite Hup in Hfits. nia.
      * assert (2 ^ 1024 ≤ 2 ^ (b - 1)) as Hge by (apply Z.pow_le_mono_r; lia).
        assert (2 ^ 1024 ≤ (if up then q + 1 else q) * 2 ^ e) as Hover.
        { destruct up; nia. }
        destruct (Z.leb_spec (2 ^ 1024) ((if up then q + 1 else q) * 2 ^ e)); [|lia].
        split; [intros _|done].
        assert (0 < 2 ^ 970) by done. lia.
Qed.

Lemma format_bytes_small (size : Z) :
  Z.abs size < 2 ^ 53 →
  format_bytes size
  = Returns (format_bytes_loop {| num := size; shift := 0 |} units).
Proof. intros H. unfold format_bytes. by rewrite float_of_int_small. Qed.

Lemma format_bytes_loop_next (n : Z) (k : nat) (unit : str) (rest : list str) :
  1024 ^ Z.of_nat (S k) ≤ n → unit ≠ lit "PB" →
  format_bytes_loop {| num := n; shift := k |} (unit :: rest)
  = format_bytes_loop {| num := n; shift := S k |} rest.
Proof.
  intros Hn Hunit. cbn [format_bytes_loop]. unfold float_ltb. cbn [num shift].
  rewrite Nat2Z.inj_succ, Z.pow_succ_r in Hn by lia.
  destruct (Z.ltb_spec n (1024 * 1024 ^ Z.of_nat k)); [lia|].
  by rewrite bool_decide_eq_false_2.
Qed.

Lemma format_bytes_loop_here (n : Z) (k : nat) (unit : str) (rest : list str) :
  n < 1024 ^ Z.of_nat (S k) →
  format_bytes_loop {| num := n; shift := k |} (unit :: rest)
  = Some (if bool_decide (unit ≠ lit "B")
          then format_2f {| num := n; shift := k |} ++ lit " " ++ unit
          else str_of_int (int_of_float {| num := n; shift := k |}) ++ lit " B").
Proof.
  intros Hn. cbn [format_bytes_loop]. unfold float_ltb. cbn [num shift].
  rewrite Nat2Z.inj_succ, Z.pow_succ_r in Hn by lia.
  by destruct (Z.ltb_spec n (1024 * 1024 ^ Z.of_nat k)); [|lia].
Qed.

(** ** Properties beyond the claims: formatting *)

(** X14.  A size below 1024, negative ones included, is written as the
    integer itself followed by [" B"], as long as a double holds it
    exactly. *)
Theorem format_bytes_below_1024 (size : Z) :
  - 2 ^ 53 < size < 1024 →
  format_bytes size = Returns (Some (str_of_int size ++ lit " B")).
Proof.
  intros Hsize. rewrite format_bytes_small by lia.
  unfold units. cbn [fmap list_fmap]. rewrite format_bytes_loop_here by (cbn; lia).
  rewrite bool_decide_eq_false_2 by (intros H; by apply H).
  unfold int_of_float. cbn [num shift]. by rewrite Z.quot_1_r.
Qed.

Lemma format_bytes_below_1024_witness :
  format_bytes 1023 = Returns (Some (str_of_int 1023 ++ lit " B")).
Proof. apply (format_bytes_below_1024 1023). lia. Defined.

(** X15.  A size from 1024 on that a double holds exactly is written in
    the unit [k] steps up the ladder for which
    [1024^k <= size < 1024^(k+1)], as the number of hundredths of that
    unit nearest to the size: a number from 1.00 to 1024.00 with two
    decimals, a space and the unit. *)
Theorem format_bytes_scaled (size : Z) :
  1024 ≤ size < 2 ^ 53 →
  ∃ (k : nat) (unit : str) (h : Z),
    units !! k = Some unit
    ∧ (1 ≤ k)%nat
    ∧ 1024 ^ Z.of_nat k ≤ size < 1024 ^ Z.of_nat (S k)
    ∧ nearest h size (1024 ^ Z.of_nat k)
    ∧ 100 ≤ h ≤ 102400
    ∧ format_bytes size = Returns (Some (hundredths h ++ lit " " ++ unit)).
Proof.
  intros Hsize. rewrite format_bytes_small by lia.
  assert (∀ (k : nat) unit rest,
            units !! k = Some unit → unit ≠ lit "B" → (1 ≤ k)%nat →
            1024 ^ Z.of_nat k ≤ size < 1024 ^ Z.of_nat (S k) →
            ∃ (k' : nat) (unit' : str) (h : Z),
              units !! k' = Some unit'
              ∧ (1 ≤ k')%nat
              ∧ 1024 ^ Z.of_nat k' ≤ size < 1024 ^ Z.of_nat (S k')
              ∧ nearest h size (1024 ^ Z.of_nat k')
              ∧ 100 ≤ h ≤ 102400
              ∧ Returns (format_bytes_loop {| num := size; shift := k |}
                           (unit :: rest))
                = Returns (Some (hundredths h ++ lit " " ++ unit'))) as Hcase.
  { intros k unit rest Hunits Hunit Hk Hrange.
    destruct (format_2f_nearest size k ltac:(lia)) as (h & Hh & Hnear & Hbounds).
    exists k, unit, h.
    rewrite format_bytes_loop_here by lia.
    rewrite bool_decide_eq_true_2, Hh by done.
    split; [done|]. split; [done|]. split; [done|]. split; [done|].
    split; [|done]. split.
    - transitivity (100 * size / 1024 ^ Z.of_nat k); [|lia].
      apply Z.div_le_lower_bound; [apply Z.pow_pos_nonneg; lia|lia].
    - assert (100 * size / 1024 ^ Z.of_nat k < 102400); [|lia].
      apply Z.div_lt_upper_bound; [apply Z.pow_pos_nonneg; lia|].
      rewrite Nat2Z.inj_succ, Z.pow_succ_r in Hrange by lia. lia. }
  unfold units. cbn [fmap list_fmap].
  rewrite format_bytes_loop_next by (cbn; (lia || done)).
  destruct (decide (size < 1024 ^ 2)) as [H2|H2].
  { apply (Hcase 1%nat); try done; cbn; lia. }
  rewrite format_bytes_loop_next by (cbn; (lia || done)).
  destruct (decide (size < 1024 ^ 3)) as [H3|H3].
  { apply (Hcase 2%nat); try done; cbn; lia. }
  rewrite format_bytes_loop_next by (cbn; (lia || done)).
  destruct (decide (size < 1024 ^ 4)) as [H4|H4].
  { apply (Hcase 3%nat); try done; cbn; lia. }
  rewrite format_bytes_loop_next by (cbn; (lia || done)).
  destruct (decide (size < 1024 ^ 5)) as [H5|H5].
  { apply (Hcase 4%nat); try done; cbn; lia. }
  rewrite format_bytes_loop_next by (cbn; (lia || done)).
  apply (Hcase 5%nat); try done; cbn; lia.
Qed.

Lemma format_bytes_scaled_witness :
  ∃ (k : nat) (unit : str) (h : Z),
    units !! k = Some unit
    ∧ (1 ≤ k)%nat
    ∧ 1024 ^ Z.of_nat k ≤ 1048575 < 1024 ^ Z.of_nat (S k)
    ∧ nearest h 1048575 (1024 ^ Z.of_nat k)
    ∧ 100 ≤ h ≤ 102400
    ∧ format_bytes 1048575 = Returns (Some (hundredths h ++ lit " " ++ unit)).
Proof. apply (format_bytes_scaled 1048575). lia. Defined.

(** X16.  [format_bytes] never ends without a [return]: it returns a
    string for every size whose double is finite, and raises
    [OverflowError] for the others, which are those from
    [2^1024 - 2^970] on in absolute value. *)
Theorem format_bytes_overflow (size : Z) :
  (format_bytes size = Raises OverflowError ↔ 2 ^ 1024 - 2 ^ 970 ≤ Z.abs size)
  ∧ (format_bytes size = Raises OverflowError
     ∨ ∃ s, format_bytes size = Returns (Some s)).
Proof.
  split; [|apply format_bytes_cases].
  rewrite <- float_of_int_overflows. unfold format_bytes.
  destruct (float_of_int size) as [orig|e]; cbn [mbind outcome_bind].
  - split; discriminate.
  - split; by intros [= ->].
Qed.

(** ** Computations with effects *)

Lemma ends_bind {A B} (m : io A) (k : A → io B) (Q : A → Prop) (Q' : B → Prop)
    (E : exception → Prop) :
  ends m Q E → (∀ a, Q a → ends (k a) Q' E) → ends (m ≫= k) Q' E.
Proof.
  intros Hm Hk log. unfold mbind, io_bind. specialize (Hm log).
  destruct (m log) as [log' [a|e]]; cbn in *; [|done]. by apply Hk.
Qed.

Lemma ends_weaken {A} (m : io A) (Q Q' : A → Prop) (E E' : exception → Prop) :
  ends m Q E → (∀ a, Q a → Q' a) → (∀ e, E e → E' e) → ends m Q' E'.
Proof.
  intros Hm HQ HE log. specialize (Hm log).
  destruct ((m log).2); auto.
Qed.

Lemma ends_ret {A} (a : A) (Q : A → Prop) (E : exception → Prop) :
  Q a → ends (mret a) Q E.
Proof. by intros Ha log. Qed.

Lemma ends_emit (e : effect) (E : exception → Prop) :
  ends (emit e) (λ _, True) E.
Proof. by intros log. Qed.

Lemma ends_observe {A} (f : list effect → A) (E : exception → Prop) :
  ends (observe f) (λ _, True) E.
Proof. by intros log. Qed.

Lemma ends_lift {A} (r : outcome A) (Q : A → Prop) (E : exception → Prop) :
  match r with Returns a => Q a | Raises e => E e end → ends (lift r) Q E.
Proof. by intros Hr log. Qed.

Lemma ends_for_each {A} (l : list A) (body : A → io unit) (E : exception → Prop) :
  (∀ x, x ∈ l → ends (body x) (λ _, True) E) →
  ends (for_each l body) (λ _, True) E.
Proof.
  induction l as [|x l IH]; intros Hbody.
  - by apply ends_ret.
  - cbn [for_each]. eapply ends_bind.
    + apply Hbody, elem_of_cons. by left.
    + intros _ _. apply IH. intros y Hy. apply Hbody, elem_of_cons. by right.
Qed.

(** The ways in which a sequence of two computations can end. *)
Lemma bind_inv {A B} (m : io A) (k : A → io B) (log log' : list effect)
    (r : outcome B) :
  (m ≫= k) log = (log', r) →
  (∃ a log1, m log = (log1, Returns a) ∧ k a log1 = (log', r))
  ∨ (∃ e, m log = (log', Raises e) ∧ r = Raises e).
Proof.
  unfold mbind, io_bind. destruct (m log) as [log1 [a|e]].
  - intros H. left. by exists a, log1.
  - intros [= <- <-]. right. by exists e.
Qed.

Lemma bind_ext_r {A B} (m : io A) (k k' : A → io B) :
  (∀ a log, k a log = k' a log) → ∀ log, (m ≫= k) log = (m ≫= k') log.
Proof.
  intros Hk log. unfold mbind, io_bind. by destruct (m log) as [log' [a|e]].
Qed.

(** ** The table, the rankings and the report *)

Lemma format_field_ends (width : nat) (size : Z) :
  ends (lift (format_bytes size ≫= format_right width)) (λ _, True) overflow.
Proof.
  apply ends_lift.
  destruct (format_bytes_cases size) as [->|[s ->]]; done.
Qed.

Lemma print_disks_ends (disks : list disk) :
  ends (print_disks disks) (λ _, True) overflow.
Proof.
  unfold print_disks.
  eapply ends_bind; [apply ends_emit|intros _ _].
  eapply ends_bind; [apply ends_emit|intros _ _].
  apply ends_for_each. intros [idx [[[name path] total] free]] _.
  eapply ends_bind; [apply format_field_ends|intros total' _].
  eapply ends_bind; [apply format_field_ends|intros free' _].
  eapply ends_bind; [apply format_field_ends|intros used' _].
  apply ends_emit.
Qed.

Lemma print_ranking_ends (what : str) (rows : list record) :
  ends (print_ranking what rows) (λ _, True) overflow.
Proof.
  unfold print_ranking.
  eapply ends_bind; [apply ends_emit|intros _ _].
  apply ends_for_each. intros [rank [[size p] m]] _.
  eapply ends_bind; [apply format_field_ends|intros human _].
  apply ends_emit.
Qed.

Lemma report_ranking_ends (w : world) (a : args) (kind what name : str)
    (rows : list record) (none : str) :
  export a = false →
  ends (report_ranking w a kind what name rows none) (λ _, True) overflow.
Proof.
  intros Hexport. unfold report_ranking. destruct rows as [|row rows].
  - apply ends_emit.
  - eapply ends_bind; [apply print_ranking_ends|intros _ _].
    rewrite Hexport. by apply ends_ret.
Qed.

Lemma report_ends (w : world) (a : args) (d : disk) :
  1 ≤ top a → export a = false →
  ends (report w a d) (λ _, True) overflow.
Proof.
  intros Htop Hexport. unfold report. destruct d as [[[name path] total] free].
  eapply ends_bind; [apply ends_emit|intros _ _].
  eapply ends_bind; [apply ends_observe|intros root _].
  eapply ends_bind with (Q := λ _, True).
  { apply ends_lift. unfold top_files.
    destruct (top_files_of_positive (iter_files path root) (top a) Htop)
      as (out & -> & _). done. }
  intros files _.
  eapply ends_bind; [apply ends_emit|intros _ _].
  eapply ends_bind; [by apply report_ranking_ends|intros _ _].
  destruct (include_folders a); [|by apply ends_ret].
  eapply ends_bind; [apply ends_emit|intros _ _].
  eapply ends_bind; [apply ends_observe|intros root' _].
  by apply report_ranking_ends.
Qed.

(** ** Indexing with selected indices *)

Lemma getitem_in_range {A} (l : list A) (i : Z) :
  in_range (Z.of_nat (length l)) i →
  ∃ x, getitem l (i - 1) = Ok x ∧ l !! Z.to_nat (i - 1) = Some x.
Proof.
  intros [Hlo Hhi]. unfold getitem. cbv zeta.
  destruct (Z.ltb_spec (i - 1) 0); [lia|].
  destruct (Z.ltb_spec (i - 1) 0); [lia|].
  destruct (lookup_lt_is_Some_2 l (Z.to_nat (i - 1)) ltac:(lia)) as [x Hx].
  exists x. by rewrite Hx.
Qed.

Lemma ascending_sublist {A} (l : list A) :
  ∀ (k : Z) (indices : list Z),
    StronglySorted Z.lt indices →
    Forall (λ i, k ≤ i - 1 < k + Z.of_nat (length l)) indices →
    ∃ selected,
      Forall2 (λ i d, k ≤ i - 1 ∧ l !! Z.to_nat (i - 1 - k) = Some d)
              indices selected
      ∧ selected `sublist_of` l.
Proof.
  induction l as [|x l IH]; intros k indices Hsorted Hrange.
  - destruct indices as [|i indices].
    + exists []. split; [constructor|done].
    + apply Forall_cons in Hrange as [Hi _]. cbn in Hi. lia.
  - destruct indices as [|i indices].
    { exists []. split; [constructor|apply sublist_nil_l]. }
    assert (∀ j d, k + 1 ≤ j - 1 ∧ l !! Z.to_nat (j - 1 - (k + 1)) = Some d →
                   k ≤ j - 1 ∧ (x :: l) !! Z.to_nat (j - 1 - k) = Some d) as Hshift.
    { intros j d [Hj Hd]. split; [lia|].
      by replace (Z.to_nat (j - 1 - k)) with (S (Z.to_nat (j - 1 - (k + 1)))) by lia. }
    destruct (decide (i - 1 = k)) as [Heq|Hne].
    + apply StronglySorted_inv in Hsorted as [Hsorted Hlt].
      apply Forall_cons in Hrange as [Hi Hrange]. cbn [length] in Hi, Hrange.
      assert (Forall (λ j, k + 1 ≤ j - 1 < k + 1 + Z.of_nat (length l)) indices)
        as Hrest.
      { apply list.Forall_forall. intros j Hj.
        pose proof (proj1 (list.Forall_forall _ _) Hlt j Hj).
        pose proof (proj1 (list.Forall_forall _ _) Hrange j Hj). cbn beta in *. lia. }
      destruct (IH (k + 1) indices Hsorted Hrest) as (selected & Hsel & Hsub).
      exists (x :: selected). split; [|by apply sublist_skip].
      constructor.
      * split; [lia|]. by replace (i - 1 - k) with 0 by lia.
      * eapply Forall2_impl; [exact Hsel|]. apply Hshift.
    + assert (Forall (λ j, k + 1 ≤ j - 1 < k + 1 + Z.of_nat (length l))
                (i :: indices)) as Hrest.
      { pose proof Hsorted as Hsorted'.
        apply StronglySorted_inv in Hsorted' as [_ Hlt].
        pose proof Hrange as Hrange'.
        apply Forall_cons in Hrange' as [Hi _]. cbn [length] in Hi.
        apply list.Forall_forall. intros j Hj.
        pose proof (proj1 (list.Forall_forall _ _) Hrange j Hj) as Hj'.
        cbn beta in Hj'. cbn [length] in Hj'.
        apply elem_of_cons in Hj as [->|Hj]; [lia|].
        pose proof (proj1 (list.Forall_forall _ _) Hlt j Hj). lia. }
      destruct (IH (k + 1) (i :: indices) Hsorted Hrest) as (selected & Hsel & Hsub).
      exists selected. split; [|by apply sublist_cons].
      eapply Forall2_impl; [exact Hsel|]. apply Hshift.
Qed.

(** The loop of [main] over the selected indices is a loop over devices
    of the table, taken in the order of the table. *)
Lemma selected_devices {A} (disks : list A) (indices : list Z) :
  StronglySorted Z.lt indices →
  Forall (in_range (Z.of_nat (length disks))) indices →
  ∃ selected,
    selected `sublist_of` disks
    ∧ Forall2 (λ i d, getitem disks (i - 1) = Ok d) indices selected.
Proof.
  intros Hsorted Hrange.
  destruct (ascending_sublist disks 0 indices Hsorted) as (selected & Hsel & Hsub).
  { eapply list.Forall_impl; [exact Hrange|]. unfold in_range. cbn. intros; lia. }
  exists selected. split; [done|].
  eapply Forall2_impl; [exact Hsel|]. cbn beta. intros i d [Hi Hd].
  pose proof (lookup_lt_Some _ _ _ Hd) as Hlt.
  destruct (getitem_in_range disks i) as (x & Hx & Hx').
  { unfold in_range. lia. }
  rewrite Z.sub_0_r in Hd. rewrite Hx. congruence.
Qed.

Lemma for_each_selected {A} (disks : list A) (indices : list Z) (selected : list A)
    (body : A → io unit) :
  Forall2 (λ i d, getitem disks (i - 1) = Ok d) indices selected →
  ∀ log,
    for_each indices (fun i => d ← lift (std (getitem disks (i - 1))); body d) log
    = for_each selected body log.
Proof.
  induction 1 as [|i d indices selected Hd Hrest IH]; intros log; [done|].
  cbn [for_each]. rewrite Hd.
  change (lift (std (Ok d)) ≫= λ d, body d) with (body d).
  by apply bind_ext_r.
Qed.

Lemma bind_ext_l {A B} (m m' : io A) (k : A → io B) :
  (∀ log, m log = m' log) → ∀ log, (m ≫= k) log = (m' ≫= k) log.
Proof. intros Hm log. unfold mbind, io_bind. by rewrite Hm. Qed.

Lemma input_some (w : world) (p raw : str) {B} (k : str → io B) (log : list effect) :
  stdin w = Some raw → (input w p ≫= k) log = k raw (log ++ [Prompted p]).
Proof. intros H. unfold input. rewrite H. done. Qed.

Lemma input_ends (w : world) (p raw : str) :
  stdin w = Some raw → ends (input w p) (λ line, line = raw) (λ _, False).
Proof. intros H log. unfold input. rewrite H. done. Qed.

(** ** Properties beyond the claims: the program as a whole *)

(** X17.  The devices that [main] reports are devices of the table, each
    at most once and in the order of the table: with a selection that
    parses to [indices], not empty, the loop over [indices] with
    [disks[i - 1]] is a loop over a sublist of [disks], so no index that
    the parser returns is out of range or counts from the end. *)
Theorem main_selected_devices (w : world) (a : args) (raw : str)
    (indices : list Z) (log : list effect) :
  enumerate_disks (the_host w) ≠ [] →
  stdin w = Some raw →
  parse_selection raw (Z.of_nat (length (enumerate_disks (the_host w)))) = Ok indices →
  indices ≠ [] →
  ∃ selected,
    selected `sublist_of` enumerate_disks (the_host w)
    ∧ length selected = length indices
    ∧ main w a log
      = (print_disks (enumerate_disks (the_host w));;
         input w prompt;;
         (if export a then os_makedirs w (output_dir a) else mret tt);;
         for_each selected (report w a);;
         emit (Printed (nl :: lit "Done."));;
         mret 0) log.
Proof.
  intros Hdisks Hstdin Hparse Hne.
  destruct (parse_selection_ascending _ _ _ Hparse) as (Hsorted & _ & Hrange).
  destruct (selected_devices _ _ Hsorted Hrange) as (selected & Hsub & Hsel).
  exists selected. split; [done|]. split; [symmetry; by eapply Forall2_length|].
  unfold main. destruct (enumerate_disks (the_host w)) as [|d disks] eqn:Heq; [done|].
  apply bind_ext_r. intros _ log1.
  rewrite !(input_some w prompt raw) by done.
  rewrite Hparse. change (lift (std (Ok indices)) ≫= ?k) with (k indices).
  cbv beta. destruct indices as [|i indices]; [done|].
  apply bind_ext_r. intros _ log2.
  apply bind_ext_l. intros log3. by apply for_each_selected.
Qed.

Lemma main_selected_devices_witness :
  ∃ selected,
    selected `sublist_of` enumerate_disks (the_host sample_world)
    ∧ length selected = length [1; 2]
    ∧ main sample_world sample_args []
      = (print_disks (enumerate_disks (the_host sample_world));;
         input sample_world prompt;;
         (if export sample_args
          then os_makedirs sample_world (output_dir sample_args) else mret tt);;
         for_each selected (report sample_world sample_args);;
         emit (Printed (nl :: lit "Done."));;
         mret 0) [].
Proof.
  apply (main_selected_devices sample_world sample_args (lit "2, 1") [1; 2] []).
  - vm_compute. discriminate.
  - reflexivity.
  - vm_compute. reflexivity.
  - discriminate.
Defined.

(** X18.  With [--top] at least 1 and without [--export], whatever line
    of characters on which [isdigit] and [isdecimal] agree (all of ASCII
    among them) is typed, [main] ends with the status 0 or 1: no
    [IndexError], [ValueError] or other exception leaves it, except
    [OverflowError] for a size that no double holds. *)
Theorem main_ends (w : world) (a : args) (raw : str) (log : list effect) :
  1 ≤ top a → export a = false →
  stdin w = Some raw → Forall agreed raw → (length raw ≤ 4300)%nat →
  (main w a log).2 = Returns 0
  ∨ (main w a log).2 = Returns 1
  ∨ (main w a log).2 = Raises OverflowError.
Proof.
  intros Htop Hexport Hstdin Hraw _.
  assert (ends (main w a) (λ c, c = 0 ∨ c = 1) overflow) as Hends.
  { unfold main. destruct (enumerate_disks (the_host w)) as [|d disks] eqn:Heq.
    { eapply ends_bind; [apply ends_emit|intros _ _]. apply ends_ret. by right. }
    rewrite <- Heq. set (all := enumerate_disks (the_host w)).
    eapply ends_bind; [apply print_disks_ends|intros _ _].
    eapply ends_bind.
    { eapply ends_weaken; [by apply input_ends|intros line Hline; exact Hline|done]. }
    intros line ->. cbn beta.
    destruct (parse_selection_agreed raw (Z.of_nat (length all)) Hraw)
      as [indices Hparse].
    rewrite Hparse. change (lift (std (Ok indices)) ≫= ?k) with (k indices).
    cbv beta. destruct indices as [|i indices].
    { eapply ends_bind; [apply ends_emit|intros _ _]. apply ends_ret. by right. }
    destruct (parse_selection_ascending _ _ _ Hparse) as (_ & _ & Hrange).
    rewrite Hexport.
    eapply ends_bind with (Q := λ _, True); [by apply ends_ret|intros _ _].
    eapply ends_bind.
    { apply ends_for_each. intros j Hj.
      pose proof (proj1 (list.Forall_forall _ _) Hrange j Hj) as Hj'.
      destruct (getitem_in_range all j Hj') as (x & -> & _).
      change (lift (std (Ok x)) ≫= ?k) with (k x).
      by apply report_ends. }
    intros _ _.
    eapply ends_bind; [apply ends_emit|intros _ _]. apply ends_ret. by left. }
  specialize (Hends log). destruct ((main w a log).2) as [c|e].
  - destruct Hends as [->| ->]; auto.
  - right. right. by rewrite Hends.
Qed.

Lemma main_ends_witness :
  (main sample_world sample_args []).2 = Returns 0
  ∨ (main sample_world sample_args []).2 = Returns 1
  ∨ (main sample_world sample_args []).2 = Raises OverflowError.
Proof.
  apply (main_ends sample_world sample_args (lit "2, 1") []).
  - vm_compute. discriminate.
  - reflexivity.
  - reflexivity.
  - by repeat constructor.
  - vm_compute. lia.
Defined.

Lemma bind_returns {A B} (m : io A) (k : A → io B) (log log' : list effect) (b : B) :
  (m ≫= k) log = (log', Returns b) →
  ∃ a log1, m log = (log1, Returns a) ∧ k a log1 = (log', Returns b).
Proof.
  intros [(a & log1 & Hm & Hk)|(e & _ & He)]%bind_inv; [|done].
  by exists a, log1.
Qed.

(** X19.  The exit status says what happened: [main] returns 1 when no
    device was found or when the selection is empty, each time without a
    scan, and 0 after it has gone through a selection that is not empty;
    it returns nothing else. *)
Theorem main_exit_status (w : world) (a : args) (log : list effect) (c : Z) :
  (main w a log).2 = Returns c →
  (c = 1
   ∧ (enumerate_disks (the_host w) = []
      ∨ ∃ raw, stdin w = Some raw
          ∧ parse_selection raw (Z.of_nat (length (enumerate_disks (the_host w))))
            = Ok []))
  ∨ (c = 0
     ∧ ∃ raw i indices, stdin w = Some raw
         ∧ parse_selection raw (Z.of_nat (length (enumerate_disks (the_host w))))
           = Ok (i :: indices)).
Proof.
  destruct (main w a log) as [log' r] eqn:Hmain. cbn [snd]. intros ->.
  unfold main in Hmain.
  destruct (enumerate_disks (the_host w)) as [|d disks] eqn:Heq.
  { injection Hmain as _ <-. left. auto. }
  apply bind_returns in Hmain as (_ & log1 & _ & Hmain).
  destruct (stdin w) as [raw|] eqn:Hstdin.
  2:{ unfold input in Hmain. rewrite Hstdin in Hmain. done. }
  rewrite (input_some w prompt raw) in Hmain by done.
  destruct (parse_selection raw _) as [indices|e] eqn:Hparse; [|done].
  change (lift (std (Ok indices)) ≫= ?k) with (k indices) in Hmain.
  cbv beta in Hmain. destruct indices as [|i indices].
  { injection Hmain as _ <-. left. split; [done|]. right. by exists raw. }
  apply bind_returns in Hmain as (_ & log2 & _ & Hmain).
  apply bind_returns in Hmain as (_ & log3 & _ & Hmain).
  injection Hmain as _ <-. right. split; [done|]. by exists raw, i, indices.
Qed.

Lemma main_exit_status_witness :
  (0 = 1
   ∧ (enumerate_disks (the_host sample_world) = []
      ∨ ∃ raw, stdin sample_world = Some raw
          ∧ parse_selection raw
              (Z.of_nat (length (enumerate_disks (the_host sample_world))))
            = Ok []))
  ∨ (0 = 0
     ∧ ∃ raw i indices, stdin sample_world = Some raw
         ∧ parse_selection raw
             (Z.of_nat (length (enumerate_disks (the_host sample_world))))
           = Ok (i :: indices)).
Proof.
  apply (main_exit_status sample_world sample_args [] 0). vm_compute. reflexivity.
Defined.

(** X20.  An exception of [parse_selection] is not caught: when the line
    typed makes the parser raise, [main] ends with that exception, after
    the table and the prompt (unless the table itself has ended it with
    [OverflowError]). *)
Theorem main_selection_error (w : world) (a : args) (raw : str) (e : exn)
    (log : list effect) :
  enumerate_disks (the_host w) ≠ [] →
  stdin w = Some raw →
  parse_selection raw (Z.of_nat (length (enumerate_disks (the_host w)))) = Raise e →
  (main w a log).2 = Raises (Std e) ∨ (main w a log).2 = Raises OverflowError.
Proof.
  intros Hdisks Hstdin Hparse.
  assert (ends (main w a) (λ _, False) (λ x, x = Std e ∨ x = OverflowError))
    as Hends.
  { unfold main. destruct (enumerate_disks (the_host w)) as [|d disks] eqn:Heq;
      [done|].
    eapply ends_bind.
    { eapply ends_weaken; [apply print_disks_ends|done|]. intros x ->. by right. }
    intros _ _. eapply ends_bind.
    { eapply ends_weaken; [by apply input_ends|intros line Hline; exact Hline|done]. }
    intros line ->. cbn beta. rewrite Hparse. intros log'. cbn. by left. }
  specialize (Hends log). destruct ((main w a log).2) as [c|x]; [done|].
  destruct Hends as [-> | ->]; auto.
Qed.

Lemma main_selection_error_witness :
  (main {| the_host := sample_host; find := fun _ _ => sample_root;
           stdin := Some ["178"%char]; strftime := [];
           fromtimestamp := fun m => Returns []; makedirs := fun _ _ => true;
           open_w := fun _ _ => true |} sample_args []).2
  = Raises (Std ValueError)
  ∨ (main {| the_host := sample_host; find := fun _ _ => sample_root;
             stdin := Some ["178"%char]; strftime := [];
             fromtimestamp := fun m => Returns []; makedirs := fun _ _ => true;
             open_w := fun _ _ => true |} sample_args []).2
    = Raises OverflowError.
Proof.
  apply (main_selection_error _ sample_args ["178"%char] ValueError []).
  - vm_compute. discriminate.
  - reflexivity.
  - vm_compute. reflexivity.
Defined.

Lemma ends_observe' {A} (f : list effect → A) (E : exception → Prop) :
  ends (observe f) (λ a, ∃ log, a = f log) E.
Proof. intros log. cbn. by exists log. Qed.

Lemma os_makedirs_ends (w : world) (path : str) :
  ends (os_makedirs w path) (λ _, True) (λ x, x = OSError).
Proof.
  unfold os_makedirs. eapply ends_bind; [apply ends_observe|].
  intros [] _; [apply ends_emit|]. by apply ends_lift.
Qed.

(** X21.  With [--top] zero or negative [main] does not get past the
    first selected device on which a file is visible: [top_files] raises
    [IndexError] there and nothing catches it (unless the table, or the
    creation of the output directory, has ended [main] before). *)
Theorem main_top_nonpositive (w : world) (a : args) (raw : str) (i : Z)
    (indices : list Z) (log : list effect) :
  top a ≤ 0 →
  stdin w = Some raw →
  parse_selection raw (Z.of_nat (length (enumerate_disks (the_host w))))
  = Ok (i :: indices) →
  (∀ d log', d ∈ enumerate_disks (the_host w) →
             iter_files (disk_path d) (find w log' (disk_path d)) ≠ []) →
  (main w a log).2 = Raises (Std IndexError)
  ∨ (main w a log).2 = Raises OverflowError
  ∨ (main w a log).2 = Raises OSError.
Proof.
  intros Htop Hstdin Hparse Hfiles.
  set (E := λ x, x = Std IndexError ∨ x = OverflowError ∨ x = OSError).
  assert (ends (main w a) (λ _, False) E) as Hends.
  { unfold main.
    destruct (parse_selection_ascending _ _ _ Hparse) as (_ & _ & Hrange).
    apply Forall_cons in Hrange as [Hi _].
    destruct (enumerate_disks (the_host w)) as [|d0 disks] eqn:Heq.
    { unfold in_range in Hi. cbn in Hi. lia. }
    rewrite <- Heq in *. set (all := enumerate_disks (the_host w)) in *.
    eapply ends_bind.
    { eapply ends_weaken; [apply print_disks_ends|done|]. intros x ->.
      unfold E. auto. }
    intros _ _. eapply ends_bind.
    { eapply ends_weaken; [by apply input_ends|intros line Hline; exact Hline|done]. }
    intros line ->. cbn beta. rewrite Hparse.
    change (lift (std (Ok (i :: indices))) ≫= ?k) with (k (i :: indices)).
    cbv beta. eapply ends_bind with (Q := λ _, True).
    { destruct (export a); [|by apply ends_ret].
      eapply ends_weaken; [apply os_makedirs_ends|done|]. intros x ->.
      unfold E. auto. }
    intros _ _. eapply ends_bind with (Q := λ _, False); [|done].
    cbn [for_each]. eapply ends_bind with (Q := λ _, False); [|done].
    destruct (getitem_in_range all i Hi) as (d & -> & Hd).
    change (lift (std (Ok d)) ≫= ?k) with (k d). cbv beta.
    apply list_elem_of_lookup_2 in Hd. specialize (Hfiles d).
    unfold report. destruct d as [[[name path] total] free].
    eapply ends_bind; [apply ends_emit|intros _ _].
    eapply ends_bind; [apply ends_observe'|intros root [log' ->]].
    eapply ends_bind with (Q := λ _, False); [|done].
    apply ends_lift. unfold top_files.
    specialize (Hfiles log' Hd). cbn in Hfiles.
    destruct (iter_files path (find w log' path)) as [|f files]; [done|].
    rewrite top_files_of_nonpositive by done. cbn. unfold E. auto. }
  specialize (Hends log). destruct ((main w a log).2) as [c|x]; [done|].
  destruct Hends as [->|[->| ->]]; auto.
Qed.

Lemma main_top_nonpositive_witness :
  (main sample_world {| top := 0; include_folders := false; export := false;
                        output_dir := [] |} []).2 = Raises (Std IndexError)
  ∨ (main sample_world {| top := 0; include_folders := false; export := false;
                          output_dir := [] |} []).2 = Raises OverflowError
  ∨ (main sample_world {| top := 0; include_folders := false; export := false;
                          output_dir := [] |} []).2 = Raises OSError.
Proof.
  apply (main_top_nonpositive sample_world _ (lit "2, 1") 1 [2] []).
  - cbn. lia.
  - reflexivity.
  - vm_compute. reflexivity.
  - intros d log' _. vm_compute. discriminate.
Defined.

(** ** The file that [export_csv] writes *)

Lemma export_csv_loop (w : world) (rows : list record) :
  ∀ (start : Z) (log log' : list effect),
    for_each (zip (seqZ start (Z.of_nat (length rows))) rows)
      (fun '(rank, (size, p, m)) =>
         human ← lift (format_bytes size);
         time ← lift (fromtimestamp w m);
         emit (Writerow [str_of_int rank; str_of_int size; default [] human; p; time]))
      log
    = (log', Returns tt) →
    ∃ written,
      log' = log ++ (Writerow <$> written)
      ∧ length written = length rows
      ∧ ∀ (k : nat) r, rows !! k = Some r →
          ∃ fields, written !! k = Some fields
                    ∧ csv_row w (start + Z.of_nat k) r fields.
Proof.
  induction rows as [|[[size p] m] rows IH]; intros start log log' Hrun.
  - injection Hrun as <-. exists []. cbn. rewrite app_nil_r. by repeat split.
  - cbn [length] in Hrun. rewrite Nat2Z.inj_succ, seqZ_cons in Hrun by lia.
    replace (Z.pred (Z.succ (Z.of_nat (length rows)))) with (Z.of_nat (length rows))
      in Hrun by lia.
    cbn [zip zip_with for_each] in Hrun.
    apply bind_returns in Hrun as ([] & log1 & Hrow & Hrest).
    destruct (format_bytes_cases size) as [Hsize|[human Hsize]];
      rewrite Hsize in Hrow; [done|].
    change (lift (Returns (Some human)) ≫= ?k) with (k (Some human)) in Hrow.
    cbv beta in Hrow.
    destruct (fromtimestamp w m) as [time|e] eqn:Htime; [|done].
    change (lift (Returns time) ≫= ?k) with (k time) in Hrow.
    injection Hrow as <-.
    destruct (IH _ _ _ Hrest) as (written & -> & Hlen & Hrows).
    exists ([str_of_int start; str_of_int size; human; p; time] :: written).
    split; [by rewrite <- app_assoc|]. split; [cbn; by rewrite Hlen|].
    intros [|k] r Hr.
    + injection Hr as <-. eexists. split; [done|].
      rewrite Z.add_0_r. exists human, time. by rewrite Htime.
    + destruct (Hrows k r Hr) as (fields & Hfields & Hcsv).
      exists fields. split; [done|].
      by replace (start + Z.of_nat (S k)) with (Z.succ start + Z.of_nat k) by lia.
Qed.

(** X22.  When [export_csv] returns, it has created the directory of
    [path], opened [path] and written the header and then one row for
    each item, in the order of the items: the row of the item at position
    [k] (from 0) holds the rank [k + 1], the size in bytes, the size as
    [format_bytes] writes it, the path and the time. *)
Theorem export_csv_rows (w : world) (rows : list record) (headers : list str)
    (path : str) (log log' : list effect) :
  export_csv w rows headers path log = (log', Returns tt) →
  ∃ written,
    log' = log ++ [Makedirs (dirname path); Opened path; Writerow headers]
               ++ (Writerow <$> written)
    ∧ length written = length rows
    ∧ ∀ (k : nat) r, rows !! k = Some r →
        ∃ fields, written !! k = Some fields
                  ∧ csv_row w (Z.of_nat k + 1) r fields.
Proof.
  unfold export_csv, os_makedirs, open_write, enumerate1. intros Hrun.
  apply bind_returns in Hrun as ([] & log1 & Hmk & Hrun).
  apply bind_returns in Hmk as (ok & log0 & Hobs & Hmk).
  injection Hobs as <- <-. destruct (makedirs w log (dirname path)); [|done].
  injection Hmk as <-.
  apply bind_returns in Hrun as ([] & log2 & Hopen & Hrun).
  apply bind_returns in Hopen as (ok & log0 & Hobs & Hopen).
  injection Hobs as <- <-. destruct (open_w w _ path); [|done].
  injection Hopen as <-.
  apply bind_returns in Hrun as ([] & log3 & Hhead & Hrun).
  injection Hhead as <-.
  destruct (export_csv_loop w rows 1 _ _ Hrun) as (written & -> & Hlen & Hrows).
  exists written. split; [by rewrite <- !app_assoc|]. split; [done|].
  intros k r Hr. destruct (Hrows k r Hr) as (fields & Hfields & Hcsv).
  exists fields. split; [done|]. by rewrite Z.add_comm.
Qed.

Lemma export_csv_rows_witness :
  ∃ written,
    (export_csv sample_world [(2048, lit "/r/b", 7); (5, lit "/r/a", 3)]
       [lit "Rank"] (lit "/out/top.csv") []).1
    = [] ++ [Makedirs (dirname (lit "/out/top.csv")); Opened (lit "/out/top.csv");
             Writerow [lit "Rank"]]
         ++ (Writerow <$> written)
    ∧ length written = length [(2048, lit "/r/b", 7); (5, lit "/r/a", 3)]
    ∧ ∀ (k : nat) r,
        [(2048, lit "/r/b", 7); (5, lit "/r/a", 3)] !! k = Some r →
        ∃ fields, written !! k = Some fields
                  ∧ csv_row sample_world (Z.of_nat k + 1) r fields.
Proof.
  apply (export_csv_rows sample_world [(2048, lit "/r/b", 7); (5, lit "/r/a", 3)]
           [lit "Rank"] (lit "/out/top.csv") []).
  vm_compute. reflexivity.
Defined.

(** ** Where the exported file goes *)

(** A string in which [c] occurs, cut at the last [c]. *)
Lemma last_occurrence (c : ascii) (t : str) :
  c ∈ t → ∃ before after, t = before ++ c :: after ∧ c ∉ after.
Proof.
  induction t as [|x t IH]; intros Hin; [by apply elem_of_nil in Hin|].
  destruct (decide (c ∈ t)) as [Ht|Ht].
  - destruct (IH Ht) as (before & after & -> & Hafter).
    by exists (x :: before), after.
  - apply elem_of_cons in Hin as [->|Hin]; [|done]. by exists [], t.
Qed.

Lemma from_first_app (c : ascii) (t rest : str) :
  c ∉ t → from_first c (t ++ c :: rest) = c :: rest.
Proof.
  induction t as [|x t IH]; intros Ht.
  - cbn. by rewrite bool_decide_eq_true_2.
  - apply not_elem_of_cons in Ht as [Hx Ht]. cbn [app from_first].
    rewrite bool_decide_eq_false_2 by done. by apply IH.
Qed.

Lemma lstrip_c_app (c x : ascii) (t rest : str) :
  x ≠ c →
  ∃ (k : nat) t', t = replicate k c ++ t'
                  ∧ lstrip_c c (t ++ x :: rest) = t' ++ x :: rest.
Proof.
  intros Hx. induction t as [|y t (k & t' & -> & IH)].
  - exists 0%nat, []. split; [done|]. cbn. by rewrite bool_decide_eq_false_2.
  - cbn [app lstrip_c]. case_bool_decide as Hy.
    + subst y. by exists (S k), t'.
    + by exists 0%nat, (y :: replicate k c ++ t').
Qed.

(** The directory of a path whose last component follows a name that
    does not begin with a slash. *)
Lemma dirname_below (parent : str) (x : ascii) (name after : str) :
  x ≠ "/"%char → "/"%char ∉ after →
  ∃ (k : nat) sub,
    x :: name = sub ++ replicate k "/"%char
    ∧ sub ≠ []
    ∧ dirname (parent ++ x :: name ++ "/"%char :: after) = parent ++ sub.
Proof.
  intros Hx Hafter. unfold dirname.
  assert (reverse (from_first "/" (reverse (parent ++ x :: name ++ "/"%char :: after)))
          = parent ++ x :: name ++ ["/"%char]) as ->.
  { replace (parent ++ x :: name ++ "/"%char :: after)
      with ((parent ++ x :: name) ++ "/"%char :: after)
      by (by rewrite <- app_assoc).
    rewrite reverse_app, reverse_cons, <- app_assoc. cbn [app].
    rewrite from_first_app by (by rewrite elem_of_reverse).
    rewrite reverse_cons, reverse_involutive, <- app_assoc. done. }
  assert (bool_decide (parent ++ x :: name ++ ["/"%char] ≠ []) = true) as ->.
  { apply bool_decide_eq_true. by destruct parent. }
  assert (forallb (λ y, bool_decide (y = "/"%char)) (parent ++ x :: name ++ ["/"%char])
          = false) as ->.
  { rewrite forallb_app. cbn [forallb].
    rewrite (bool_decide_eq_false_2 (x = "/"%char)) by done.
    by rewrite andb_false_r. }
  cbn [andb negb]. unfold rstrip_c.
  replace (parent ++ x :: name ++ ["/"%char])
    with ((parent ++ x :: name) ++ ["/"%char]) by (by rewrite <- app_assoc).
  rewrite reverse_app. change (reverse ["/"%char]) with ["/"%char].
  cbn [app lstrip_c]. rewrite bool_decide_eq_true_2 by done.
  rewrite reverse_app, reverse_cons, <- app_assoc. cbn [app].
  destruct (lstrip_c_app "/" x (reverse name) (reverse parent) Hx)
    as (k & t' & Hname & ->).
  exists k, (x :: reverse t'). split; [|split; [done|]].
  - apply (f_equal reverse) in Hname.
    rewrite reverse_involutive, reverse_app, reverse_replicate in Hname.
    by rewrite Hname.
  - rewrite reverse_app, reverse_cons, reverse_involutive, <- app_assoc. done.
Qed.

(** [os.path.join(a, b)] for a [b] that does not begin with a slash:
    [a], with a slash unless it is empty or ends in one, and [b]. *)
Lemma join_relative (a : str) (x : ascii) (b : str) :
  x ≠ "/"%char →
  join a (x :: b)
  = (if bool_decide (a = []) || bool_decide (list.last a = Some "/"%char)
     then a else a ++ lit "/") ++ x :: b.
Proof.
  intros Hx. unfold join. cbn [startswith lit list_ascii_of_string].
  rewrite (bool_decide_eq_false_2 ("/"%char = x)) by done. cbn [andb].
  destruct (_ || _); [done|]. by rewrite <- app_assoc.
Qed.

Lemma replicate_app_cons {A} (k : nat) (c : A) (l : list A) :
  replicate k c ++ c :: l = c :: replicate k c ++ l.
Proof. induction k as [|k IH]; [done|]. cbn. by rewrite IH. Qed.

Lemma export_csv_opened (w : world) (rows : list record) (headers : list str)
    (path : str) (log log' : list effect) :
  export_csv w rows headers path log = (log', Returns tt) →
  Makedirs (dirname path) ∈ log' ∧ Opened path ∈ log'.
Proof.
  unfold export_csv, os_makedirs, open_write, enumerate1. intros Hrun.
  apply bind_returns in Hrun as ([] & log1 & Hmk & Hrun).
  apply bind_returns in Hmk as (ok & log0 & Hobs & Hmk).
  injection Hobs as <- <-. destruct (makedirs w log (dirname path)); [|done].
  injection Hmk as <-.
  apply bind_returns in Hrun as ([] & log2 & Hopen & Hrun).
  apply bind_returns in Hopen as (ok & log0 & Hobs & Hopen).
  injection Hobs as <- <-. destruct (open_w w _ path); [|done].
  injection Hopen as <-.
  apply bind_returns in Hrun as ([] & log3 & Hhead & Hrun).
  injection Hhead as <-.
  destruct (export_csv_loop w rows 1 _ _ Hrun) as (written & -> & _).
  rewrite !elem_of_app, !list_elem_of_singleton. split; tauto.
Qed.

(** X23.  Where the file of a device goes whose name holds a slash, as
    the name of every mount does: not into the output directory but
    below it.  The name goes into the file name as it is, [os.path.join]
    takes its slashes for separators, and [export_csv] creates the
    directories on the way: the file is opened in the directory
    [join(output_dir, sub)], where [sub], not empty, is the part of the
    file name before its last slash. *)
Theorem export_below_output_dir (w : world) (a : args) (kind what name : str)
    (rows : list record) (none : str) (log log' : list effect) :
  export a = true → rows ≠ [] → "/"%char ∈ name →
  report_ranking w a kind what name rows none log = (log', Returns tt) →
  ∃ fcsv sub rest,
    Opened fcsv ∈ log'
    ∧ fcsv = join (output_dir a) (sub ++ "/"%char :: rest)
    ∧ sub ≠ []
    ∧ dirname fcsv = join (output_dir a) sub
    ∧ Makedirs (join (output_dir a) sub) ∈ log'.
Proof.
  intros Hexport Hrows Hname Hrun. unfold report_ranking in Hrun.
  destruct rows as [|row rows]; [done|]. rewrite Hexport in Hrun.
  apply bind_returns in Hrun as ([] & log1 & _ & Hrun).
  apply bind_returns in Hrun as ([] & log2 & Hcsv & Hrun).
  injection Hrun as <-.
  apply export_csv_opened in Hcsv as [Hmk Hopen].
  set (file := str_of_int (top a) ++ kind ++ lit "_" ++ remove_c ":" name
               ++ lit "_" ++ strftime w ++ lit ".csv") in *.
  change (lit "Top" ++ file) with ("T"%char :: "o"%char :: "p"%char :: file) in *.
  assert ("/"%char ∈ "o"%char :: "p"%char :: file) as Hslash.
  { do 2 (apply elem_of_cons; right). unfold file.
    rewrite !elem_of_app. right. right. right. left.
    unfold remove_c. apply list_elem_of_filter. by split. }
  destruct (last_occurrence _ _ Hslash) as (before & after & Hfile & Hafter).
  rewrite Hfile in *.
  set (parent := if bool_decide (output_dir a = [])
                    || bool_decide (list.last (output_dir a) = Some "/"%char)
                 then output_dir a else output_dir a ++ lit "/").
  assert (∀ b, join (output_dir a) ("T"%char :: b) = parent ++ "T"%char :: b)
    as Hjoin by (intros b; by apply join_relative).
  destruct (dirname_below parent "T" before after ltac:(done) Hafter)
    as (k & sub & Hsub & Hne & Hdir).
  assert (∃ sub', sub = "T"%char :: sub') as [sub' ->].
  { destruct sub as [|x sub']; [done|]. injection Hsub as <- _. by exists sub'. }
  rewrite Hjoin in Hmk, Hopen. rewrite Hdir in Hmk.
  exists (parent ++ "T"%char :: before ++ "/"%char :: after), ("T"%char :: sub'),
    (replicate k "/"%char ++ after).
  split; [apply elem_of_app; by left|].
  split.
  { rewrite <- app_comm_cons, Hjoin. do 2 f_equal.
    injection Hsub as ->. by rewrite <- app_assoc, replicate_app_cons. }
  split; [done|]. rewrite Hjoin. split; [done|].
  apply elem_of_app. by left.
Qed.

Lemma export_below_output_dir_witness :
  ∃ fcsv sub rest,
    Opened fcsv
      ∈ (report_ranking sample_world
           {| top := 2; include_folders := false; export := true;
              output_dir := lit "/out" |}
           (lit "Files") (lit "Path") (lit "/") [(7, lit "/a/b/f", 1)] [] []).1
    ∧ fcsv = join (lit "/out") (sub ++ "/"%char :: rest)
    ∧ sub ≠ []
    ∧ dirname fcsv = join (lit "/out") sub
    ∧ Makedirs (join (lit "/out") sub)
        ∈ (report_ranking sample_world
             {| top := 2; include_folders := false; export := true;
                output_dir := lit "/out" |}
             (lit "Files") (lit "Path") (lit "/") [(7, lit "/a/b/f", 1)] [] []).1.
Proof.
  apply (export_below_output_dir sample_world
           {| top := 2; include_folders := false; export := true;
              output_dir := lit "/out" |}
           (lit "Files") (lit "Path") (lit "/") [(7, lit "/a/b/f", 1)] [] []).
  - reflexivity.
  - discriminate.
  - apply (list_elem_of_lookup_2 _ 0%nat). reflexivity.
  - vm_compute. reflexivity.
Defined.
